(** * Bakefile: value types and the Visual Studio 2010 backend

    A shallow embedding of [src/bkl/vartypes.py] and of the solution and
    XML code of [src/bkl/plugins/vs2010.py], with the properties the
    specification states about them. *)

From Stdlib Require Import ZArith Ascii String List Lia Permutation.
From stdpp Require Import base decidable option list strings sets gmap relations pretty sorting.

Set Warnings "-register-all,-clear-no-such-hyp".

Open Scope string_scope.
Open Scope list_scope.
Open Scope nat_scope.

(** ** Outcomes of Python calls

    A call either returns a value or raises.  The third case is used only
    by loops that are run with a bound on the number of iterations. *)

Inductive outcome (E A : Type) : Type :=
| Done (a : A)
| Raised (e : E)
| Diverged.
Arguments Done {E A} a.
Arguments Raised {E A} e.
Arguments Diverged {E A}.

#[global] Instance outcome_ret {E} : MRet (outcome E) := fun _ a => Done a.

#[global] Instance outcome_bind {E} : MBind (outcome E) := fun _ _ k m =>
  match m with
  | Done a => k a
  | Raised e => Raised e
  | Diverged => Diverged
  end.

#[global] Instance outcome_fmap {E} : FMap (outcome E) := fun _ _ f m =>
  match m with
  | Done a => Done (f a)
  | Raised e => Raised e
  | Diverged => Diverged
  end.

(** [[f(x) for x in l]]: left to right, the first exception wins. *)
Definition for_each {E A B} (f : A -> outcome E B) : list A -> outcome E (list B) :=
  fix go (l : list A) : outcome E (list B) :=
    match l with
    | [] => Done []
    | x :: l' => y ← f x; ys ← go l'; Done (y :: ys)
    end.

(** ** Python 2 strings

    A [unicode] object is modelled by a [string] whose characters stand for
    code points below 256; a [str] object by a [string] of bytes. *)

Module PyStr.

Definition dquote : ascii := "034"%char.
Definition squote : ascii := "039"%char.
Definition backslash : ascii := "092"%char.
Definition tab : ascii := "009"%char.
Definition newline : ascii := "010"%char.
Definition creturn : ascii := "013"%char.

Definition chr (c : ascii) : string := String c EmptyString.

Definition is_ascii (c : ascii) : bool := (nat_of_ascii c <? 128)%nat.

Fixpoint all_ascii (s : string) : bool :=
  match s with
  | EmptyString => true
  | String c s' => is_ascii c && all_ascii s'
  end.

(** [str(x)] for a unicode [x]: encoding with the default (ascii) codec,
    which raises [UnicodeEncodeError] on a code point above 127. *)
Definition str_of_unicode (x : string) : option string :=
  if all_ascii x then Some x else None.

Fixpoint contains (c : ascii) (s : string) : bool :=
  match s with
  | EmptyString => false
  | String d s' => if Ascii.eqb c d then true else contains c s'
  end.

Definition hexdigit (n : nat) : ascii :=
  match String.get n "0123456789abcdef" with
  | Some c => c
  | None => "0"%char
  end.

(** One character of [repr(s)] for a [str] [s] quoted with [q]. *)
Definition repr_char (q c : ascii) : string :=
  if Ascii.eqb c q || Ascii.eqb c backslash then String backslash (chr c)
  else if Ascii.eqb c tab then String backslash "t"
  else if Ascii.eqb c newline then String backslash "n"
  else if Ascii.eqb c creturn then String backslash "r"
  else if (nat_of_ascii c <? 32)%nat || (127 <=? nat_of_ascii c)%nat
       then String backslash
              (String "x" (String (hexdigit (nat_of_ascii c / 16))
                                  (chr (hexdigit (nat_of_ascii c mod 16)))))
  else chr c.

Fixpoint repr_body (q : ascii) (s : string) : string :=
  match s with
  | EmptyString => EmptyString
  | String c s' => repr_char q c +:+ repr_body q s'
  end.

(** [repr(s)] for a [str]: single quotes unless the text has a single
    quote and no double quote. *)
Definition repr (s : string) : string :=
  let q := if contains squote s && negb (contains dquote s)
           then dquote else squote in
  chr q +:+ repr_body q s +:+ chr q.

(** [sep.join(l)] *)
Fixpoint join (sep : string) (l : list string) : string :=
  match l with
  | [] => EmptyString
  | [x] => x
  | x :: l' => x +:+ sep +:+ join sep l'
  end.

(** [str(l)] for a list of [str]: the [repr] of each item. *)
Definition list_repr (l : list string) : string :=
  "[" +:+ join ", " (map repr l) +:+ "]".

(** [s and s[0] == c] *)
Definition starts_with_char (c : ascii) (s : string) : bool :=
  match s with
  | EmptyString => false
  | String d _ => Ascii.eqb d c
  end.

End PyStr.

(** The line end the code writes. *)
Definition nl : string := PyStr.chr PyStr.newline.

(** ** Expressions *)

(** Modelled from the spec: the expression classes of [bkl.expr], which is
    outside the files modelled here.  The spec's value shapes are a literal
    string, a boolean, an ordered list, a path (a sequence of components
    plus one anchor) and unresolved references; the code tests for
    [LiteralExpr], [ListExpr] and [PathExpr] with [isinstance] and reads
    [value], [items], [components] and [anchor]. *)
Inductive Expr : Type :=
| LiteralExpr (value : string)
| ListExpr (items : list Expr)
| ConcatExpr (items : list Expr)
| NullExpr
| BoolValueExpr (value : bool)
| ReferenceExpr (var : string)
| PathExpr (components : list Expr) (anchor : string).

(** ** Types and exceptions *)

(** The classes derived from [Type] in [bkl.vartypes]. *)
Inductive VarType : Type :=
| AnyType
| BoolType
| IdType
| PathType
| EnumType (allowed_values : list string)
| ListType (item_type : VarType).

(** What the modelled code can raise: [bkl.error.TypeError] with the type,
    the expression and the optional [msg]; [bkl.error.Error] with its
    message; the [UnicodeEncodeError] of [str(x)]; a failed [assert]; the
    built-in [TypeError] of subscripting [None]; the [IndexError] of
    [l[-1]] on an empty list; and an exception of a collaborator outside
    the modelled files. *)
Inductive exn : Type :=
| TypeError (t : VarType) (e : Expr) (msg : option string)
| Error (msg : string)
| UnicodeEncodeError
| AssertionError (msg : string)
| BuiltinTypeError (msg : string)
| IndexError
| ExternalError.

Definition res := outcome exn.

(** ** [bkl.vartypes] *)

Module VarTypes.

Definition TRUE : string := "true".
Definition FALSE : string := "false".


Definition BoolType_allowed_values : list string := [TRUE; FALSE].

(** [EnumType.__init__] *)
Definition EnumType_init (allowed_values : list string) : res VarType :=
  match allowed_values with
  | [] => Raised (AssertionError "list of values cannot be empty")
  | _ => Done (EnumType allowed_values)
  end.

(** [[str(x) for x in l]] *)
Fixpoint strs (l : list string) : res (list string) :=
  match l with
  | [] => Done []
  | x :: l' =>
      match PyStr.str_of_unicode x with
      | None => Raised UnicodeEncodeError
      | Some s => ss ← strs l'; Done (s :: ss)
      end
  end.

Section WithExpr.

(** [expr.ANCHORS], the default anchor of [expr.PathExpr] and
    [expr.split(e, "/")] belong to [bkl.expr]. *)
Variable ANCHORS : list string.
Variable ANCHOR_default : string.
Variable split : Expr -> string -> res (list Expr).

(** [Type.normalize] and its overrides in [PathType] and [ListType]. *)
Fixpoint normalize (t : VarType) (e : Expr) : res Expr :=
  match t with
  | PathType =>
      match e with
      | PathExpr _ _ => Done e
      | _ =>
          components ← split e "/";
          match components with
          | [] => Done e
          | first :: rest =>
              match first with
              | LiteralExpr value =>
                  if PyStr.starts_with_char "@" value
                  then Done (PathExpr rest value)
                  else Done (PathExpr components ANCHOR_default)
              | _ => Done (PathExpr components ANCHOR_default)
              end
          end
      end
  | ListType item_type =>
      match e with
      | ListExpr items => ListExpr <$> for_each (normalize item_type) items
      | _ => (fun x => ListExpr [x]) <$> normalize item_type e
      end
  | _ => Done e
  end.

(** [for i in items: validate(i)] *)
Fixpoint validate_all (v : Expr -> res unit) (items : list Expr) : res unit :=
  match items with
  | [] => Done tt
  | i :: items' => _ ← v i; validate_all v items'
  end.

(** [validate] of each class; [Done tt] is a normal return. *)
Fixpoint validate (t : VarType) (e : Expr) : res unit :=
  match t with
  | AnyType => Done tt
  | BoolType =>
      match e with
      | LiteralExpr value =>
          if bool_decide (value ∈ BoolType_allowed_values)
          then Done tt else Raised (TypeError t e None)
      | _ => Raised (TypeError t e None)
      end
  | IdType =>
      match e with
      | LiteralExpr _ => Done tt
      | _ => Raised (TypeError t e None)
      end
  | PathType =>
      match e with
      | PathExpr _ anchor =>
          if bool_decide (anchor ∈ ANCHORS) then Done tt
          else Raised (TypeError t e
                 (Some (PyStr.chr PyStr.dquote +:+ anchor +:+ PyStr.chr PyStr.dquote
                        +:+ " is not a valid path anchor")))
      | _ => Raised (TypeError t e None)
      end
  | EnumType allowed_values =>
      match e with
      | LiteralExpr value =>
          if bool_decide (value ∈ allowed_values) then Done tt
          else
            names ← strs allowed_values;
            Raised (TypeError t e (Some ("must be one of " +:+ PyStr.list_repr names)))
      | _ => Raised (TypeError t e None)
      end
  | ListType item_type =>
      match e with
      | ListExpr items => validate_all (validate item_type) items
      | _ => Raised (TypeError t e None)
      end
  end.

End WithExpr.

End VarTypes.

(** ** The output tree and its serializer ([Node], [XmlFormatter]) *)

Module Xml.

(** The values a node carries as attribute or as scalar child:
    a [bkl.expr.Expr], a Python [bool], a Python [list] of such values,
    or a [str] (the [else] branch of [_format_value]). *)
Inductive Value : Type :=
| VExpr (e : Expr)
| VBool (b : bool)
| VList (l : list Value)
| VStr (s : string).

(** [Node]: [name], [text], [attrs] in insertion order, [children] as
    pairs of a tag and either a node or a value. *)
Inductive Node : Type :=
| mkNode (name : string) (text : option string)
         (attrs : list (string * Value)) (children : list (string * Child))
with Child : Type :=
| ChildNode (n : Node)
| ChildValue (v : Value).

Definition name (n : Node) : string := let (a, _, _, _) := n in a.
Definition text (n : Node) : option string := let (_, t, _, _) := n in t.
Definition attrs (n : Node) : list (string * Value) := let (_, _, a, _) := n in a.
Definition children (n : Node) : list (string * Child) := let (_, _, _, c) := n in c.

(** [Node.add] with a node, and with a name and a value. *)
Definition add_node (n child : Node) : Node :=
  mkNode (name n) (text n) (attrs n) (children n ++ [(name child, ChildNode child)]).
Definition add_value (n : Node) (tag : string) (v : Value) : Node :=
  mkNode (name n) (text n) (attrs n) (children n ++ [(tag, ChildValue v)]).

Definition has_children (n : Node) : bool :=
  match children n with [] => false | _ => true end.

(** Truth value of [n.text]: neither [None] nor the empty string. *)
Definition truthy_text (t : option string) : bool :=
  match t with
  | Some (String _ _) => true
  | _ => false
  end.

(** [xml.sax.saxutils.escape] *)
Fixpoint escape (data : string) : string :=
  match data with
  | EmptyString => EmptyString
  | String c rest =>
      (if Ascii.eqb c "&" then "&amp;"
       else if Ascii.eqb c ">" then "&gt;"
       else if Ascii.eqb c "<" then "&lt;"
       else PyStr.chr c) +:+ escape rest
  end.

(** [escape(data, {'\n': '&#10;', '\r': '&#13;', '\t': '&#9;'})] *)
Fixpoint escape_attr (data : string) : string :=
  match data with
  | EmptyString => EmptyString
  | String c rest =>
      (if Ascii.eqb c "&" then "&amp;"
       else if Ascii.eqb c ">" then "&gt;"
       else if Ascii.eqb c "<" then "&lt;"
       else if Ascii.eqb c PyStr.newline then "&#10;"
       else if Ascii.eqb c PyStr.creturn then "&#13;"
       else if Ascii.eqb c PyStr.tab then "&#9;"
       else PyStr.chr c) +:+ escape_attr rest
  end.

Fixpoint replace_dquote (data : string) : string :=
  match data with
  | EmptyString => EmptyString
  | String c rest =>
      (if Ascii.eqb c PyStr.dquote then "&quot;" else PyStr.chr c)
      +:+ replace_dquote rest
  end.

(** [xml.sax.saxutils.quoteattr] *)
Definition quoteattr (data : string) : string :=
  let data := escape_attr data in
  if PyStr.contains PyStr.dquote data then
    if PyStr.contains PyStr.squote data
    then PyStr.chr PyStr.dquote +:+ replace_dquote data +:+ PyStr.chr PyStr.dquote
    else PyStr.chr PyStr.squote +:+ data +:+ PyStr.chr PyStr.squote
  else PyStr.chr PyStr.dquote +:+ data +:+ PyStr.chr PyStr.dquote.

Section WithFormatter.

(** [self.expr_formatter.format], of [bkl.expr.Formatter]; it fails on
    an unexpanded reference. *)
Variable expr_format : Expr -> res string.

(** [XmlFormatter._format_value] *)
Fixpoint _format_value (val : Value) : res string :=
  match val with
  | VExpr e => expr_format e
  | VBool b => Done (if b then "true" else "false")
  | VList l => PyStr.join ";" <$> for_each _format_value l
  | VStr s => Done s
  end.

(** The attribute loop of [_format_node]. *)
Fixpoint format_attrs (l : list (string * Value)) : res string :=
  match l with
  | [] => Done ""
  | (key, value) :: l' =>
      v ← _format_value value;
      rest ← format_attrs l';
      Done (" " +:+ key +:+ "=" +:+ quoteattr v +:+ rest)
  end.

(** What a scalar child adds to the output: nothing when the escaped
    value is empty. *)
Definition format_leaf (subindent key v : string) : string :=
  match v with
  | EmptyString => ""
  | _ => subindent +:+ "<" +:+ key +:+ ">" +:+ v +:+ "</" +:+ key +:+ ">" +:+ nl
  end.

(** One turn of the loop over [n.children]. *)
Definition format_child (format_node : Node -> string -> res string)
    (subindent : string) (c : string * Child) : res string :=
  match c with
  | (key, ChildNode value) =>
      if bool_decide (key = name value) then format_node value subindent
      else Raised (AssertionError "key == value.name")
  | (key, ChildValue value) =>
      v ← _format_value value;
      Done (format_leaf subindent key (escape v))
  end.

(** The loop over [n.children]. *)
Definition format_children (format_node : Node -> string -> res string)
    (subindent : string) : list (string * Child) -> res string :=
  fix go (l : list (string * Child)) : res string :=
    match l with
    | [] => Done ""
    | c :: l' =>
        s ← format_child format_node subindent c;
        rest ← go l';
        Done (s +:+ rest)
    end.

(** [XmlFormatter._format_node] *)
Fixpoint _format_node (n : Node) (indent : string) {struct n} : res string :=
  match n with
  | mkNode name text attrs children =>
      a ← format_attrs attrs;
      let s := indent +:+ "<" +:+ name +:+ a in
      match children with
      | _ :: _ =>
          if truthy_text text
          then Raised (AssertionError "nodes with both text and children not implemented")
          else
            body ← format_children _format_node (indent +:+ "  ") children;
            Done (s +:+ ">" +:+ nl +:+ body +:+ indent +:+ "</" +:+ name +:+ ">" +:+ nl)
      | [] =>
          if truthy_text text
          then Done (s +:+ ">" +:+ default "" text +:+ "</" +:+ name +:+ ">" +:+ nl)
          else Done (s +:+ " />" +:+ nl)
      end
  end.

Definition XML_HEADER : string :=
  "<?xml version=" +:+ PyStr.chr PyStr.dquote +:+ "1.0" +:+ PyStr.chr PyStr.dquote
  +:+ " encoding=" +:+ PyStr.chr PyStr.dquote +:+ "utf-8" +:+ PyStr.chr PyStr.dquote
  +:+ "?>" +:+ nl
  +:+ "<!-- This file was generated by Bakefile (http://bakefile.org). Do not modify, all changes will be overwritten! -->"
  +:+ nl.

(** [XmlFormatter.format] *)
Definition format (node : Node) : res string :=
  s ← _format_node node "";
  Done (XML_HEADER +:+ s).

End WithFormatter.

End Xml.

(** ** Solutions ([VS2010Solution]) *)

Module Solution.

(** The tuple [(name, guid, projectfile, dependencies)] that
    [add_project] stores and [all_projects] yields. *)
Record prjinfo : Type := mkPrj {
  prj_name : string;
  prj_guid : string;
  prj_projectfile : Expr;
  prj_deps : list string
}.

(** A solution with the solutions nested in it.  [parent_solution] is not
    a field: it is given by the place of a solution in the tree. *)
Inductive Solution : Type := mkSolution {
  sln_name : string;
  sln_guid : string;
  projects : list prjinfo;
  subsolutions : list Solution;
  guids_map : gmap string string
}.

(** The state [__init__] leaves, the output file apart. *)
Definition new_solution (name guid : string) : Solution :=
  mkSolution name guid [] [] ∅.

(** [add_project], on the tuple of the project. *)
Definition add_project (s : Solution) (prj : prjinfo) : Solution :=
  mkSolution (sln_name s) (sln_guid s) (projects s ++ [prj]) (subsolutions s)
             (<[prj_name prj := prj_guid prj]> (guids_map s)).

(** [add_subsolution]; the parent link of [solution] is its new place. *)
Definition add_subsolution (s solution : Solution) : Solution :=
  mkSolution (sln_name s) (sln_guid s) (projects s) (subsolutions s ++ [solution])
             (guids_map s).

(** [all_projects] *)
Fixpoint all_projects (s : Solution) : list prjinfo :=
  projects s ++ flat_map all_projects (subsolutions s).

(** [all_subsolutions]; each solution comes with its [parent_solution]. *)
Fixpoint all_subsolutions (s : Solution) : list (Solution * Solution) :=
  flat_map (fun sln => (s, sln) :: all_subsolutions sln) (subsolutions s).

(** [for p in l: if p[0] == id: return p] *)
Fixpoint find_project (id : string) (l : list prjinfo) : option prjinfo :=
  match l with
  | [] => None
  | p :: l' => if bool_decide (prj_name p = id) then Some p else find_project id l'
  end.

(** [for x in l: r = f(x); if r: return r], for results that are true
    whenever they are not [None]. *)
Definition first_some {A B} (f : A -> option B) : list A -> option B :=
  fix go (l : list A) : option B :=
    match l with
    | [] => None
    | x :: l' => match f x with Some r => Some r | None => go l' end
    end.

(** [_get_project_info] *)
Fixpoint _get_project_info (s : Solution) (id : string) : option prjinfo :=
  match find_project id (projects s) with
  | Some p => Some p
  | None => first_some (fun sln => _get_project_info sln id) (subsolutions s)
  end.

(** Truth value of a GUID string. *)
Definition truthy (g : string) : bool :=
  match g with EmptyString => false | _ => true end.

(** [for sln in l: guid = f(sln); if guid: return guid] *)
Definition first_truthy {A} (f : A -> option string) : list A -> option string :=
  fix go (l : list A) : option string :=
    match l with
    | [] => None
    | x :: l' =>
        match f x with
        | Some g => if truthy g then Some g else go l'
        | None => go l'
        end
    end.

(** [_find_target_guid_recursively] *)
Fixpoint _find_target_guid_recursively (s : Solution) (id : string) : option string :=
  match guids_map s !! id with
  | Some g => Some g
  | None => first_truthy (fun sln => _find_target_guid_recursively sln id) (subsolutions s)
  end.

(** *** A solution inside its tree

    [frame] is a solution with one nested solution taken out; a [node] is
    a solution together with the frames of its ancestors, the nearest
    first.  Following [parent_solution] is dropping one frame. *)
Record frame : Type := mkFrame {
  fr_name : string;
  fr_guid : string;
  fr_projects : list prjinfo;
  fr_before : list Solution;
  fr_after : list Solution;
  fr_guids_map : gmap string string
}.

Definition plug (f : frame) (s : Solution) : Solution :=
  mkSolution (fr_name f) (fr_guid f) (fr_projects f)
             (fr_before f ++ s :: fr_after f) (fr_guids_map f).

Record node : Type := mkNode { ancestors : list frame; self : Solution }.

Definition parent_solution (n : node) : option node :=
  match ancestors n with
  | [] => None
  | f :: fs => Some (mkNode fs (plug f (self n)))
  end.

(** [top = self; while top.parent_solution: top = top.parent_solution] *)
Fixpoint top_of (fs : list frame) (s : Solution) : Solution :=
  match fs with
  | [] => s
  | f :: fs' => top_of fs' (plug f s)
  end.

Definition top (n : node) : Solution := top_of (ancestors n) (self n).

(** [top is self] *)
Definition is_top (n : node) : bool :=
  match parent_solution n with None => true | Some _ => false end.

(** *** Python sets of names

    [included] is only tested for membership and measured, so it is a
    [gset].  [todo] and [todo_new] are iterated over: such a set is kept
    as the list of its members in the order they were first inserted, and
    [set_iter] turns that list into the order in which [for x in s]
    visits them.  Python leaves that order open. *)
Abbreviation pyset := (list string).

(** [s.add(x)] *)
Definition add (s : pyset) (x : string) : pyset :=
  if bool_decide (x ∈ s) then s else s ++ [x].

(** [s.update(l)], also [set(l)] from the empty set. *)
Definition update (s : pyset) (l : list string) : pyset := fold_left add l s.

Section WithSetOrder.

Variable set_iter : pyset -> list string.

(** The body of [for todo_item in todo]. *)
Fixpoint visit (top : Solution) (items : list string)
    (included : gset string) (todo_new : pyset) (additional : list prjinfo)
    : res (gset string * pyset * list prjinfo) :=
  match items with
  | [] => Done (included, todo_new, additional)
  | todo_item :: rest =>
      let included := {[todo_item]} ∪ included in
      match _get_project_info top todo_item with
      | None => Raised (BuiltinTypeError "'NoneType' object has no attribute '__getitem__'")
      | Some prj =>
          visit top rest included (update todo_new (prj_deps prj)) (additional ++ [prj])
      end
  end.

(** [while prev_count != len(included)], run for at most [fuel] tests
    of the condition. *)
Fixpoint closure_loop (fuel : nat) (top : Solution)
    (included : gset string) (todo : pyset) (additional : list prjinfo)
    (prev_count : nat) : res (list prjinfo) :=
  match fuel with
  | O => Diverged
  | S fuel' =>
      if bool_decide (prev_count = size included) then Done additional
      else
        let prev_count := size included in
        let todo := update [] (filter (fun x => x ∉ included) (set_iter todo)) in
        r ← visit top (set_iter todo) included [] additional;
        let '(included, todo_new, additional) := r in
        let todo := update todo (set_iter todo_new) in
        closure_loop fuel' top included todo additional prev_count
  end.

(** The number of tests of the loop condition that [additional_deps]
    is given: two more than there are projects in the whole tree. *)
Definition passes_bound (top : Solution) : nat :=
  S (S (length (all_projects top))).

(** [additional_deps] *)
Definition additional_deps (n : node) : res (list prjinfo) :=
  let additional := [] in
  if is_top n then Done additional
  else
    let included : gset string :=
      list_to_set (map prj_name (all_projects (self n))) in
    let todo := fold_left (fun todo p => update todo (prj_deps p))
                          (all_projects (self n)) [] in
    closure_loop (passes_bound (top n)) (top n) included todo additional 0.

(** *** The solution file *)

(** One [self.write] of [commit]: fixed text, or one of the lines that
    carry names and GUIDs. *)
Inductive entry : Type :=
| Raw (s : string)
| ProjectEntry (name file guid : string)
| DependencyEntry (guid : string)
| FolderEntry (name guid : string)
| ConfigEntry (guid cfg : string)
| NestedEntry (child parent : string).

#[global] Instance entry_eq_dec : EqDecision entry.
Proof. solve_decision. Defined.

Definition dq : string := PyStr.chr PyStr.dquote.
Definition tb : string := PyStr.chr PyStr.tab.

(** The text each write puts into the file. *)
Definition render (e : entry) : string :=
  match e with
  | Raw s => s
  | ProjectEntry name file guid =>
      "Project(" +:+ dq +:+ "{8BC9CEB8-8B4A-11D0-8D11-00A0C91BC942}" +:+ dq +:+ ") = "
      +:+ dq +:+ name +:+ dq +:+ ", " +:+ dq +:+ file +:+ dq +:+ ", "
      +:+ dq +:+ guid +:+ dq +:+ nl
  | DependencyEntry g => tb +:+ tb +:+ g +:+ " = " +:+ g +:+ nl
  | FolderEntry name guid =>
      "Project(" +:+ dq +:+ "{2150E333-8FDC-42A3-9474-1A3956D46DE8}" +:+ dq +:+ ") = "
      +:+ dq +:+ name +:+ dq +:+ ", " +:+ dq +:+ name +:+ dq +:+ ", "
      +:+ dq +:+ guid +:+ dq +:+ nl
  | ConfigEntry guid cfg => tb +:+ tb +:+ guid +:+ cfg +:+ nl
  | NestedEntry child parent => tb +:+ tb +:+ child +:+ " = " +:+ parent +:+ nl
  end.

(** Modelled from the spec: [OutputFile] of [bkl.io], of which only the
    calls are in the modelled files.  [write] collects text; the artifact
    is produced by [commit] of the base class alone, so a file that was
    never committed is not written at all. *)
Record OutputFile : Type := mkOutputFile {
  written : list entry;
  committed : bool
}.

Definition write (f : OutputFile) (es : list entry) : OutputFile :=
  mkOutputFile (written f ++ es) (committed f).

Definition OutputFile_commit (f : OutputFile) : OutputFile :=
  mkOutputFile (written f) true.

(** The text of the artifact, if there is one. *)
Definition artifact (f : OutputFile) : option string :=
  if committed f then Some (String.concat "" (map render (written f))) else None.

(** A grouping in the loop over [all_folders]: a nested solution, or the
    [AdditionalDepsFolder] object. *)
Record folder : Type := mkFolder {
  fld_name : string;
  fld_guid : string;
  fld_projects : list prjinfo;
  fld_subsolutions : list Solution;
  fld_parent : option Solution
}.

Definition folder_of (ps : Solution * Solution) : folder :=
  mkFolder (sln_name ps.2) (sln_guid ps.2) (projects ps.2) (subsolutions ps.2) (Some ps.1).

(** [sln.omit_from_tree]: false without a parent. *)
Definition omit_from_tree (sln : folder) : bool :=
  match fld_parent sln with
  | Some _ => (length (fld_projects sln) + length (fld_subsolutions sln) <=? 1)%nat
  | None => false
  end.

(** [sln.guid if not sln.omit_from_tree else sln.parent_solution.guid];
    [omit_from_tree] holds only where there is a parent. *)
Definition parentguid (sln : folder) : string :=
  match fld_parent sln with
  | Some parent => if omit_from_tree sln then sln_guid parent else fld_guid sln
  | None => fld_guid sln
  end.

(** The four configuration lines of one project. *)
Definition config_entries (guid : string) : list entry :=
  [ ConfigEntry guid ".Debug|Win32.ActiveCfg = Debug|Win32";
    ConfigEntry guid ".Debug|Win32.Build.0 = Debug|Win32";
    ConfigEntry guid ".Release|Win32.ActiveCfg = Release|Win32";
    ConfigEntry guid ".Release|Win32.Build.0 = Release|Win32" ].

(** The entry of one grouping, unless it is omitted. *)
Definition folder_entries (sln : folder) : list entry :=
  if omit_from_tree sln then []
  else [FolderEntry (fld_name sln) (fld_guid sln); Raw ("EndProject" +:+ nl)].

(** The nesting lines of one grouping. *)
Definition nested_entries (sln : folder) : list entry :=
  map (fun prj => NestedEntry (prj_guid prj) (parentguid sln)) (fld_projects sln)
  ++ map (fun subsln => NestedEntry (sln_guid subsln) (fld_guid sln)) (fld_subsolutions sln).

Section WithFormats.

(** [format_version] and [human_version] of the class, the formatter of
    the solution, and [GUID] with [NAMESPACE_INTERNAL] of [vsbase]. *)
Variable format_version human_version : string.
Variable format_path : Expr -> res string.
Variable GUID : string -> string -> string -> string.
Variable NAMESPACE_INTERNAL : string.

(** [write_header], on the new file. *)
Definition write_header (f : OutputFile) : OutputFile :=
  write f [ Raw (String "239" (String "187" (String "191" "")));
            Raw nl;
            Raw ("Microsoft Visual Studio Solution File, Format Version "
                 +:+ format_version +:+ nl);
            Raw ("# Visual Studio " +:+ human_version +:+ nl) ].

(** The output file as [__init__] leaves it. *)
Definition new_file : OutputFile := write_header (mkOutputFile [] false).

(** [_get_target_guid] *)
Definition _get_target_guid (n : node) (id : string) : res string :=
  match guids_map (self n) !! id with
  | Some g => Done g
  | None =>
      match _find_target_guid_recursively (top n) id with
      | Some g =>
          if truthy g then Done g
          else Raised (AssertionError ("can't find GUID of project '" +:+ id +:+ "'"))
      | None => Raised (AssertionError ("can't find GUID of project '" +:+ id +:+ "'"))
      end
  end.

(** The writes of [commit] for one project. *)
Definition project_entries (n : node) (p : prjinfo) : res (list entry) :=
  file ← format_path (prj_projectfile p);
  deps ← match prj_deps p with
         | [] => Done []
         | ds =>
             gs ← for_each (_get_target_guid n) ds;
             Done ([Raw (tb +:+ "ProjectSection(ProjectDependencies) = postProject" +:+ nl)]
                   ++ map DependencyEntry gs
                   ++ [Raw (tb +:+ "EndProjectSection" +:+ nl)])
         end;
  Done (ProjectEntry (prj_name p) file (prj_guid p) :: deps ++ [Raw ("EndProject" +:+ nl)]).

(** The [extras] object of [commit]. *)
Definition extras (n : node) (additional_deps : list prjinfo) : folder :=
  mkFolder "Additional Dependencies"
           (GUID NAMESPACE_INTERNAL (sln_name (self n)) "Additional Dependencies")
           additional_deps [] None.

(** [all_folders] of [commit]. *)
Definition all_folders (n : node) (additional_deps : list prjinfo) : list folder :=
  map folder_of (all_subsolutions (self n))
  ++ match additional_deps with
     | [] => []
     | _ => [extras n additional_deps]
     end.

(** What [commit] writes after the projects, for a solution that has some. *)
Definition tail_entries (folders : list folder) (guids : list string) : list entry :=
  flat_map folder_entries folders
  ++ [ Raw ("Global" +:+ nl);
       Raw (tb +:+ "GlobalSection(SolutionConfigurationPlatforms) = preSolution" +:+ nl);
       Raw (tb +:+ tb +:+ "Debug|Win32 = Debug|Win32" +:+ nl);
       Raw (tb +:+ tb +:+ "Release|Win32 = Release|Win32" +:+ nl);
       Raw (tb +:+ "EndGlobalSection" +:+ nl);
       Raw (tb +:+ "GlobalSection(ProjectConfigurationPlatforms) = postSolution" +:+ nl) ]
  ++ flat_map config_entries guids
  ++ [ Raw (tb +:+ "EndGlobalSection" +:+ nl);
       Raw (tb +:+ "GlobalSection(SolutionProperties) = preSolution" +:+ nl);
       Raw (tb +:+ tb +:+ "HideSolutionNode = FALSE" +:+ nl);
       Raw (tb +:+ "EndGlobalSection" +:+ nl) ]
  ++ match folders with
     | [] => []
     | _ => [Raw (tb +:+ "GlobalSection(NestedProjects) = preSolution" +:+ nl)]
            ++ flat_map nested_entries folders
            ++ [Raw (tb +:+ "EndGlobalSection" +:+ nl)]
     end
  ++ [Raw ("EndGlobal" +:+ nl)].

(** [commit], from the output file the solution has collected so far. *)
Definition commit (n : node) (f : OutputFile) : res OutputFile :=
  additional_deps ← additional_deps n;
  let prjs := all_projects (self n) ++ additional_deps in
  pes ← for_each (project_entries n) prjs;
  let f := write f (concat pes) in
  let guids := map prj_guid prjs in
  match guids with
  | [] => Done f
  | _ =>
      let folders := all_folders n additional_deps in
      Done (OutputFile_commit (write f (tail_entries folders guids)))
  end.

End WithFormats.

End WithSetOrder.

End Solution.

(** ** Generation for a module ([VS201xToolsetBase.gen_for_module]) *)

Module Toolset.

Import Solution.

(** [VS2010Project]: what [gen_for_target] or the target type hands back. *)
Record VSProject : Type := mkVSProject {
  name : string;
  guid : string;
  projectfile : Expr;
  dependencies : list string;
  version : Z
}.

(** A target of the model, as far as [gen_for_module] reads it. *)
Record Target : Type := mkTarget {
  t_name : string;
  t_type_name : string
}.

(** [t.type.vs_project(self, t)]: a project, or [NotImplementedError]. *)
Inductive fallback : Type :=
| Generated (prj : VSProject)
| NotImplemented.

(** The tuple [add_project] builds from a project. *)
Definition info (prj : VSProject) : prjinfo :=
  mkPrj (name prj) (guid prj) (projectfile prj) (dependencies prj).

(** [l[-1]] *)
Definition newest (l : list Z) : res Z :=
  match last l with
  | Some v => Done v
  | None => Raised IndexError
  end.

(** The largest version of a list, if it has one. *)
Definition largest (l : list Z) : option Z :=
  match l with
  | [] => None
  | v :: l' => Some (fold_left Z.max l' v)
  end.

(** A text between double quotes. *)
Definition quoted (s : string) : string :=
  PyStr.chr PyStr.dquote +:+ s +:+ PyStr.chr PyStr.dquote.

Section WithToolset.

(** [self.version], [self.proj_versions], [self.gen_for_target] (which
    returns [None] for a target it has no native support for), the
    fallback of the target type, and [str] of a project file. *)
Variable toolset_version : Z.
Variable proj_versions : list Z.
Variable gen_for_target : Target -> option VSProject.
Variable vs_project : Target -> fallback.
Variable str_of_expr : Expr -> string.

Definition msg_unsupported (t : Target) : string :=
  "target type " +:+ quoted (t_type_name t) +:+ " is not supported by vs2010 toolset, ignoring".

Definition msg_name (prj : VSProject) (t : Target) : string :=
  "project name (" +:+ quoted (name prj) +:+ ") differs from target name ("
  +:+ quoted (t_name t) +:+ "), they must be the same".

Definition msg_too_new (prj : VSProject) : string :=
  "project " +:+ str_of_expr (projectfile prj) +:+ " is for Visual Studio "
  +:+ pretty (version prj) +:+ " and will not work with " +:+ pretty toolset_version.

Definition msg_older (prj : VSProject) : string :=
  "project " +:+ str_of_expr (projectfile prj) +:+ " is for Visual Studio "
  +:+ pretty (version prj) +:+ ", not " +:+ pretty toolset_version
  +:+ ", will be converted when built".

(** The state the loop over the targets works on: the solution of the
    module and the warnings given so far. *)
Record genstate : Type := mkGen {
  solution : Solution;
  warnings : list string
}.

Definition warning (st : genstate) (msg : string) : genstate :=
  mkGen (solution st) (warnings st ++ [msg]).

(** The checks on a generated project, up to [add_project]. *)
Definition check_and_add (st : genstate) (t : Target) (prj : VSProject) : res genstate :=
  if negb (bool_decide (name prj = t_name t)) then Raised (Error (msg_name prj t))
  else
    st' ← (if negb (bool_decide (version prj ∈ proj_versions)) then
             last_version ← newest proj_versions;
             if (last_version <? version prj)%Z then Raised (Error (msg_too_new prj))
             else Done (warning st (msg_older prj))
           else Done st);
    Done (mkGen (add_project (solution st') (info prj)) (warnings st')).

(** The body of the loop over [module.targets]. *)
Definition gen_target (st : genstate) (t : Target) : res genstate :=
  match gen_for_target t with
  | Some prj => check_and_add st t prj
  | None =>
      match vs_project t with
      | Generated prj => check_and_add st t prj
      | NotImplemented => Done (warning st (msg_unsupported t))
      end
  end.

(** The loop over [module.targets]. *)
Fixpoint gen_targets (st : genstate) (targets : list Target) : res genstate :=
  match targets with
  | [] => Done st
  | t :: targets' => st' ← gen_target st t; gen_targets st' targets'
  end.

(** [gen_for_module], given the solution [self.Solution(self, module)]
    makes. *)
Definition gen_for_module (fresh : Solution) (targets : list Target) : res genstate :=
  gen_targets (mkGen fresh []) targets.

(** The project the loop body checks for a target, if there is one. *)
Definition project_for (t : Target) : option VSProject :=
  match gen_for_target t with
  | Some prj => Some prj
  | None => match vs_project t with Generated prj => Some prj | NotImplemented => None end
  end.

End WithToolset.

End Toolset.

(** ** The specification's vocabulary for the groupings of a solution file *)

Module Groupings.

Import Solution.

(** A grouping is folded away when it is nested in a parent and holds one
    item or none, projects and nested groupings counted together. *)
Definition folded (sln : folder) : Prop :=
  is_Some (fld_parent sln)
  ∧ (length (fld_projects sln) + length (fld_subsolutions sln) ≤ 1)%nat.

#[global] Instance folded_dec (sln : folder) : Decision (folded sln).
Proof. unfold folded. apply _. Defined.

(** The groupings that have an entry of their own in a solution file, in
    the order of their entries. *)
Definition folder_lines (es : list entry) : list (string * string) :=
  flat_map (λ e, match e with FolderEntry name guid => [(name, guid)] | _ => [] end) es.

End Groupings.

(** ** The specification's vocabulary for the dependency closure *)

Module Closure.

Import Solution.

(** The dependency graph [D] over project names: [n] has an edge to [m]
    when a project of the tree named [n] declares the dependency [m]. *)
Definition depends_on (top : Solution) (n m : string) : Prop :=
  ∃ p, p ∈ all_projects top ∧ prj_name p = n ∧ m ∈ prj_deps p.

(** The names [P] declared locally: those of the solution's own projects
    and of the projects of its nested solutions. *)
Definition local_names (s : Solution) : gset string :=
  list_to_set (prj_name <$> all_projects s).

(** [transitive_closure(D, P)] *)
Definition transitive_closure (top : Solution) (P : gset string) (n : string) : Prop :=
  ∃ p, p ∈ P ∧ rtc (depends_on top) p n.

(** The names at most [k] edges away from [P]. *)
Definition within (top : Solution) (P : gset string) (k : nat) (n : string) : Prop :=
  ∃ p, p ∈ P ∧ bsteps (depends_on top) k p n.

(** An iteration order a Python set may have: each member once. *)
Definition admissible (set_iter : list string -> list string) : Prop :=
  ∀ l, NoDup l → set_iter l ≡ₚ l.

(** Project names are unique in the tree. *)
Definition unique_names (top : Solution) : Prop :=
  NoDup (prj_name <$> all_projects top).

(** Every declared dependency names a project of the tree. *)
Definition deps_resolve (top : Solution) : Prop :=
  ∀ p m, p ∈ all_projects top → m ∈ prj_deps p → is_Some (_get_project_info top m).

(** What holds of the variables of the loop of [additional_deps] when its
    condition is tested for the [k]-th time after the first: [included]
    holds the names at most [k] edges away from [P], [todo] holds only
    dependencies of included names and all of those that are not included
    yet, and [additional] holds, in order of distance from [P], the
    projects of the included names that are not in [P]. *)
Record loop_inv (top : Solution) (P : gset string) (k : nat)
    (included : gset string) (todo : list string) (additional : list prjinfo) : Prop := {
  inv_included : ∀ n, n ∈ included ↔ within top P k n;
  inv_todo : ∀ m, m ∈ todo → ∃ n, n ∈ included ∧ depends_on top n m;
  inv_frontier : ∀ n m, n ∈ included → depends_on top n m → m ∈ included ∨ m ∈ todo;
  inv_todo_nodup : NoDup todo;
  inv_found : ∀ q, q ∈ additional → _get_project_info top (prj_name q) = Some q;
  inv_names : ∀ n, n ∈ prj_name <$> additional ↔ n ∈ included ∧ n ∉ P;
  inv_nodup : NoDup (prj_name <$> additional);
  inv_order : ∀ (i j : nat) q q', (i ≤ j)%nat →
    additional !! i = Some q → additional !! j = Some q' →
    ∀ d, within top P d (prj_name q') → within top P d (prj_name q)
}.

(** The order of iteration that follows the order of encounter: a set
    that hands its members back in the order they were first inserted. *)
Definition discovery_order (l : list string) : list string := l.

(** *** The order of CPython 2.7 on small sets *)

Definition wrap64 (x : Z) : Z := (x mod 2 ^ 64)%Z.

Fixpoint hash_chars (x : Z) (s : string) : Z :=
  match s with
  | EmptyString => x
  | String c s' =>
      hash_chars (Z.lxor (wrap64 (1000003 * x)) (Z.of_nat (nat_of_ascii c))) s'
  end.

(** [string_hash] of CPython 2.7 without hash randomization, as an
    unsigned 64-bit number. *)
Definition string_hash (s : string) : Z :=
  match s with
  | EmptyString => 0%Z
  | String c _ =>
      let x := hash_chars (Z.shiftl (Z.of_nat (nat_of_ascii c)) 7) s in
      let x := Z.lxor x (Z.of_nat (String.length s)) in
      if (x =? 2 ^ 64 - 1)%Z then (2 ^ 64 - 2)%Z else x
  end.

(** The slot of a string in the table of eight entries a small set has. *)
Definition slot (s : string) : Z := Z.land (string_hash s) 7.

Fixpoint insert_by_slot (x : string) (l : list string) : list string :=
  match l with
  | [] => [x]
  | y :: l' => if (slot y <=? slot x)%Z then y :: insert_by_slot x l' else x :: y :: l'
  end.

(** Members by ascending slot, equal slots in order of insertion: the
    order in which CPython 2.7 walks the table of a set of at most five
    strings that fall into different slots. *)
Definition cpython27_order (l : list string) : list string :=
  fold_left (fun acc x => insert_by_slot x acc) l [].

End Closure.

(** ** Sample inputs *)

Module Samples.

Import Solution.

Definition file (nm : string) : Expr := PathExpr [LiteralExpr (nm +:+ ".vcxproj")] "@srcdir".

Definition app : prjinfo := mkPrj "app" "{G-app}" (file "app") ["b"; "c"].
Definition b : prjinfo := mkPrj "b" "{G-b}" (file "b") [].
Definition c : prjinfo := mkPrj "c" "{G-c}" (file "c") [].

Definition app_sln : Solution := add_project (new_solution "app" "{S-app}") app.
Definition libs_sln : Solution :=
  add_project (add_project (new_solution "libs" "{S-libs}") b) c.

(** The solution of [app] inside its parent, next to the libraries. *)
Definition root_frame : frame := mkFrame "root" "{S-root}" [] [] [libs_sln] ∅.
Definition app_node : node := mkNode [root_frame] app_sln.

(** A module with one target that depends on one library of a sibling. *)
Definition tool : prjinfo := mkPrj "tool" "{G-tool}" (file "tool") ["b"].
Definition tool_sln : Solution := add_project (new_solution "tool" "{S-tool}") tool.
Definition tool_node : node := mkNode [root_frame] tool_sln.

(** The parent of both, a solution without projects of its own. *)
Definition root_node : node := mkNode [] (plug root_frame tool_sln).

(** A solution whose only item is the nested solution of the libraries,
    inside a solution with one project. *)
Definition mid_sln : Solution := add_subsolution (new_solution "mid" "{S-mid}") libs_sln.
Definition deep_sln : Solution :=
  add_subsolution (add_project (new_solution "deep" "{S-deep}") tool) mid_sln.
Definition deep_node : node := mkNode [] deep_sln.

(** Dependencies in a cycle: [x] needs [y], [y] needs [z], [z] needs both. *)
Definition x : prjinfo := mkPrj "x" "{G-x}" (file "x") ["y"].
Definition y : prjinfo := mkPrj "y" "{G-y}" (file "y") ["z"].
Definition z : prjinfo := mkPrj "z" "{G-z}" (file "z") ["y"; "x"].
Definition x_sln : Solution := add_project (new_solution "x" "{S-x}") x.
Definition yz_sln : Solution :=
  add_project (add_project (new_solution "yz" "{S-yz}") y) z.
Definition cycle_frame : frame := mkFrame "all" "{S-all}" [] [] [yz_sln] ∅.
Definition x_node : node := mkNode [cycle_frame] x_sln.

(** An empty module nested in a parent. *)
Definition empty_node : node := mkNode [root_frame] (new_solution "none" "{S-none}").

Definition sample_GUID (ns a b : string) : string := "{" +:+ ns +:+ "/" +:+ a +:+ "/" +:+ b +:+ "}".

Definition sample_format (e : Expr) : res string :=
  match e with
  | PathExpr [LiteralExpr s] _ => Done s
  | _ => Raised ExternalError
  end.

Definition sample_commit (n : node) : res OutputFile :=
  commit Closure.cpython27_order sample_format sample_GUID "internal"
         n (new_file "11.00" "2010").

(** A stand-in for [expr.split] that cuts a literal at the separator. *)
Fixpoint split_chars (sep : ascii) (s cur : string) : list string :=
  match s with
  | EmptyString => [cur]
  | String ch s' =>
      if Ascii.eqb ch sep then cur :: split_chars sep s' ""
      else split_chars sep s' (cur +:+ PyStr.chr ch)
  end.

Definition sample_split (e : Expr) (sep : string) : res (list Expr) :=
  match e, sep with
  | LiteralExpr s, String ch EmptyString => Done (map LiteralExpr (split_chars ch s ""))
  | _, _ => Raised ExternalError
  end.

Definition sample_anchors : list string := ["@srcdir"; "@top_srcdir"].

(** Targets and the projects generated for them, for a toolset that
    reads the formats 10 and 11. *)
Definition lib_target : Toolset.Target := Toolset.mkTarget "lib" "library".
Definition old_lib : Toolset.VSProject := Toolset.mkVSProject "lib" "{G-lib}" (file "lib") [] 9.
Definition new_lib : Toolset.VSProject := Toolset.mkVSProject "lib" "{G-lib}" (file "lib") [] 12.
Definition misnamed_lib : Toolset.VSProject :=
  Toolset.mkVSProject "libfoo" "{G-lib}" (file "lib") [] 10.
Definition sample_versions : list Z := [10; 11]%Z.
Definition sample_str (e : Expr) : string :=
  match e with
  | PathExpr [LiteralExpr s] _ => s
  | _ => "?"
  end.

(** A node without children, to be nested in another. *)
Definition import : Xml.Node := Xml.mkNode "Import" None [] [].

(** Allowed values of an enum, one of them with a character outside
    ASCII (U+00E9). *)
Definition drinks : list string := ["caf" +:+ String "233" ""; "tea"].

End Samples.

(** ** More sample inputs *)

Module MoreSamples.

Import Solution.

(** Two projects that depend on each other, in one solution. *)
Definition u : prjinfo := mkPrj "u" "{G-u}" (Samples.file "u") ["v"].
Definition v : prjinfo := mkPrj "v" "{G-v}" (Samples.file "v") ["u"].
Definition pair_sln : Solution :=
  add_project (add_project (new_solution "pair" "{S-pair}") u) v.
Definition pair_node : node := mkNode [Samples.root_frame] pair_sln.

(** A project with a dependency that no project answers to. *)
Definition lost : prjinfo := mkPrj "lost" "{G-lost}" (Samples.file "lost") ["ghost"].
Definition lost_sln : Solution := add_project (new_solution "lost" "{S-lost}") lost.
Definition lost_node : node := mkNode [Samples.root_frame] lost_sln.

(** The same solution without a parent. *)
Definition lost_top : node := mkNode [] lost_sln.

(** A solution on its own with one project that depends on nothing. *)
Definition single_node : node := mkNode [] Samples.libs_sln.

End MoreSamples.

(** ** [Node.add] and the trees that serialize *)

Module NodeOps.

Import Xml.

(** A positional argument of [add]: a [Node], or any other value (a [str]
    is [ArgValue (VStr s)]). *)
Inductive pyarg : Type :=
| ArgNode (n : Node)
| ArgValue (v : Value).

(** The second argument of the two-argument form, stored as it is. *)
Definition as_child (a : pyarg) : Child :=
  match a with
  | ArgNode n => ChildNode n
  | ArgValue v => ChildValue v
  end.

(** [self.children.append((key, c))] *)
Definition add_child (n : Node) (key : string) (c : Child) : Node :=
  mkNode (name n) (text n) (attrs n) (children n ++ [(key, c)]).

Definition confused : res Node :=
  Raised (AssertionError "add() is confused: what are you trying to do?").

Section WithDictOrder.

(** The order in which a [dict] yields its items; Python 2 leaves it to
    the hash table. *)
Variable dict_items : gmap string Value -> list (string * Value).

(** [Node(name, **kwargs)], the positional argument being the name.
    Python binds the keyword [text] to the parameter of that name and
    refuses the keyword [name], which is bound already; what is left of
    the keywords goes into [attrs] in the order of the [dict].  The text
    of a node is [None] or a [str] in this model, so for a call that
    would store any other value as text there is no node to give:
    [None]. *)
Definition Node_init (name : string) (kwargs : gmap string Value) : option (res Node) :=
  if bool_decide (is_Some (kwargs !! "name")) then
    Some (Raised (BuiltinTypeError
                    "__init__() got multiple values for keyword argument 'name'"))
  else
    match kwargs !! "text" with
    | None => Some (Done (mkNode name None (dict_items kwargs) []))
    | Some (VStr s) =>
        Some (Done (mkNode name (Some s) (dict_items (delete "text" kwargs)) []))
    | Some _ => None
    end.

(** [Node.add], on its positional arguments and the [dict] of its keyword
    arguments. *)
Definition add (n : Node) (args : list pyarg) (kwargs : gmap string Value)
    : option (res Node) :=
  match args with
  | [] => Some (Raised (AssertionError "len(args) > 0"))
  | [arg0] =>
      match arg0 with
      | ArgNode a => Some (Done (add_child n (name a) (ChildNode a)))
      | ArgValue (VStr s) =>
          made ← Node_init s kwargs;
          Some (m ← made; Done (add_child n s (ChildNode m)))
      | _ => Some confused
      end
  | [arg0; arg1] =>
      match arg0 with
      | ArgValue (VStr s) =>
          if bool_decide (size kwargs = 0) then Some (Done (add_child n s (as_child arg1)))
          else Some confused
      | _ => Some confused
      end
  | _ => Some confused
  end.

End WithDictOrder.

Section WithFormatter.

Variable expr_format : Expr -> res string.

(** A value that [_format_value] turns into text. *)
Definition value_ok (v : Value) : Prop :=
  ∃ s, _format_value expr_format v = Done s.

(** Children that pass the loop of [_format_node]: a node sits under its
    own name and is itself fine, a value can be formatted. *)
Definition children_ok (ok : Node -> Prop) : list (string * Child) -> Prop :=
  fix go (l : list (string * Child)) : Prop :=
    match l with
    | [] => True
    | (key, ChildNode m) :: l' => (key = name m ∧ ok m) ∧ go l'
    | (key, ChildValue v) :: l' => value_ok v ∧ go l'
    end.

(** A tree nothing in [_format_node] objects to: every attribute value
    and scalar child can be formatted, no node has both text and
    children, and every child node sits under its own name. *)
Fixpoint node_ok (n : Node) : Prop :=
  match n with
  | mkNode _ text attrs children =>
      Forall (λ kv, value_ok kv.2) attrs
      ∧ (children ≠ [] → truthy_text text = false)
      ∧ children_ok node_ok children
  end.

End WithFormatter.

End NodeOps.

(** ** Default file names ([_default_solution_name] and the like) *)

Module Defaults.

(** The [AttributeError] of reading [components] off an expression that
    is not a path. *)
Inductive attr_exn : Type :=
| AttributeError (attr : string).

(** [l[:-1]] *)
Definition all_but_last {A} (l : list A) : list A := removelast l.

Section WithAnchor.

(** The default anchor of [bkl.expr.PathExpr]. *)
Variable ANCHOR_default : string.

(** [_default_solution_name], on the name of the module. *)
Definition _default_solution_name (module_name : string) : Expr :=
  PathExpr [LiteralExpr (module_name +:+ ".sln")] ANCHOR_default.

(** [PathExpr(e.components[:-1] + [LiteralExpr(leaf)], e.anchor)] *)
Definition sibling (e : Expr) (leaf : string) : outcome attr_exn Expr :=
  match e with
  | PathExpr components anchor =>
      Done (PathExpr (all_but_last components ++ [LiteralExpr leaf]) anchor)
  | _ => Raised (AttributeError "components")
  end.

(** [_project_name_from_solution], on the solution file of the target and
    the name of the target. *)
Definition _project_name_from_solution (sln : Expr) (target_name : string)
    : outcome attr_exn Expr :=
  sibling sln (target_name +:+ ".vcxproj").

(** [get_builddir_for], on the project file of the target. *)
Definition get_builddir_for (prj : Expr) : outcome attr_exn Expr :=
  sibling prj "$(Configuration)".

End WithAnchor.

End Defaults.

(** ** What a solution file holds, line kind by line kind *)

Module Lines.

Import Solution.

(** The project lines: name, file and GUID. *)
Definition project_lines (es : list entry) : list (string * string * string) :=
  flat_map (λ e, match e with ProjectEntry n f g => [(n, f, g)] | _ => [] end) es.

(** The GUIDs of the dependency lines. *)
Definition dependency_lines (es : list entry) : list string :=
  flat_map (λ e, match e with DependencyEntry g => [g] | _ => [] end) es.

(** The configuration lines: GUID and the text after it. *)
Definition config_lines (es : list entry) : list (string * string) :=
  flat_map (λ e, match e with ConfigEntry g cfg => [(g, cfg)] | _ => [] end) es.

(** The nesting lines: child and parent. *)
Definition nested_lines (es : list entry) : list (string * string) :=
  flat_map (λ e, match e with NestedEntry ch pa => [(ch, pa)] | _ => [] end) es.

(** The GUID map of a solution, and of every solution nested in it, is
    what [add_project] makes of the list of projects: under each name the
    GUID of the project added last with that name. *)
Definition guids_follow_projects (s : Solution) : Prop :=
  ∀ id, guids_map s !! id = prj_guid <$> find_project id (rev (projects s)).

(** [P] of every item of a list. *)
Definition all_of {A} (P : A -> Prop) : list A -> Prop :=
  fix go (l : list A) : Prop :=
    match l with
    | [] => True
    | x :: l' => P x ∧ go l'
    end.

Fixpoint guids_kept (s : Solution) : Prop :=
  guids_follow_projects s ∧ all_of guids_kept (subsolutions s).

End Lines.

(** ** What generation makes of the targets of a module *)

Module Generation.

Import Solution Toolset.

Section WithToolset.

Variable toolset_version : Z.
Variable proj_versions : list Z.
Variable gen_for_target : Target -> option VSProject.
Variable vs_project : Target -> fallback.
Variable str_of_expr : Expr -> string.

(** A target that gets through the loop body of [gen_for_module]: its
    project, if it has one, has the name of the target and a version that
    is supported or not above the last one of [proj_versions]. *)
Definition accepted (t : Target) : Prop :=
  ∀ prj, project_for gen_for_target vs_project t = Some prj →
    name prj = t_name t ∧
    (version prj ∈ proj_versions
     ∨ ∃ v, last proj_versions = Some v ∧ (version prj ≤ v)%Z).

(** The warnings the loop body gives for one target. *)
Definition warnings_for (t : Target) : list string :=
  match project_for gen_for_target vs_project t with
  | None => [msg_unsupported t]
  | Some prj =>
      if bool_decide (version prj ∈ proj_versions) then []
      else [msg_older toolset_version str_of_expr prj]
  end.

(** The tuples of the projects of the targets that have one. *)
Definition generated (targets : list Target) : list prjinfo :=
  info <$> omap (project_for gen_for_target vs_project) targets.

End WithToolset.

End Generation.

(** * Properties *)

(** ** Outcomes *)

Lemma fmap_Done {E A B} (f : A -> B) (m : outcome E A) (b : B) :
  f <$> m = Done b ↔ ∃ a, m = Done a ∧ b = f a.
Proof.
  destruct m as [a|e|]; simpl; split.
  - intros [= <-]. by exists a.
  - by intros (a' & [= <-] & ->).
  - discriminate.
  - by intros (? & ? & _).
  - discriminate.
  - by intros (? & ? & _).
Qed.

Lemma bind_Done {E A B} (k : A -> outcome E B) (m : outcome E A) (b : B) :
  m ≫= k = Done b ↔ ∃ a, m = Done a ∧ k a = Done b.
Proof.
  destruct m as [a|e|]; simpl; split; try discriminate.
  - intros H. by exists a.
  - by intros (a' & [= <-] & H).
  - by intros (? & ? & _).
  - by intros (? & ? & _).
Qed.

Lemma for_each_cons {E A B} (f : A -> outcome E B) x l :
  for_each f (x :: l) = f x ≫= λ y, for_each f l ≫= λ ys, Done (y :: ys).
Proof. reflexivity. Qed.

(** ** Value types *)

Module VarTypesFacts.

Import VarTypes.

Section WithExpr.

Variable ANCHORS : list string.
Variable ANCHOR_default : string.
Variable split : Expr -> string -> res (list Expr).

Abbreviation normalize := (normalize ANCHOR_default split).
Abbreviation validate := (validate ANCHORS).

Lemma validate_all_cons (v : Expr -> res unit) i items :
  validate_all v (i :: items) = Done tt ↔ v i = Done tt ∧ validate_all v items = Done tt.
Proof.
  simpl. destruct (v i) as [[]|e|]; simpl.
  - split; [by intros H | by intros [_ H]].
  - split; [discriminate | by intros [? _]].
  - split; [discriminate | by intros [? _]].
Qed.

Lemma validate_list_inv (t : VarType) e :
  validate (ListType t) e = Done tt →
  ∃ items, e = ListExpr items ∧ validate_all (validate t) items = Done tt.
Proof. destruct e; simpl; try discriminate. eauto. Qed.

(** A value that validates is left as it is by [normalize]. *)
Lemma normalize_valid (t : VarType) : ∀ e,
  validate t e = Done tt → normalize t e = Done e.
Proof.
  induction t as [| | | |A|t IH]; intros e Hv; try reflexivity.
  - destruct e; simpl in Hv; try discriminate. reflexivity.
  - apply validate_list_inv in Hv as (items & -> & Hall). simpl.
    enough (for_each (normalize t) items = Done items) as -> by reflexivity.
    induction items as [|i items IHi]; [reflexivity|].
    apply validate_all_cons in Hall as [Hi Hall].
    by rewrite for_each_cons, (IH _ Hi), (IHi Hall).
Qed.

(** C5. If normalizing a value once gives a value that validates, then
    normalizing that value again gives a value that validates too: the
    second pass returns its argument. *)
Theorem normalize_fixpoint_after_one_pass (t : VarType) (v v1 : Expr) :
  normalize t v = Done v1 →
  validate t v1 = Done tt →
  normalize t v1 = Done v1 ∧
  ∃ v2, normalize t v1 = Done v2 ∧ validate t v2 = Done tt.
Proof.
  intros _ Hv. split; [by apply normalize_valid|].
  exists v1. split; [by apply normalize_valid|done].
Qed.

(** C7. On an expression that is not a list, [ListType(I).normalize]
    gives the list of one element, that element being what [I.normalize]
    gives on the expression; it raises where [I.normalize] raises. *)
Theorem list_normalize_scalar (I : VarType) (e : Expr) :
  (∀ items, e ≠ ListExpr items) →
  normalize (ListType I) e = (fun x => ListExpr [x]) <$> normalize I e.
Proof.
  intros Hne. destruct e; try reflexivity. by destruct (Hne items).
Qed.

End WithExpr.

Lemma normalize_fixpoint_after_one_pass_witness :
  let v1 := ListExpr [PathExpr [LiteralExpr "src"; LiteralExpr "lib"] "@top_srcdir"] in
  normalize "@srcdir" Samples.sample_split (ListType PathType)
            (LiteralExpr "@top_srcdir/src/lib") = Done v1 ∧
  validate Samples.sample_anchors (ListType PathType) v1 = Done tt ∧
  normalize "@srcdir" Samples.sample_split (ListType PathType) v1 = Done v1 ∧
  ∃ v2, normalize "@srcdir" Samples.sample_split (ListType PathType) v1 = Done v2 ∧
        validate Samples.sample_anchors (ListType PathType) v2 = Done tt.
Proof.
  intros v1.
  split; [reflexivity|]. split; [reflexivity|].
  apply (normalize_fixpoint_after_one_pass Samples.sample_anchors "@srcdir"
           Samples.sample_split (ListType PathType)
           (LiteralExpr "@top_srcdir/src/lib") v1); reflexivity.
Defined.

Lemma list_normalize_scalar_witness :
  (∀ items, LiteralExpr "lib" ≠ ListExpr items) ∧
  normalize "@srcdir" Samples.sample_split (ListType PathType) (LiteralExpr "lib")
  = (fun x => ListExpr [x])
      <$> normalize "@srcdir" Samples.sample_split PathType (LiteralExpr "lib").
Proof.
  split; [discriminate|].
  apply (list_normalize_scalar "@srcdir" Samples.sample_split PathType (LiteralExpr "lib")).
  discriminate.
Defined.

(** [strs] on ASCII values hands them back. *)
Lemma strs_ascii (A : list string) :
  Forall (fun a => PyStr.all_ascii a = true) A → strs A = Done A.
Proof.
  induction 1 as [|a A Ha _ IH]; [reflexivity|].
  simpl. unfold PyStr.str_of_unicode. rewrite Ha, IH. reflexivity.
Qed.

(** [strs] fails where a value has a character outside ASCII. *)
Lemma strs_non_ascii (A : list string) :
  Exists (fun a => PyStr.all_ascii a = false) A → strs A = Raised UnicodeEncodeError.
Proof.
  induction 1 as [a A Ha|a A _ IH]; simpl; unfold PyStr.str_of_unicode.
  - by rewrite Ha.
  - destruct (PyStr.all_ascii a); [|done]. by rewrite IH.
Qed.

(** On a literal, [EnumType.validate] returns exactly for the allowed
    values. *)
Lemma enum_validate_accepts (ANCHORS : list string) (A : list string) (value : string) :
  validate ANCHORS (EnumType A) (LiteralExpr value) = Done tt ↔ value ∈ A.
Proof.
  simpl. case_bool_decide as Hin; split; try done.
  destruct (strs A); simpl; discriminate.
Qed.

(** With allowed values in ASCII, every other literal is rejected with a
    [TypeError] whose message lists the allowed values. *)
Lemma enum_validate_rejects_ascii (ANCHORS : list string) (A : list string) (value : string) :
  Forall (fun a => PyStr.all_ascii a = true) A →
  value ∉ A →
  validate ANCHORS (EnumType A) (LiteralExpr value)
  = Raised (TypeError (EnumType A) (LiteralExpr value)
              (Some ("must be one of " +:+ PyStr.list_repr A))).
Proof.
  intros Hascii Hnin. simpl. rewrite bool_decide_eq_false_2 by done.
  by rewrite (strs_ascii _ Hascii).
Qed.

(** C6, where the code departs from it.  With an allowed value outside
    ASCII, a literal that is not allowed is answered with the
    [UnicodeEncodeError] of [str(x)] instead of the [TypeError] that
    lists the allowed values. *)
Theorem enum_validate_non_ascii_allowed (ANCHORS : list string) :
  ("milk" ∉ Samples.drinks) ∧
  validate ANCHORS (EnumType Samples.drinks) (LiteralExpr "milk")
  = Raised UnicodeEncodeError.
Proof.
  split; [|reflexivity].
  apply (bool_decide_eq_false_1 ("milk" ∈ Samples.drinks)). reflexivity.
Qed.

End VarTypesFacts.

(** ** The serializer *)

Module XmlFacts.

Import Xml.

Lemma append_cons (x : ascii) (a b : string) : String x a +:+ b = String x (a +:+ b).
Proof. reflexivity. Qed.

Lemma append_assoc (a b c : string) : (a +:+ b) +:+ c = a +:+ (b +:+ c).
Proof.
  induction a as [|x a IH]; [reflexivity|].
  by rewrite !append_cons, IH.
Qed.

Lemma append_empty_r (a : string) : a +:+ "" = a.
Proof.
  induction a as [|x a IH]; [reflexivity|].
  by rewrite append_cons, IH.
Qed.

Lemma format_leaf_empty (subindent key : string) : format_leaf subindent key "" = "".
Proof. reflexivity. Qed.

Lemma format_leaf_nonempty (subindent key v : string) :
  v ≠ "" →
  format_leaf subindent key v
  = subindent +:+ "<" +:+ key +:+ ">" +:+ v +:+ "</" +:+ key +:+ ">" +:+ nl.
Proof. by destruct v. Qed.

Section WithFormatter.

Variable expr_format : Expr -> res string.

Abbreviation fmt_children := (format_children expr_format (_format_node expr_format)).

Lemma format_children_cons subindent c l :
  fmt_children subindent (c :: l)
  = format_child expr_format (_format_node expr_format) subindent c ≫= λ s,
    fmt_children subindent l ≫= λ rest, Done (s +:+ rest).
Proof. reflexivity. Qed.

(** The loop over the children works through a list piece by piece. *)
Lemma format_children_app subindent l1 l2 out :
  fmt_children subindent (l1 ++ l2) = Done out ↔
  ∃ s1 s2, fmt_children subindent l1 = Done s1 ∧
           fmt_children subindent l2 = Done s2 ∧ out = s1 +:+ s2.
Proof.
  revert out. induction l1 as [|c l1 IH]; intros out.
  - simpl. split.
    + intros H. by exists "", out.
    + by intros (s1 & s2 & [= <-] & H & ->).
  - rewrite <- app_comm_cons, !format_children_cons. split.
    + intros (s & Hs & (rest & Hrest & [= <-])%bind_Done)%bind_Done.
      apply IH in Hrest as (s1 & s2 & H1 & H2 & ->).
      exists (s +:+ s1), s2. rewrite Hs, H1. simpl.
      by rewrite append_assoc.
    + intros (s1 & s2 & (s & Hs & (rest & Hrest & [= <-])%bind_Done)%bind_Done & H2 & ->).
      rewrite Hs. simpl.
      assert (fmt_children subindent (l1 ++ l2) = Done (rest +:+ s2)) as ->.
      { apply IH. by exists rest, s2. }
      simpl. by rewrite append_assoc.
Qed.

(** The text of a node that has children. *)
Lemma format_node_with_children name text attrs c cs indent out :
  _format_node expr_format (mkNode name text attrs (c :: cs)) indent = Done out ↔
  truthy_text text = false ∧
  ∃ a body, format_attrs expr_format attrs = Done a ∧
            fmt_children (indent +:+ "  ") (c :: cs) = Done body ∧
            out = indent +:+ "<" +:+ name +:+ a +:+ ">" +:+ nl +:+ body
                  +:+ indent +:+ "</" +:+ name +:+ ">" +:+ nl.
Proof.
  cbn [_format_node]. split.
  - intros (a & Ha & H)%bind_Done.
    destruct (truthy_text text); [discriminate|].
    apply bind_Done in H as (body & Hbody & [= <-]).
    split; [done|]. exists a, body. repeat split; try done.
    by rewrite !append_assoc.
  - intros (-> & a & body & Ha & Hbody & ->).
    rewrite Ha. cbn [mbind outcome_bind]. rewrite Hbody. cbn [mbind outcome_bind].
    by rewrite !append_assoc.
Qed.

(** C8. Whenever a node is serialized, a scalar child contributes to the
    text of the node, at its place between the children before and after
    it, nothing at all if its formatted and escaped value is empty, and
    the line [<tag>escaped-value</tag>] at the indentation of the
    children otherwise. *)
Theorem scalar_child_rendering name text attrs before key v after indent out :
  _format_node expr_format
    (mkNode name text attrs (before ++ (key, ChildValue v) :: after)) indent = Done out →
  ∃ a s1 fv s2 leaf,
    format_attrs expr_format attrs = Done a ∧
    fmt_children (indent +:+ "  ") before = Done s1 ∧
    _format_value expr_format v = Done fv ∧
    fmt_children (indent +:+ "  ") after = Done s2 ∧
    out = indent +:+ "<" +:+ name +:+ a +:+ ">" +:+ nl
          +:+ s1 +:+ leaf +:+ s2
          +:+ indent +:+ "</" +:+ name +:+ ">" +:+ nl ∧
    (escape fv = "" → leaf = "") ∧
    (escape fv ≠ "" →
     leaf = (indent +:+ "  ") +:+ "<" +:+ key +:+ ">" +:+ escape fv
            +:+ "</" +:+ key +:+ ">" +:+ nl).
Proof.
  intros H.
  destruct (before ++ (key, ChildValue v) :: after) as [|c cs] eqn:Hcs.
  { by destruct before. }
  apply format_node_with_children in H as (_ & a & body & Ha & Hbody & ->).
  rewrite <- Hcs in Hbody.
  apply format_children_app in Hbody as (s1 & s23 & H1 & H23 & ->).
  rewrite format_children_cons in H23.
  apply bind_Done in H23 as (s & Hs & (s2 & H2 & [= <-])%bind_Done).
  cbn [format_child] in Hs.
  apply bind_Done in Hs as (fv & Hfv & [= <-]).
  exists a, s1, fv, s2, (format_leaf (indent +:+ "  ") key (escape fv)).
  repeat split; try done.
  - by rewrite !append_assoc.
  - by intros ->.
  - apply format_leaf_nonempty.
Qed.

End WithFormatter.

Lemma scalar_child_rendering_witness :
  ∃ out,
    _format_node Samples.sample_format
      (mkNode "PropertyGroup" None []
         ([("Keyword", ChildValue (VStr "Win32Proj"))]
          ++ ("RootNamespace", ChildValue (VStr "")) :: [("Import", ChildNode Samples.import)]))
      "" = Done out ∧
    ∃ a s1 fv s2 leaf,
      format_attrs Samples.sample_format [] = Done a ∧
      format_children Samples.sample_format (_format_node Samples.sample_format)
        ("" +:+ "  ") [("Keyword", ChildValue (VStr "Win32Proj"))] = Done s1 ∧
      _format_value Samples.sample_format (VStr "") = Done fv ∧
      format_children Samples.sample_format (_format_node Samples.sample_format)
        ("" +:+ "  ") [("Import", ChildNode Samples.import)] = Done s2 ∧
      out = "" +:+ "<" +:+ "PropertyGroup" +:+ a +:+ ">" +:+ nl
            +:+ s1 +:+ leaf +:+ s2
            +:+ "" +:+ "</" +:+ "PropertyGroup" +:+ ">" +:+ nl ∧
      (escape fv = "" → leaf = "") ∧
      (escape fv ≠ "" →
       leaf = ("" +:+ "  ") +:+ "<" +:+ "RootNamespace" +:+ ">" +:+ escape fv
              +:+ "</" +:+ "RootNamespace" +:+ ">" +:+ nl).
Proof.
  eexists. split; [vm_compute; reflexivity|].
  apply (scalar_child_rendering Samples.sample_format "PropertyGroup" None []
           [("Keyword", ChildValue (VStr "Win32Proj"))] "RootNamespace" (VStr "")
           [("Import", ChildNode Samples.import)] "").
  vm_compute; reflexivity.
Defined.

End XmlFacts.

(** ** Generation for a module *)

Module ToolsetFacts.

Import Solution Toolset.

Lemma fold_max_le (l : list Z) (v : Z) : (v ≤ fold_left Z.max l v)%Z.
Proof.
  revert v. induction l as [|x l IH]; intros v; simpl; [lia|].
  specialize (IH (Z.max v x)). lia.
Qed.

Lemma fold_max_ub (l : list Z) (v w : Z) : w ∈ l → (w ≤ fold_left Z.max l v)%Z.
Proof.
  revert v. induction l as [|x l IH]; intros v Hin; [by apply elem_of_nil in Hin|].
  apply elem_of_cons in Hin as [->|Hin]; simpl.
  - pose proof (fold_max_le l (Z.max v x)). lia.
  - by apply IH.
Qed.

(** [largest] bounds every version of the list. *)
Lemma largest_ub (l : list Z) (m w : Z) : largest l = Some m → w ∈ l → (w ≤ m)%Z.
Proof.
  destruct l as [|v l]; [discriminate|]. intros [= <-] Hin.
  apply elem_of_cons in Hin as [->|Hin]; [apply fold_max_le|by apply fold_max_ub].
Qed.

Lemma fold_max_sorted (l : list Z) (v : Z) :
  StronglySorted Z.le (v :: l) → fold_left Z.max l v = default v (last l).
Proof.
  revert v. induction l as [|x l IH]; intros v Hs; [reflexivity|].
  apply StronglySorted_inv in Hs as [Hs Hall].
  apply Forall_cons in Hall as [Hvx _].
  simpl fold_left. rewrite Z.max_r by done. rewrite (IH _ Hs).
  rewrite last_cons. by destruct (last l).
Qed.

(** In a sorted list the last version is the largest. *)
Lemma last_largest (l : list Z) : Sorted Z.le l → last l = largest l.
Proof.
  intros Hs. apply Sorted_StronglySorted in Hs; [|intros ???; lia].
  destruct l as [|v l]; [reflexivity|].
  simpl largest. rewrite (fold_max_sorted _ _ Hs).
  rewrite last_cons. by destruct (last l).
Qed.

Section WithToolset.

Variable toolset_version : Z.
Variable proj_versions : list Z.
Variable gen_for_target : Target -> option VSProject.
Variable vs_project : Target -> fallback.
Variable str_of_expr : Expr -> string.

Abbreviation gen_target := (gen_target toolset_version proj_versions gen_for_target vs_project str_of_expr).
Abbreviation gen_targets := (gen_targets toolset_version proj_versions gen_for_target vs_project str_of_expr).
Abbreviation gen_for_module := (gen_for_module toolset_version proj_versions gen_for_target vs_project str_of_expr).
Abbreviation check_and_add := (check_and_add toolset_version proj_versions str_of_expr).
Abbreviation project_for := (project_for gen_for_target vs_project).

Lemma gen_targets_app st l1 l2 :
  gen_targets st (l1 ++ l2) = gen_targets st l1 ≫= λ st', gen_targets st' l2.
Proof.
  revert st. induction l1 as [|t l1 IH]; intros st; [reflexivity|].
  simpl. destruct (gen_target st t) as [st'| |]; simpl; [apply IH|done|done].
Qed.

Lemma gen_target_project st t prj :
  project_for t = Some prj → gen_target st t = check_and_add st t prj.
Proof.
  unfold Toolset.project_for, Toolset.gen_target.
  destruct (gen_for_target t); [by intros [= ->]|].
  destruct (vs_project t); [by intros [= ->]|discriminate].
Qed.

(** The target at which generation has arrived decides how it goes on. *)
Lemma gen_for_module_at fresh before t after st prj :
  gen_targets (mkGen fresh []) before = Done st →
  project_for t = Some prj →
  gen_for_module fresh (before ++ t :: after)
  = check_and_add st t prj ≫= λ st', gen_targets st' after.
Proof.
  intros Hbefore Hprj. unfold Toolset.gen_for_module.
  rewrite gen_targets_app, Hbefore. simpl.
  by rewrite (gen_target_project _ _ _ Hprj).
Qed.

Lemma check_and_add_grows st t prj st' :
  check_and_add st t prj = Done st' →
  name prj = t_name t ∧
  solution st' = add_project (solution st) (info prj) ∧
  ∃ w, warnings st' = warnings st ++ w.
Proof.
  unfold Toolset.check_and_add. case_bool_decide as Hname; [|done]. simpl.
  intros (st1 & Hst1 & [= <-])%bind_Done. split; [done|]. simpl.
  case_bool_decide as Hver; simpl in Hst1.
  - injection Hst1 as <-. split; [done|]. exists []. by rewrite app_nil_r.
  - apply bind_Done in Hst1 as (v & _ & Hst1).
    destruct (v <? version prj)%Z; [done|]. injection Hst1 as <-.
    split; [done|]. by eexists.
Qed.

Lemma check_and_add_older st t prj m :
  name prj = t_name t → Sorted Z.le proj_versions →
  version prj ∉ proj_versions →
  largest proj_versions = Some m → (version prj ≤ m)%Z →
  check_and_add st t prj
  = Done (mkGen (add_project (solution st) (info prj))
                (warnings st ++ [msg_older toolset_version str_of_expr prj])).
Proof.
  intros Hname Hsorted Hnin Hm Hle. unfold Toolset.check_and_add.
  rewrite bool_decide_eq_true_2 by done. simpl.
  rewrite bool_decide_eq_false_2 by done. simpl.
  unfold newest. rewrite (last_largest _ Hsorted), Hm. simpl.
  destruct (Z.ltb_spec m (version prj)); [lia|done].
Qed.

(** What one turn of the loop leaves as it was. *)
Lemma gen_target_grows st t st' :
  gen_target st t = Done st' →
  (∃ more, projects (solution st') = projects (solution st) ++ more) ∧
  (∃ w, warnings st' = warnings st ++ w) ∧
  (∀ k, k ≠ t_name t → guids_map (solution st') !! k = guids_map (solution st) !! k).
Proof.
  assert (∀ prj, check_and_add st t prj = Done st' →
            (∃ more, projects (solution st') = projects (solution st) ++ more) ∧
            (∃ w, warnings st' = warnings st ++ w) ∧
            (∀ k, k ≠ t_name t →
                  guids_map (solution st') !! k = guids_map (solution st) !! k)) as Hadd.
  { intros prj (Hname & -> & Hw)%check_and_add_grows. split; [by eexists|].
    split; [done|]. intros k Hk. simpl. rewrite lookup_insert_ne; [done|].
    by rewrite Hname. }
  unfold Toolset.gen_target. destruct (gen_for_target t) as [prj|]; [apply Hadd|].
  destruct (vs_project t) as [prj|]; [apply Hadd|].
  intros [= <-]. simpl. split; [exists []; by rewrite app_nil_r|].
  split; [by eexists|done].
Qed.

(** What the loop leaves as it was: the projects and the warnings there
    were, and the GUIDs under the names of other targets. *)
Lemma gen_targets_grows st l st' :
  gen_targets st l = Done st' →
  (∃ more, projects (solution st') = projects (solution st) ++ more) ∧
  (∃ w, warnings st' = warnings st ++ w) ∧
  (∀ k, k ∉ t_name <$> l → guids_map (solution st') !! k = guids_map (solution st) !! k).
Proof.
  revert st. induction l as [|t l IH]; intros st.
  - intros [= <-]. split; [exists []; by rewrite app_nil_r|].
    split; [exists []; by rewrite app_nil_r|done].
  - cbn [Toolset.gen_targets].
    intros (st1 & Hst1 & Hrest)%bind_Done.
    apply gen_target_grows in Hst1 as ([m1 Hp1] & [w1 Hw1] & Hg1).
    apply IH in Hrest as ([m2 Hp2] & [w2 Hw2] & Hg2).
    split; [exists (m1 ++ m2); by rewrite Hp2, Hp1, app_assoc|].
    split; [exists (w1 ++ w2); by rewrite Hw2, Hw1, app_assoc|].
    intros k Hk. rewrite fmap_cons in Hk. apply not_elem_of_cons in Hk as [Hkt Hkl].
    by rewrite Hg2, Hg1.
Qed.

(** C4. For the project generated for a target of the module, once the
    targets before it have gone through: a name other than the target's
    raises a fatal error; so does a format version above the largest one
    the toolset supports; and a version that is not supported but not
    above the largest one (the list of versions being sorted) gives one
    warning, after which the project is added to the solution and
    generation goes on, the name being the target's.  Added means: the
    project comes last in the list of projects of the solution and its
    GUID is the one the map gives under its name; and if generation then
    goes through to the end, the solution it ends with still has the
    project after those that were there before, the warning is among the
    warnings given, and the map still gives the GUID of the project under
    the name of the target unless a later target has that name. *)
Theorem gen_for_module_validation fresh before t after st prj :
  gen_targets (mkGen fresh []) before = Done st →
  project_for t = Some prj →
  (name prj ≠ t_name t →
   gen_for_module fresh (before ++ t :: after) = Raised (Error (msg_name prj t))) ∧
  (∀ m, largest proj_versions = Some m → (m < version prj)%Z →
   gen_for_module fresh (before ++ t :: after)
   = Raised (Error (if bool_decide (name prj = t_name t)
                    then msg_too_new toolset_version str_of_expr prj
                    else msg_name prj t))) ∧
  (∀ m, name prj = t_name t → Sorted Z.le proj_versions →
   version prj ∉ proj_versions →
   largest proj_versions = Some m → (version prj ≤ m)%Z →
   gen_for_module fresh (before ++ t :: after)
   = gen_targets (mkGen (add_project (solution st) (info prj))
                        (warnings st ++ [msg_older toolset_version str_of_expr prj]))
                 after ∧
   projects (add_project (solution st) (info prj)) = projects (solution st) ++ [info prj] ∧
   guids_map (add_project (solution st) (info prj)) !! t_name t = Some (guid prj) ∧
   ∀ st', gen_for_module fresh (before ++ t :: after) = Done st' →
     (∃ more, projects (solution st') = projects (solution st) ++ info prj :: more) ∧
     (∃ w, warnings st'
           = warnings st ++ msg_older toolset_version str_of_expr prj :: w) ∧
     (t_name t ∉ t_name <$> after →
      guids_map (solution st') !! t_name t = Some (guid prj))).
Proof.
  intros Hbefore Hprj. rewrite (gen_for_module_at _ _ _ _ _ _ Hbefore Hprj).
  unfold Toolset.check_and_add. split; [|split].
  - intros Hne. by rewrite bool_decide_eq_false_2.
  - intros m Hm Hlt. case_bool_decide as Hname; [|done]. simpl.
    assert (version prj ∉ proj_versions) as Hnin.
    { intros Hin. pose proof (largest_ub _ _ _ Hm Hin). lia. }
    rewrite bool_decide_eq_false_2 by done. simpl.
    unfold newest. destruct (last proj_versions) as [v|] eqn:Hlast.
    + simpl. apply last_Some_elem_of in Hlast.
      pose proof (largest_ub _ _ _ Hm Hlast).
      destruct (Z.ltb_spec v (version prj)); [done|lia].
    + apply last_None in Hlast. by rewrite Hlast in Hm.
  - intros m Hname Hsorted Hnin Hm Hle.
    fold (check_and_add st t prj).
    rewrite (check_and_add_older st t prj m Hname Hsorted Hnin Hm Hle).
    simpl. split; [done|]. split; [done|].
    split; [by rewrite <- Hname, lookup_insert_eq|].
    intros st' ([more Hp] & [w Hw] & Hg)%gen_targets_grows. simpl in Hp, Hw, Hg.
    split; [exists more; by rewrite Hp, <- app_assoc|].
    split; [exists w; by rewrite Hw, <- app_assoc|].
    intros Hlater. rewrite (Hg _ Hlater). by rewrite <- Hname, lookup_insert_eq.
Qed.

End WithToolset.

Lemma gen_for_module_validation_witness :
  let fresh := new_solution "libs" "{S-libs}" in
  let run prj := Toolset.gen_for_module 11 Samples.sample_versions (λ _, Some prj)
                   (λ _, NotImplemented) Samples.sample_str
                   fresh ([] ++ Samples.lib_target :: []) in
  (name Samples.misnamed_lib ≠ t_name Samples.lib_target ∧
   run Samples.misnamed_lib
   = Raised (Error (msg_name Samples.misnamed_lib Samples.lib_target))) ∧
  (largest Samples.sample_versions = Some 11%Z ∧ (11 < version Samples.new_lib)%Z ∧
   run Samples.new_lib
   = Raised (Error (msg_too_new 11 Samples.sample_str Samples.new_lib))) ∧
  (Sorted Z.le Samples.sample_versions ∧
   (version Samples.old_lib ∉ Samples.sample_versions) ∧
   (version Samples.old_lib ≤ 11)%Z ∧
   run Samples.old_lib
   = Done (mkGen (add_project fresh (info Samples.old_lib))
                 [msg_older 11 Samples.sample_str Samples.old_lib]) ∧
   ∃ st', run Samples.old_lib = Done st' ∧
          (∃ more, projects (solution st') = [] ++ info Samples.old_lib :: more) ∧
          (∃ w, warnings st' = [] ++ msg_older 11 Samples.sample_str Samples.old_lib :: w) ∧
          guids_map (solution st') !! "lib" = Some "{G-lib}").
Proof.
  intros fresh run.
  assert (Sorted Z.le Samples.sample_versions) as Hsorted.
  { repeat constructor; lia. }
  assert (version Samples.old_lib ∉ Samples.sample_versions) as Hnin.
  { apply (bool_decide_eq_false_1 (version Samples.old_lib ∈ Samples.sample_versions)).
    reflexivity. }
  split; [|split].
  - split; [discriminate|].
    apply (proj1 (gen_for_module_validation 11 Samples.sample_versions
                    (λ _, Some Samples.misnamed_lib) (λ _, NotImplemented)
                    Samples.sample_str fresh [] Samples.lib_target []
                    (mkGen fresh []) Samples.misnamed_lib eq_refl eq_refl)).
    discriminate.
  - split; [reflexivity|]. split; [reflexivity|].
    apply (proj1 (proj2 (gen_for_module_validation 11 Samples.sample_versions
                    (λ _, Some Samples.new_lib) (λ _, NotImplemented)
                    Samples.sample_str fresh [] Samples.lib_target []
                    (mkGen fresh []) Samples.new_lib eq_refl eq_refl)) 11%Z);
      reflexivity.
  - split; [exact Hsorted|]. split; [exact Hnin|]. split; [discriminate|].
    destruct (proj2 (proj2 (gen_for_module_validation 11 Samples.sample_versions
                    (λ _, Some Samples.old_lib) (λ _, NotImplemented)
                    Samples.sample_str fresh [] Samples.lib_target []
                    (mkGen fresh []) Samples.old_lib eq_refl eq_refl)) 11%Z)
      as (Hrun & _ & _ & Hend);
      [reflexivity|exact Hsorted|exact Hnin|reflexivity|discriminate|].
    split; [exact Hrun|].
    eexists. split; [exact Hrun|].
    destruct (Hend _ Hrun) as (Hp & Hw & Hg).
    split; [exact Hp|]. split; [exact Hw|]. apply Hg. apply not_elem_of_nil.
Defined.

End ToolsetFacts.

(** ** Solutions *)

Module SolutionFacts.

Import Solution Closure Groupings.

(** *** Python sets kept as lists *)

Lemma elem_of_add (s : list string) x y : y ∈ add s x ↔ y ∈ s ∨ y = x.
Proof.
  unfold add. case_bool_decide as Hin.
  - split; [by left|]. intros [H| ->]; done.
  - rewrite elem_of_app, list_elem_of_singleton. done.
Qed.

Lemma NoDup_add (s : list string) x : NoDup s → NoDup (add s x).
Proof.
  intros Hs. unfold add. case_bool_decide as Hin; [done|].
  apply NoDup_app. split; [done|]. split; [|apply NoDup_singleton].
  intros y Hy ->%list_elem_of_singleton. done.
Qed.

Lemma elem_of_update (l s : list string) y : y ∈ update s l ↔ y ∈ s ∨ y ∈ l.
Proof.
  unfold update. revert s. induction l as [|x l IH]; intros s; simpl.
  - rewrite elem_of_nil. tauto.
  - rewrite IH, elem_of_add, elem_of_cons. tauto.
Qed.

Lemma NoDup_update (l s : list string) : NoDup s → NoDup (update s l).
Proof.
  unfold update. revert s. induction l as [|x l IH]; intros s Hs; simpl; [done|].
  by apply IH, NoDup_add.
Qed.

Lemma update_nil_nil : update [] [] = [].
Proof. reflexivity. Qed.

(** [todo] after the loop that collects the dependencies of projects. *)
Lemma elem_of_collect (ps : list prjinfo) (s : list string) y :
  y ∈ fold_left (λ todo p, update todo (prj_deps p)) ps s
  ↔ y ∈ s ∨ ∃ p, p ∈ ps ∧ y ∈ prj_deps p.
Proof.
  revert s. induction ps as [|p ps IH]; intros s; simpl.
  - split; [by left|]. intros [H|(p & Hp & _)]; [done|by apply elem_of_nil in Hp].
  - rewrite IH, elem_of_update. split.
    + intros [[H|H]|(p' & Hp' & H)]; [by left| |].
      * right. exists p. split; [left|done].
      * right. exists p'. split; [by right|done].
    + intros [H|(p' & Hp' & H)]; [by left; left|].
      apply elem_of_cons in Hp' as [->|Hp']; [by left; right|].
      right. by exists p'.
Qed.

Lemma NoDup_collect (ps : list prjinfo) (s : list string) :
  NoDup s → NoDup (fold_left (λ todo p, update todo (prj_deps p)) ps s).
Proof.
  revert s. induction ps as [|p ps IH]; intros s Hs; simpl; [done|].
  by apply IH, NoDup_update.
Qed.

(** An admissible order keeps the members and their number. *)
Lemma admissible_elem_of set_iter (l : list string) x :
  admissible set_iter → NoDup l → x ∈ set_iter l ↔ x ∈ l.
Proof. intros Had Hl. by rewrite (Had l Hl). Qed.

Lemma admissible_NoDup set_iter (l : list string) :
  admissible set_iter → NoDup l → NoDup (set_iter l).
Proof. intros Had Hl. by rewrite (Had l Hl). Qed.

(** *** The tree of solutions *)

Lemma Solution_forall_ind (P : Solution → Prop) :
  (∀ n g ps subs gm, Forall P subs → P (mkSolution n g ps subs gm)) →
  ∀ s, P s.
Proof.
  intros H. fix IH 1. intros [n g ps subs gm]. apply H.
  induction subs as [|s subs IHsubs]; constructor; [apply IH|apply IHsubs].
Qed.

Lemma elem_of_flat_map {A B} (f : A → list B) (l : list A) (y : B) :
  y ∈ flat_map f l ↔ ∃ x, x ∈ l ∧ y ∈ f x.
Proof.
  rewrite list_elem_of_In, in_flat_map. by setoid_rewrite list_elem_of_In.
Qed.

Lemma all_projects_eq (s : Solution) :
  all_projects s = projects s ++ flat_map all_projects (subsolutions s).
Proof. by destruct s. Qed.

Lemma elem_of_all_projects (s : Solution) p :
  p ∈ all_projects s ↔
  p ∈ projects s ∨ ∃ sub, sub ∈ subsolutions s ∧ p ∈ all_projects sub.
Proof. by rewrite all_projects_eq, elem_of_app, elem_of_flat_map. Qed.

Lemma find_project_Some id ps p :
  find_project id ps = Some p → p ∈ ps ∧ prj_name p = id.
Proof.
  induction ps as [|p' ps IH]; simpl; [discriminate|].
  case_bool_decide as Hname.
  - intros [= ->]. split; [left|done].
  - intros [Hin Hn]%IH. split; [by right|done].
Qed.

Lemma find_project_None id ps :
  find_project id ps = None → ∀ p, p ∈ ps → prj_name p ≠ id.
Proof.
  induction ps as [|p' ps IH]; simpl; intros Hf p Hp.
  - by apply elem_of_nil in Hp.
  - case_bool_decide as Hname; [discriminate|].
    apply elem_of_cons in Hp as [->|Hp]; [done|by apply IH].
Qed.

Lemma first_some_Some {A B} (f : A → option B) l r :
  first_some f l = Some r → ∃ x, x ∈ l ∧ f x = Some r.
Proof.
  induction l as [|x l IH]; simpl; [discriminate|].
  destruct (f x) as [r'|] eqn:Hfx.
  - intros [= ->]. exists x. split; [left|done].
  - intros (y & Hy & Hfy)%IH. exists y. split; [by right|done].
Qed.

Lemma first_some_None {A B} (f : A → option B) l :
  first_some f l = None → ∀ x, x ∈ l → f x = None.
Proof.
  induction l as [|x l IH]; simpl; intros Hf y Hy.
  - by apply elem_of_nil in Hy.
  - destruct (f x) eqn:Hfx; [discriminate|].
    apply elem_of_cons in Hy as [->|Hy]; [done|by apply IH].
Qed.

Lemma _get_project_info_eq (s : Solution) id :
  _get_project_info s id
  = match find_project id (projects s) with
    | Some p => Some p
    | None => first_some (λ sln, _get_project_info sln id) (subsolutions s)
    end.
Proof. by destruct s. Qed.

(** What [_get_project_info] finds is a project of the tree with the name
    asked for. *)
Lemma _get_project_info_Some (s : Solution) id p :
  _get_project_info s id = Some p → p ∈ all_projects s ∧ prj_name p = id.
Proof.
  revert p. induction s as [n g ps subs gm IH] using Solution_forall_ind. intros p.
  rewrite _get_project_info_eq, elem_of_all_projects. simpl.
  destruct (find_project id ps) as [p'|] eqn:Hfind.
  - intros [= ->]. apply find_project_Some in Hfind as [? ?]. by split; [left|].
  - intros (sub & Hsub & Hget)%first_some_Some.
    rewrite Forall_forall in IH. apply (IH _ Hsub) in Hget as [? ?].
    split; [right; by exists sub|done].
Qed.

(** It finds a project for every name that some project of the tree has. *)
Lemma _get_project_info_is_Some (s : Solution) p :
  p ∈ all_projects s → is_Some (_get_project_info s (prj_name p)).
Proof.
  induction s as [n g ps subs gm IH] using Solution_forall_ind.
  rewrite _get_project_info_eq, elem_of_all_projects. simpl.
  intros Hin. destruct (find_project (prj_name p) ps) as [p'|] eqn:Hfind; [done|].
  destruct Hin as [Hin|(sub & Hsub & Hin)].
  - by destruct (find_project_None _ _ Hfind _ Hin).
  - destruct (first_some _ subs) eqn:Hfirst; [done|].
    rewrite Forall_forall in IH. destruct (IH _ Hsub Hin) as [q Hq].
    by rewrite (first_some_None _ _ Hfirst _ Hsub) in Hq.
Qed.

Lemma unique_by_name (l : list prjinfo) p q :
  NoDup (prj_name <$> l) → p ∈ l → q ∈ l → prj_name p = prj_name q → p = q.
Proof.
  induction l as [|x l IH]; intros Hnd Hp Hq Heq; [by apply elem_of_nil in Hp|].
  rewrite fmap_cons in Hnd. apply NoDup_cons in Hnd as [Hx Hnd].
  apply elem_of_cons in Hp as [->|Hp]; apply elem_of_cons in Hq as [->|Hq]; try done.
  - destruct Hx. rewrite Heq. by apply list_elem_of_fmap_2.
  - destruct Hx. rewrite <- Heq. by apply list_elem_of_fmap_2.
  - by apply IH.
Qed.

(** With unique names it finds each project of the tree under its name. *)
Lemma _get_project_info_unique (top : Solution) p :
  unique_names top → p ∈ all_projects top →
  _get_project_info top (prj_name p) = Some p.
Proof.
  intros Huniq Hin. destruct (_get_project_info_is_Some _ _ Hin) as [q Hq].
  rewrite Hq. f_equal.
  apply _get_project_info_Some in Hq as [Hq Hname].
  by apply (unique_by_name (all_projects top)).
Qed.

Lemma all_projects_plug f s p :
  p ∈ all_projects s → p ∈ all_projects (plug f s).
Proof.
  intros Hp. apply elem_of_all_projects. right. exists s. split; [|done].
  simpl. apply elem_of_app. right. left.
Qed.

(** The projects of a solution are projects of the top of its tree. *)
Lemma all_projects_top (n : node) p :
  p ∈ all_projects (self n) → p ∈ all_projects (top n).
Proof.
  destruct n as [fs s]. unfold top. simpl. revert s.
  induction fs as [|f fs IH]; intros s Hp; simpl; [done|].
  by apply IH, all_projects_plug.
Qed.

(** *** The loop over [todo] *)

Lemma visit_Done top items inc tn add inc' tn' add' :
  visit top items inc tn add = Done (inc', tn', add') →
  ∃ prjs, Forall2 (λ x q, _get_project_info top x = Some q) items prjs ∧
          inc' = list_to_set items ∪ inc ∧
          tn' = fold_left (λ t q, update t (prj_deps q)) prjs tn ∧
          add' = add ++ prjs.
Proof.
  revert inc tn add. induction items as [|x items IH]; intros inc tn add; simpl.
  - intros [= <- <- <-]. exists []. repeat split; [constructor|set_solver|by rewrite app_nil_r].
  - destruct (_get_project_info top x) as [prj|] eqn:Hget; [|discriminate].
    intros (prjs & Hall & -> & -> & ->)%IH. exists (prj :: prjs).
    repeat split; [by constructor|set_solver|by rewrite <- app_assoc].
Qed.

Lemma visit_not_Diverged top items inc tn add :
  visit top items inc tn add ≠ Diverged.
Proof.
  revert inc tn add. induction items as [|x items IH]; intros inc tn add; simpl; [done|].
  destruct (_get_project_info top x); [apply IH|done].
Qed.

Lemma visit_resolved top items inc tn add :
  (∀ x, x ∈ items → is_Some (_get_project_info top x)) →
  ∃ r, visit top items inc tn add = Done r.
Proof.
  revert inc tn add. induction items as [|x items IH]; intros inc tn add Hres; simpl.
  - eauto.
  - destruct (Hres x) as [prj ->]; [left|]. apply IH. intros y Hy. apply Hres. by right.
Qed.

Lemma found_names top items prjs :
  Forall2 (λ x q, _get_project_info top x = Some q) items prjs →
  prj_name <$> prjs = items.
Proof.
  induction 1 as [|x q items prjs Hget _ IH]; [done|].
  rewrite fmap_cons, IH. by apply _get_project_info_Some in Hget as [_ ->].
Qed.

Lemma found_of_item top items prjs x :
  Forall2 (λ x q, _get_project_info top x = Some q) items prjs →
  x ∈ items → ∃ q, q ∈ prjs ∧ _get_project_info top x = Some q.
Proof.
  induction 1 as [|y q items prjs Hget _ IH]; intros Hx; [by apply elem_of_nil in Hx|].
  apply elem_of_cons in Hx as [->|Hx].
  - exists q. split; [left|done].
  - destruct (IH Hx) as (q' & Hq' & Hget'). exists q'. split; [by right|done].
Qed.

Lemma item_of_found top items prjs q :
  Forall2 (λ x q, _get_project_info top x = Some q) items prjs →
  q ∈ prjs → prj_name q ∈ items ∧ _get_project_info top (prj_name q) = Some q.
Proof.
  induction 1 as [|y q' items prjs Hget _ IH]; intros Hq; [by apply elem_of_nil in Hq|].
  apply elem_of_cons in Hq as [->|Hq].
  - destruct (_get_project_info_Some _ _ _ Hget) as [_ <-]. split; [left|done].
  - destruct (IH Hq) as [? ?]. split; [by right|done].
Qed.

Lemma closure_loop_S set_iter fuel top inc todo add prev :
  closure_loop set_iter (S fuel) top inc todo add prev
  = if bool_decide (prev = size inc) then Done add
    else
      visit top (set_iter (update [] (filter (λ x, x ∉ inc) (set_iter todo)))) inc [] add
      ≫= λ r, closure_loop set_iter fuel top r.1.1
                (update (update [] (filter (λ x, x ∉ inc) (set_iter todo))) (set_iter r.1.2))
                r.2 (size inc).
Proof.
  simpl. case_bool_decide; [done|].
  destruct (visit _ _ _ _ _) as [[[inc' tn'] add']| |]; reflexivity.
Qed.

(** The first statement of the loop body: [todo] without what is included. *)
Lemma elem_of_pending set_iter (inc : gset string) (todo : list string) y :
  admissible set_iter → NoDup todo →
  y ∈ update [] (filter (λ x, x ∉ inc) (set_iter todo)) ↔ y ∈ todo ∧ y ∉ inc.
Proof.
  intros Had Hnd. rewrite elem_of_update, list_elem_of_filter, elem_of_nil.
  rewrite (admissible_elem_of _ _ _ Had Hnd). tauto.
Qed.

Lemma NoDup_pending set_iter (inc : gset string) (todo : list string) :
  NoDup (update [] (filter (λ x, x ∉ inc) (set_iter todo))).
Proof. apply NoDup_update, NoDup_nil_2. Qed.

Lemma size_visited (items : list string) (inc : gset string) :
  NoDup items → (∀ x, x ∈ items → x ∉ inc) →
  size (list_to_set items ∪ inc) = length items + size inc.
Proof.
  intros Hnd Hdisj. rewrite size_union.
  - by rewrite size_list_to_set.
  - intros x Hx%elem_of_list_to_set Hinc. by apply (Hdisj x).
Qed.

(** *** Distances in the dependency graph *)

Lemma within_mono top P k k' n :
  k ≤ k' → within top P k n → within top P k' n.
Proof.
  intros Hle (p & Hp & Hb). exists p. split; [done|]. by eapply bsteps_weaken.
Qed.

Lemma within_step top P k n m :
  within top P k n → depends_on top n m → within top P (S k) m.
Proof.
  intros (p & Hp & Hb) Hd. exists p. split; [done|]. by eapply bsteps_r.
Qed.

Lemma within_0 top P n : within top P 0 n ↔ n ∈ P.
Proof.
  split.
  - intros (p & Hp & Hb). by inversion Hb; subst.
  - intros Hn. exists n. split; [done|constructor].
Qed.

Lemma within_base top P k n : n ∈ P → within top P k n.
Proof. intros Hn. apply (within_mono _ _ 0); [lia|by apply within_0]. Qed.

Lemma within_S_inv top P k m :
  within top P (S k) m →
  within top P k m ∨ ∃ n, within top P k n ∧ depends_on top n m.
Proof.
  intros (p & Hp & Hb). apply bsteps_nsteps in Hb as (n' & Hle & Hn).
  destruct (decide (n' ≤ k)) as [Hk|Hk].
  - left. exists p. split; [done|]. apply bsteps_nsteps. eauto.
  - assert (n' = S k) as -> by lia.
    apply nsteps_inv_r in Hn as (y & Hy & HR). right. exists y. split; [|done].
    exists p. split; [done|]. apply bsteps_nsteps. eauto.
Qed.

Lemma within_closure top P n :
  transitive_closure top P n ↔ ∃ k, within top P k n.
Proof.
  unfold transitive_closure, within. setoid_rewrite rtc_bsteps. naive_solver.
Qed.

(** *** One pass of the loop keeps what holds at its test *)

Lemma loop_inv_step set_iter top P k inc todo add prjs :
  admissible set_iter → unique_names top →
  loop_inv top P k inc todo add →
  Forall2 (λ x q, _get_project_info top x = Some q)
          (set_iter (update [] (filter (λ x, x ∉ inc) (set_iter todo)))) prjs →
  loop_inv top P (S k)
    (list_to_set (set_iter (update [] (filter (λ x, x ∉ inc) (set_iter todo)))) ∪ inc)
    (update (update [] (filter (λ x, x ∉ inc) (set_iter todo)))
            (set_iter (fold_left (λ t q, update t (prj_deps q)) prjs [])))
    (add ++ prjs).
Proof.
  intros Had Huniq [Hinc Htodo Hfront Hnd Hfound Hnames Hndn Hord] Hall.
  set (todo1 := update [] (filter (λ x, x ∉ inc) (set_iter todo))) in *.
  set (tn := fold_left (λ t q, update t (prj_deps q)) prjs []).
  assert (NoDup todo1) as Hnd1 by apply NoDup_pending.
  assert (∀ y, y ∈ todo1 ↔ y ∈ todo ∧ y ∉ inc) as Hpending.
  { intros y. by apply elem_of_pending. }
  assert (∀ y, y ∈ set_iter todo1 ↔ y ∈ todo ∧ y ∉ inc) as Hitems.
  { intros y. by rewrite (admissible_elem_of _ _ _ Had Hnd1). }
  assert (NoDup tn) as Hndtn by apply NoDup_collect, NoDup_nil_2.
  assert (∀ y, y ∈ set_iter tn ↔ ∃ q, q ∈ prjs ∧ y ∈ prj_deps q) as Htn.
  { intros y. rewrite (admissible_elem_of _ _ _ Had Hndtn). unfold tn.
    rewrite elem_of_collect, elem_of_nil. naive_solver. }
  assert (∀ n, n ∈ P → n ∈ inc) as HP.
  { intros n Hn. by apply Hinc, within_base. }
  assert (∀ n, n ∈ list_to_set (set_iter todo1) ∪ inc ↔ within top P (S k) n) as Hinc'.
  { intros n. rewrite elem_of_union, elem_of_list_to_set, Hitems. split.
    - intros [[(n0 & Hn0 & Hd)%Htodo _]|Hn].
      + apply (within_step _ _ _ n0); [by apply Hinc|done].
      + apply (within_mono _ _ k); [lia|by apply Hinc].
    - intros [Hn|(n0 & Hn0 & Hd)]%within_S_inv; [right; by apply Hinc|].
      destruct (decide (n ∈ inc)) as [?|Hnin]; [by right|]. left.
      destruct (Hfront n0 n) as [?|?]; [by apply Hinc|done|done|done]. }
  assert (∀ q, q ∈ prjs → ¬ within top P k (prj_name q)) as Hnew.
  { intros q Hq Hw. destruct (item_of_found _ _ _ _ Hall Hq) as [Hit _].
    apply Hitems in Hit as [_ Hnin]. by apply Hnin, Hinc. }
  assert (∀ q, q ∈ prjs → within top P (S k) (prj_name q)) as Hnew'.
  { intros q Hq. destruct (item_of_found _ _ _ _ Hall Hq) as [Hit _].
    apply Hinc', elem_of_union. left. by apply elem_of_list_to_set. }
  assert (∀ q, q ∈ add → within top P k (prj_name q)) as Hold.
  { intros q Hq. apply Hinc. apply (Hnames (prj_name q)). by apply list_elem_of_fmap_2. }
  split.
  - done.
  - intros m [Hm|Hm]%elem_of_update.
    + apply Hpending in Hm as [(n0 & Hn0 & Hd)%Htodo _].
      exists n0. split; [apply elem_of_union; by right|done].
    + apply Htn in Hm as (q & Hq & Hm).
      destruct (item_of_found _ _ _ _ Hall Hq) as [Hit Hget].
      exists (prj_name q). split.
      * apply elem_of_union. left. by apply elem_of_list_to_set.
      * exists q. by apply _get_project_info_Some in Hget as [? _].
  - intros n m [Hn|Hn]%elem_of_union Hd.
    + apply elem_of_list_to_set in Hn.
      destruct (found_of_item _ _ _ _ Hall Hn) as (q & Hq & Hget).
      destruct Hd as (p & Hp & Hname & Hm).
      assert (p = q) as ->.
      { rewrite <- Hname, (_get_project_info_unique _ _ Huniq Hp) in Hget. congruence. }
      right. apply elem_of_update. right. apply Htn. by exists q.
    + destruct (decide (m ∈ inc)) as [?|Hnin]; [left; apply elem_of_union; by right|].
      destruct (Hfront n m Hn Hd) as [?|Hm]; [done|].
      left. apply elem_of_union. left. apply elem_of_list_to_set. by apply Hitems.
  - by apply NoDup_update.
  - intros q [Hq|Hq]%elem_of_app; [by apply Hfound|].
    by destruct (item_of_found _ _ _ _ Hall Hq).
  - intros n. rewrite fmap_app, elem_of_app, (found_names _ _ _ Hall).
    rewrite elem_of_union, elem_of_list_to_set, Hnames, Hitems. split.
    + intros [[Hn Hnin]|[Hn Hnin]]; [split; [by right|done]|].
      split; [left; by split|]. intros HnP. by apply Hnin, HP.
    + intros [[[Hn Hnin]|Hn] HnP]; [by right|by left].
  - rewrite fmap_app, (found_names _ _ _ Hall). apply NoDup_app.
    split; [done|]. split; [|by apply admissible_NoDup].
    intros x [Hx _]%Hnames [_ Hnin]%Hitems. done.
  - intros i j q q' Hij Hi Hj d Hd.
    apply lookup_app_Some in Hi as [Hi|[Hlen Hi]];
      apply lookup_app_Some in Hj as [Hj|[Hlen' Hj]].
    + by apply (Hord i j q q').
    + apply list_elem_of_lookup_2 in Hi, Hj.
      destruct (decide (d ≤ k)) as [Hdk|Hdk].
      * destruct (Hnew _ Hj). by apply (within_mono _ _ d).
      * apply (within_mono _ _ k); [lia|by apply Hold].
    + apply lookup_lt_Some in Hj. lia.
    + apply list_elem_of_lookup_2 in Hi, Hj.
      destruct (decide (d ≤ k)) as [Hdk|Hdk].
      * destruct (Hnew _ Hj). by apply (within_mono _ _ d).
      * apply (within_mono _ _ (S k)); [lia|by apply Hnew'].
Qed.

(** *** The loop as a whole *)

Lemma elem_of_local_names (s : Solution) x :
  x ∈ local_names s ↔ ∃ p, p ∈ all_projects s ∧ prj_name p = x.
Proof.
  unfold local_names. rewrite elem_of_list_to_set, list_elem_of_fmap. naive_solver.
Qed.

(** What holds when the loop is entered. *)
Lemma loop_inv_init (n : node) :
  unique_names (top n) →
  loop_inv (top n) (local_names (self n)) 0 (local_names (self n))
           (fold_left (λ todo p, update todo (prj_deps p)) (all_projects (self n)) []) [].
Proof.
  intros Huniq. split.
  - intros x. by rewrite within_0.
  - intros m [Hm|(p & Hp & Hm)]%elem_of_collect; [by apply elem_of_nil in Hm|].
    exists (prj_name p). split; [apply elem_of_local_names; by exists p|].
    exists p. split; [by apply all_projects_top|done].
  - intros x m (p & Hp & <-)%elem_of_local_names (q & Hq & Hname & Hm).
    right. apply elem_of_collect. right. exists p. split; [done|].
    by rewrite (unique_by_name _ p q Huniq (all_projects_top _ _ Hp) Hq).
  - apply NoDup_collect, NoDup_nil_2.
  - intros q Hq. by apply elem_of_nil in Hq.
  - intros x. rewrite fmap_nil, elem_of_nil. tauto.
  - rewrite fmap_nil. apply NoDup_nil_2.
  - intros i j q q' _ Hi. by rewrite lookup_nil in Hi.
Qed.

Lemma collect_nil_of_empty (s : Solution) :
  0 = size (local_names s) →
  fold_left (λ todo p, update todo (prj_deps p)) (all_projects s) [] = [].
Proof.
  intros Hsize. symmetry in Hsize. apply size_empty_inv in Hsize.
  destruct (all_projects s) as [|p ps] eqn:Hps; [done|].
  assert (prj_name p ∈ local_names s) as Hin.
  { apply elem_of_local_names. exists p. rewrite Hps. split; [left|done]. }
  set_solver.
Qed.

(** When the loop ends without an exception, what holds at its test holds
    with nothing left to do; and it raises only over a dependency that no
    project of the tree answers to. *)
Lemma closure_loop_inv set_iter top P fuel :
  admissible set_iter → unique_names top →
  ∀ k inc todo add prev,
    loop_inv top P k inc todo add →
    (prev = size inc → todo = []) →
    match closure_loop set_iter fuel top inc todo add prev with
    | Done result => ∃ k' inc', loop_inv top P k' inc' [] result
    | Raised _ => ¬ deps_resolve top
    | Diverged => True
    end.
Proof.
  intros Had Huniq. induction fuel as [|fuel IH]; intros k inc todo add prev Hinv HJ; [done|].
  rewrite closure_loop_S. case_bool_decide as Hprev.
  { rewrite (HJ Hprev) in Hinv. eauto. }
  pose proof (inv_todo_nodup _ _ _ _ _ _ Hinv) as Hnd.
  set (todo1 := update [] (filter (λ x, x ∉ inc) (set_iter todo))) in *.
  assert (NoDup todo1) as Hnd1 by apply NoDup_pending.
  assert (∀ y, y ∈ set_iter todo1 ↔ y ∈ todo ∧ y ∉ inc) as Hitems.
  { intros y. rewrite (admissible_elem_of _ _ _ Had Hnd1). by apply elem_of_pending. }
  destruct (visit top (set_iter todo1) inc [] add) as [[[inc' tn'] add']|e|] eqn:Hvisit.
  - apply visit_Done in Hvisit as (prjs & Hall & -> & -> & ->). simpl.
    apply (IH (S k)); [by apply loop_inv_step|].
    rewrite size_visited; [|by apply admissible_NoDup|by intros x [_ ?]%Hitems].
    intros Hlen. assert (set_iter todo1 = []) as Hnil.
    { apply length_zero_iff_nil. lia. }
    rewrite Hnil in Hall. apply Forall2_nil_inv_l in Hall as ->. simpl.
    assert (todo1 = []) as ->.
    { apply Permutation_nil_r. by rewrite <- (Had todo1 Hnd1), Hnil. }
    assert (set_iter [] = []) as ->; [|done].
    apply Permutation_nil_r. apply (Had []), NoDup_nil_2.
  - simpl. intros Hres.
    destruct (visit_resolved top (set_iter todo1) inc [] add) as [r Hr]; [|congruence].
    intros x [Hx _]%Hitems.
    apply (inv_todo _ _ _ _ _ _ Hinv) in Hx as (n0 & _ & p & Hp & _ & Hm).
    by apply (Hres p).
  - by destruct (visit_not_Diverged top (set_iter todo1) inc [] add).
Qed.

(** With nothing left to do, the included names are the closure. *)
Lemma loop_inv_final top P k inc result :
  loop_inv top P k inc [] result →
  NoDup result ∧
  NoDup (prj_name <$> result) ∧
  (∀ q, q ∈ result → _get_project_info top (prj_name q) = Some q) ∧
  (∀ n, n ∈ prj_name <$> result ↔ transitive_closure top P n ∧ n ∉ P) ∧
  (∀ (i j : nat) q q', i ≤ j → result !! i = Some q → result !! j = Some q' →
     ∀ d, within top P d (prj_name q') → within top P d (prj_name q)).
Proof.
  intros [Hinc Htodo Hfront Hnd Hfound Hnames Hndn Hord].
  assert (∀ n, n ∈ inc ↔ transitive_closure top P n) as Hclosed.
  { intros n. split.
    - intros Hn. apply within_closure. exists k. by apply Hinc.
    - intros (p & Hp & Hrtc). revert n Hrtc. apply (rtc_ind_r (λ n, n ∈ inc) p).
      + by apply Hinc, within_base.
      + intros y z _ Hstep IH.
        destruct (Hfront y z IH Hstep) as [?|Hz]; [done|by apply elem_of_nil in Hz]. }
  repeat split; try done.
  - by apply (NoDup_fmap_1 prj_name).
  - by apply Hclosed, (Hnames n).
  - by apply (Hnames n).
  - intros [Hn HnP]. apply Hnames. split; [by apply Hclosed|done].
Qed.

Lemma size_list_to_set_le (l : list string) : size (list_to_set l : gset string) ≤ length l.
Proof.
  induction l as [|x l IH].
  - by rewrite list_to_set_nil, size_empty.
  - rewrite list_to_set_cons, size_union_alt, size_singleton. simpl.
    pose proof (subseteq_size (list_to_set l ∖ {[x]}) (list_to_set l : gset string)) as Hle.
    specialize (Hle ltac:(set_solver)). lia.
Qed.

(** The loop stops within a number of tests bounded by the names of the
    tree that are not included yet, whatever the dependencies are. *)
Lemma closure_loop_terminates set_iter top fuel :
  admissible set_iter →
  ∀ inc todo add prev,
    NoDup todo →
    inc ⊆ local_names top →
    size (local_names top) - size inc + (if bool_decide (prev = size inc) then 0 else 1) < fuel →
    closure_loop set_iter fuel top inc todo add prev ≠ Diverged.
Proof.
  intros Had. induction fuel as [|fuel IH]; intros inc todo add prev Hnd Hsub Hfuel; [lia|].
  rewrite closure_loop_S. case_bool_decide as Hprev; [done|].
  set (todo1 := update [] (filter (λ x, x ∉ inc) (set_iter todo))) in *.
  assert (NoDup todo1) as Hnd1 by apply NoDup_pending.
  assert (∀ y, y ∈ set_iter todo1 ↔ y ∈ todo ∧ y ∉ inc) as Hitems.
  { intros y. rewrite (admissible_elem_of _ _ _ Had Hnd1). by apply elem_of_pending. }
  destruct (visit top (set_iter todo1) inc [] add) as [[[inc' tn'] add']|e|] eqn:Hvisit;
    [|done|by destruct (visit_not_Diverged top (set_iter todo1) inc [] add)].
  apply visit_Done in Hvisit as (prjs & Hall & -> & -> & ->). simpl.
  assert (list_to_set (set_iter todo1) ∪ inc ⊆ local_names top) as Hsub'.
  { intros x [Hx%elem_of_list_to_set|Hx]%elem_of_union; [|by apply Hsub].
    destruct (found_of_item _ _ _ _ Hall Hx) as (q & _ & Hget).
    apply _get_project_info_Some in Hget as [Hq Hname].
    apply elem_of_local_names. by exists q. }
  pose proof (subseteq_size _ _ Hsub') as Hle.
  apply IH; [by apply NoDup_update|done|].
  revert Hle. rewrite size_visited; [|by apply admissible_NoDup|by intros x [_ ?]%Hitems].
  intros Hle. case_bool_decide; lia.
Qed.

(** *** [additional_deps] *)

Lemma no_parent_eq set_iter (s : Solution) :
  additional_deps set_iter (mkNode [] s) = Done [].
Proof. reflexivity. Qed.

Lemma nested_eq set_iter f fs (s : Solution) :
  let n := mkNode (f :: fs) s in
  additional_deps set_iter n
  = closure_loop set_iter (passes_bound (top n)) (top n) (local_names s)
      (fold_left (λ todo p, update todo (prj_deps p)) (all_projects s) []) [] 0.
Proof. reflexivity. Qed.

Lemma insert_by_slot_perm x l : insert_by_slot x l ≡ₚ x :: l.
Proof.
  induction l as [|y l IH]; simpl; [done|].
  destruct (slot y <=? slot x)%Z; [|done].
  rewrite IH. apply Permutation_swap.
Qed.

(** The order of CPython 2.7 is one a set may have. *)
Lemma cpython27_order_admissible : admissible cpython27_order.
Proof.
  intros l _. unfold cpython27_order.
  enough (∀ acc, fold_left (λ acc x, insert_by_slot x acc) l acc ≡ₚ acc ++ l) as H.
  { by rewrite H. }
  induction l as [|x l IH]; intros acc; simpl.
  - by rewrite app_nil_r.
  - rewrite IH, insert_by_slot_perm. simpl. apply Permutation_middle.
Qed.

Lemma discovery_order_admissible : admissible discovery_order.
Proof. by intros l _. Qed.

(** [deps_resolve] can be checked project by project. *)
Lemma deps_resolve_Forall (top : Solution) :
  Forall (λ p, Forall (λ m, is_Some (_get_project_info top m)) (prj_deps p))
         (all_projects top) →
  deps_resolve top.
Proof.
  intros Hall p m Hp Hm. rewrite Forall_forall in Hall.
  specialize (Hall p Hp). rewrite Forall_forall in Hall. by apply Hall.
Qed.

(** C1. Whatever the iteration order of the sets, [additional_deps]
    terminates, also on a graph with cycles.  On a tree of solutions in
    which project names are unique and every declared dependency names a
    project of the tree, it returns a list without repetition of projects
    of the tree, each the one found under its name, whose names are
    exactly those of [transitive_closure(D, P)] that are not in [P]. *)
Theorem additional_deps_closure set_iter (n : node) :
  admissible set_iter →
  additional_deps set_iter n ≠ Diverged ∧
  (unique_names (top n) → deps_resolve (top n) →
   ∃ l, additional_deps set_iter n = Done l ∧
        NoDup l ∧ NoDup (prj_name <$> l) ∧
        (∀ q, q ∈ l → q ∈ all_projects (top n)
                      ∧ _get_project_info (top n) (prj_name q) = Some q) ∧
        (∀ x, x ∈ prj_name <$> l ↔
              transitive_closure (top n) (local_names (self n)) x
              ∧ x ∉ local_names (self n))).
Proof.
  intros Had. destruct n as [[|f fs] s].
  - split; [done|]. intros _ Hres. exists []. rewrite no_parent_eq.
    split; [done|]. split; [apply NoDup_nil_2|]. split; [apply NoDup_nil_2|]. split.
    { intros q Hq. by apply elem_of_nil in Hq. }
    intros x. rewrite fmap_nil. split; [by intros ?%elem_of_nil|].
    intros [(p & Hp & Hrtc) Hx]. destruct Hx. revert x Hrtc.
    apply (rtc_ind_r (λ x, x ∈ local_names s) p); [done|].
    intros y z _ (q & Hq & _ & Hz) _.
    destruct (Hres q z Hq Hz) as [q' Hget].
    apply _get_project_info_Some in Hget as [Hq' Hname].
    apply elem_of_local_names. by exists q'.
  - rewrite nested_eq. cbn zeta.
    set (n := mkNode (f :: fs) s).
    assert (closure_loop set_iter (passes_bound (top n)) (top n) (local_names s)
              (fold_left (λ todo p, update todo (prj_deps p)) (all_projects s) []) [] 0
            ≠ Diverged) as Hterm.
    { apply closure_loop_terminates; [done|apply NoDup_collect, NoDup_nil_2| |].
      - intros x (p & Hp & <-)%elem_of_local_names. apply elem_of_local_names.
        exists p. split; [by apply (all_projects_top n)|done].
      - pose proof (size_list_to_set_le (prj_name <$> all_projects (top n))) as Hle.
        rewrite length_fmap in Hle. unfold passes_bound, local_names at 1.
        case_bool_decide; lia. }
    split; [done|]. intros Huniq Hres.
    pose proof (closure_loop_inv set_iter (top n) (local_names s) (passes_bound (top n))
                  Had Huniq 0 (local_names s) _ [] 0 (loop_inv_init n Huniq)
                  (collect_nil_of_empty s)) as Hinv.
    destruct (closure_loop _ _ _ _ _ _ _) as [l|e|]; [|done|done].
    destruct Hinv as (k' & inc' & Hinv).
    apply loop_inv_final in Hinv as (Hnd & Hndn & Hfound & Hnames & _).
    exists l. split; [done|]. split; [done|]. split; [done|]. split; [|done].
    intros q Hq. split; [|by apply Hfound].
    by apply Hfound, _get_project_info_Some in Hq as [? _].
Qed.

(** C9, as the code has it.  With unique project names in the tree, the
    list [additional_deps] returns is ordered by the distance of its
    entries from the local projects in the dependency graph, which is the
    pass of the loop that found them: an entry that comes earlier is
    never further away than one that comes later.  Nothing is said of
    the order among the entries of one pass, which is the iteration order
    of a set. *)
Theorem additional_deps_order set_iter (n : node) (l : list prjinfo) :
  admissible set_iter →
  unique_names (top n) →
  additional_deps set_iter n = Done l →
  ∀ (i j : nat) q q', i ≤ j → l !! i = Some q → l !! j = Some q' →
    ∀ d, within (top n) (local_names (self n)) d (prj_name q') →
         within (top n) (local_names (self n)) d (prj_name q).
Proof.
  intros Had Huniq. destruct n as [[|f fs] s].
  - rewrite no_parent_eq. intros [= <-] i j q q' _ Hi.
    by rewrite lookup_nil in Hi.
  - rewrite nested_eq. cbn zeta.
    set (n := mkNode (f :: fs) s).
    pose proof (closure_loop_inv set_iter (top n) (local_names s) (passes_bound (top n))
                  Had Huniq 0 (local_names s) _ [] 0 (loop_inv_init n Huniq)
                  (collect_nil_of_empty s)) as Hinv.
    destruct (closure_loop _ _ _ _ _ _ _) as [l'|e|]; [|done|done].
    intros [= <-]. destruct Hinv as (k' & inc' & Hinv).
    by apply loop_inv_final in Hinv as (_ & _ & _ & _ & Hord).
Qed.

(** C10. A solution without parent gets no additional dependencies,
    whatever its projects depend on. *)
Theorem additional_deps_top set_iter (n : node) :
  parent_solution n = None → additional_deps set_iter n = Done [].
Proof.
  destruct n as [[|f fs] s]; [reflexivity|discriminate].
Qed.

Lemma additional_deps_closure_witness :
  admissible cpython27_order ∧
  unique_names (top Samples.x_node) ∧
  deps_resolve (top Samples.x_node) ∧
  additional_deps cpython27_order Samples.x_node ≠ Diverged ∧
  ∃ l, additional_deps cpython27_order Samples.x_node = Done l ∧
       NoDup l ∧ NoDup (prj_name <$> l) ∧
       (∀ q, q ∈ l → q ∈ all_projects (top Samples.x_node)
                     ∧ _get_project_info (top Samples.x_node) (prj_name q) = Some q) ∧
       (∀ x, x ∈ prj_name <$> l ↔
             transitive_closure (top Samples.x_node) (local_names (self Samples.x_node)) x
             ∧ x ∉ local_names (self Samples.x_node)).
Proof.
  assert (unique_names (top Samples.x_node)) as Huniq.
  { unfold unique_names. apply (bool_decide_unpack _). vm_compute. exact I. }
  assert (deps_resolve (top Samples.x_node)) as Hres.
  { apply deps_resolve_Forall. apply (bool_decide_unpack _). vm_compute. exact I. }
  split; [exact cpython27_order_admissible|].
  split; [exact Huniq|]. split; [exact Hres|].
  split.
  - exact (proj1 (additional_deps_closure cpython27_order Samples.x_node
                    cpython27_order_admissible)).
  - exact (proj2 (additional_deps_closure cpython27_order Samples.x_node
                    cpython27_order_admissible) Huniq Hres).
Defined.

(** C9, where the code departs from it.  The only project of [app_sln]
    declares the dependencies [b] and [c], met in this order; with the
    sets of CPython 2.7 the list comes back as [c], [b]. *)
Lemma additional_deps_not_in_discovery_order :
  admissible cpython27_order ∧
  all_projects (self Samples.app_node) = [Samples.app] ∧
  prj_deps Samples.app = ["b"; "c"] ∧
  additional_deps discovery_order Samples.app_node = Done [Samples.b; Samples.c] ∧
  additional_deps cpython27_order Samples.app_node = Done [Samples.c; Samples.b] ∧
  additional_deps cpython27_order Samples.app_node
  ≠ additional_deps discovery_order Samples.app_node.
Proof.
  split; [exact cpython27_order_admissible|].
  repeat split; try (vm_compute; reflexivity).
  vm_compute. discriminate.
Qed.

Lemma additional_deps_order_witness :
  admissible cpython27_order ∧
  unique_names (top Samples.app_node) ∧
  additional_deps cpython27_order Samples.app_node = Done [Samples.c; Samples.b] ∧
  ∀ (i j : nat) q q', i ≤ j →
    [Samples.c; Samples.b] !! i = Some q → [Samples.c; Samples.b] !! j = Some q' →
    ∀ d, within (top Samples.app_node) (local_names (self Samples.app_node)) d (prj_name q') →
         within (top Samples.app_node) (local_names (self Samples.app_node)) d (prj_name q).
Proof.
  assert (unique_names (top Samples.app_node)) as Huniq.
  { unfold unique_names. apply (bool_decide_unpack _). vm_compute. exact I. }
  assert (additional_deps cpython27_order Samples.app_node
          = Done [Samples.c; Samples.b]) as Hrun.
  { vm_compute. reflexivity. }
  split; [exact cpython27_order_admissible|]. split; [exact Huniq|]. split; [exact Hrun|].
  exact (additional_deps_order cpython27_order Samples.app_node [Samples.c; Samples.b]
           cpython27_order_admissible Huniq Hrun).
Defined.

Lemma additional_deps_top_witness :
  parent_solution (mkNode [] Samples.app_sln) = None ∧
  additional_deps cpython27_order (mkNode [] Samples.app_sln) = Done [].
Proof.
  split; [reflexivity|].
  apply (additional_deps_top cpython27_order (mkNode [] Samples.app_sln)). reflexivity.
Defined.

(** *** [commit] *)

Lemma for_each_Done {E A B} (f : A → outcome E B) l rs :
  for_each f l = Done rs → Forall2 (λ x r, f x = Done r) l rs.
Proof.
  revert rs. induction l as [|x l IH]; intros rs.
  - intros [= <-]. constructor.
  - rewrite for_each_cons.
    intros (y & Hy & (ys & Hys & [= <-])%bind_Done)%bind_Done.
    constructor; [done|by apply IH].
Qed.

Lemma write_nil (f : OutputFile) : write f [] = f.
Proof. destruct f as [es c]. unfold write. simpl. by rewrite app_nil_r. Qed.

Lemma additional_deps_no_projects set_iter (n : node) :
  all_projects (self n) = [] → additional_deps set_iter n = Done [].
Proof.
  destruct n as [[|f fs] s]; [done|]. simpl self. intros Hps.
  rewrite nested_eq. cbn zeta. unfold local_names, passes_bound.
  rewrite Hps, closure_loop_S. simpl fmap. rewrite list_to_set_nil, size_empty.
  by rewrite bool_decide_eq_true_2.
Qed.

Section WithFormats.

Variable set_iter : list string → list string.
Variable format_version human_version : string.
Variable format_path : Expr → res string.
Variable GUID : string → string → string → string.
Variable NAMESPACE_INTERNAL : string.

Abbreviation commit := (commit set_iter format_path GUID NAMESPACE_INTERNAL).
Abbreviation all_folders := (all_folders GUID NAMESPACE_INTERNAL).
Abbreviation extras := (extras GUID NAMESPACE_INTERNAL).
Abbreviation new_file := (new_file format_version human_version).

(** C3. For a solution whose tree holds no project, there are no
    additional dependencies either, [commit] leaves the output file as it
    was handed over, and the file made by [__init__] ends up without
    artifact: it is never committed. *)
Theorem commit_empty_solution (n : node) :
  all_projects (self n) = [] →
  additional_deps set_iter n = Done [] ∧
  (∀ f, commit n f = Done f) ∧
  ∃ f', commit n new_file = Done f' ∧ committed f' = false ∧ artifact f' = None.
Proof.
  intros Hps. pose proof (additional_deps_no_projects set_iter n Hps) as Hadd.
  assert (∀ f, commit n f = Done f) as Hcommit.
  { intros f. unfold Solution.commit. rewrite Hadd, Hps. simpl. by rewrite write_nil. }
  split; [done|]. split; [done|].
  exists new_file. by rewrite Hcommit.
Qed.

Lemma omit_from_tree_folded (sln : folder) : omit_from_tree sln = true ↔ folded sln.
Proof.
  unfold omit_from_tree, folded. destruct (fld_parent sln) as [parent|].
  - rewrite Nat.leb_le. split; [by split|by intros [_ ?]].
  - split; [done|]. by intros [[? [=]] _].
Qed.

Lemma folder_lines_app es1 es2 :
  folder_lines (es1 ++ es2) = folder_lines es1 ++ folder_lines es2.
Proof. apply flat_map_app. Qed.

Lemma folder_lines_none es :
  Forall (λ e, match e with FolderEntry _ _ => False | _ => True end) es →
  folder_lines es = [].
Proof.
  induction 1 as [|e es He _ IH]; [done|].
  unfold folder_lines. simpl. fold (folder_lines es). rewrite IH. by destruct e.
Qed.

Lemma project_entries_no_folder (n : node) p es :
  project_entries format_path n p = Done es → folder_lines es = [].
Proof.
  unfold project_entries.
  intros (file & _ & (deps & Hdeps & [= <-])%bind_Done)%bind_Done.
  apply folder_lines_none. constructor; [done|]. apply Forall_app. split; [|by repeat constructor].
  destruct (prj_deps p) as [|d ds]; [by injection Hdeps as <-|].
  apply bind_Done in Hdeps as (gs & _ & [= <-]).
  constructor; [done|]. apply Forall_app. split; [|by repeat constructor].
  clear. induction gs; by constructor.
Qed.

Lemma projects_no_folder (n : node) prjs pes :
  for_each (project_entries format_path n) prjs = Done pes →
  folder_lines (concat pes) = [].
Proof.
  intros Hall%for_each_Done. induction Hall as [|p es prjs pes Hp _ IH]; [done|].
  simpl. by rewrite folder_lines_app, (project_entries_no_folder _ _ _ Hp), IH.
Qed.

Lemma folder_lines_config guids : folder_lines (flat_map config_entries guids) = [].
Proof. induction guids as [|g guids IH]; [done|]. simpl. exact IH. Qed.

Lemma folder_lines_nested folders : folder_lines (flat_map nested_entries folders) = [].
Proof.
  apply folder_lines_none. apply Forall_forall. intros e.
  rewrite elem_of_flat_map. intros (sln & _ & He).
  unfold nested_entries in He. apply elem_of_app in He as [He|He];
    apply list_elem_of_In, in_map_iff in He as (? & <- & _); done.
Qed.

(** The groupings with an entry are those that are not folded away. *)
Lemma folder_lines_folders folders :
  folder_lines (flat_map folder_entries folders)
  = (λ sln, (fld_name sln, fld_guid sln)) <$> filter (λ sln, ¬ folded sln) folders.
Proof.
  induction folders as [|sln folders IH]; [done|].
  simpl flat_map. rewrite folder_lines_app, IH, filter_cons. unfold folder_entries.
  destruct (omit_from_tree sln) eqn:Homit.
  - apply omit_from_tree_folded in Homit. by rewrite decide_False by tauto.
  - rewrite decide_True; [done|]. intros Hf%omit_from_tree_folded. congruence.
Qed.

Lemma folder_lines_tail folders guids :
  folder_lines (tail_entries folders guids)
  = (λ sln, (fld_name sln, fld_guid sln)) <$> filter (λ sln, ¬ folded sln) folders.
Proof.
  unfold tail_entries. rewrite !folder_lines_app, folder_lines_folders, folder_lines_config.
  destruct folders as [|sln folders]; [done|].
  rewrite !folder_lines_app, folder_lines_nested. simpl. by rewrite !app_nil_r.
Qed.

Lemma nested_in_tail folders guids sln e :
  sln ∈ folders → e ∈ nested_entries sln → e ∈ tail_entries folders guids.
Proof.
  intros Hsln He. unfold tail_entries.
  do 4 (apply elem_of_app; right). apply elem_of_app. left.
  destruct folders as [|sln' folders]; [by apply elem_of_nil in Hsln|].
  apply elem_of_app. right. apply elem_of_app. left.
  apply elem_of_flat_map. by exists sln.
Qed.

Lemma folder_in_tail folders guids sln :
  sln ∈ folders → ¬ folded sln →
  FolderEntry (fld_name sln) (fld_guid sln) ∈ tail_entries folders guids.
Proof.
  intros Hsln Hnf. unfold tail_entries. apply elem_of_app. left.
  apply elem_of_flat_map. exists sln. split; [done|]. unfold folder_entries.
  destruct (omit_from_tree sln) eqn:Homit; [by apply omit_from_tree_folded in Homit|left].
Qed.

(** What [commit] has written when the solution has a project. *)
Lemma commit_written (n : node) (f f' : OutputFile) add :
  additional_deps set_iter n = Done add →
  all_projects (self n) ++ add ≠ [] →
  commit n f = Done f' →
  committed f' = true ∧
  ∃ pes, for_each (project_entries format_path n) (all_projects (self n) ++ add) = Done pes ∧
         written f' = (written f ++ concat pes)
                      ++ tail_entries (all_folders n add)
                           (prj_guid <$> (all_projects (self n) ++ add)).
Proof.
  intros Hadd Hne. unfold Solution.commit. rewrite Hadd. cbn [mbind outcome_bind].
  intros (pes & Hpes & Hf')%bind_Done.
  destruct (all_projects (self n) ++ add) as [|p prjs] eqn:Hprjs; [done|].
  simpl in Hf'. injection Hf' as <-. split; [done|]. by exists pes.
Qed.

End WithFormats.

Lemma commit_empty_solution_witness :
  all_projects (self Samples.empty_node) = [] ∧
  additional_deps cpython27_order Samples.empty_node = Done [] ∧
  (∀ f, commit cpython27_order Samples.sample_format Samples.sample_GUID "internal"
               Samples.empty_node f = Done f) ∧
  ∃ f', Samples.sample_commit Samples.empty_node = Done f'
        ∧ committed f' = false ∧ artifact f' = None.
Proof.
  split; [reflexivity|].
  apply (commit_empty_solution cpython27_order "11.00" "2010" Samples.sample_format
           Samples.sample_GUID "internal" Samples.empty_node).
  reflexivity.
Defined.

(** C2, where the code departs from it.  The solution of [tool] has one
    additional dependency, [b]; the [Additional Dependencies] grouping
    holds that one item and still has its entry in the file, with [b]
    nested under the GUID of the grouping. *)
Lemma additional_dependencies_grouping_not_folded :
  ∃ f' g,
    Samples.sample_commit Samples.tool_node = Done f' ∧
    additional_deps cpython27_order Samples.tool_node = Done [Samples.b] ∧
    g = extras Samples.sample_GUID "internal" Samples.tool_node [Samples.b] ∧
    g ∈ all_folders Samples.sample_GUID "internal" Samples.tool_node [Samples.b] ∧
    length (fld_projects g) + length (fld_subsolutions g) ≤ 1 ∧
    FolderEntry (fld_name g) (fld_guid g) ∈ written f' ∧
    NestedEntry (prj_guid Samples.b) (fld_guid g) ∈ written f'.
Proof.
  eexists. eexists.
  split; [vm_compute; reflexivity|].
  split; [vm_compute; reflexivity|].
  split; [reflexivity|].
  split; [apply elem_of_app; right; left|].
  split; [simpl; lia|].
  split; apply (bool_decide_unpack _); vm_compute; exact I.
Qed.

(** A nested solution that is folded away has no entry, yet its own
    nested solutions are written as nested under its GUID. *)
Lemma folded_solution_keeps_nested_solutions :
  ∃ f',
    Samples.sample_commit Samples.deep_node = Done f' ∧
    (Samples.deep_sln, Samples.mid_sln) ∈ all_subsolutions (self Samples.deep_node) ∧
    folded (folder_of (Samples.deep_sln, Samples.mid_sln)) ∧
    folder_lines (written f') = [("libs", "{S-libs}")] ∧
    NestedEntry "{S-libs}" "{S-mid}" ∈ written f'.
Proof.
  eexists.
  split; [vm_compute; reflexivity|].
  split; [left|].
  split; [split; [by eexists|simpl; lia]|].
  split; [vm_compute; reflexivity|].
  apply (bool_decide_unpack _); vm_compute; exact I.
Qed.

End SolutionFacts.

(** ** Value types: lists, normal forms, anchors *)

Module VarTypesMore.

Import VarTypes.

Lemma for_each_Forall2 {E A B} (f : A → outcome E B) l rs :
  Forall2 (λ x r, f x = Done r) l rs → for_each f l = Done rs.
Proof.
  induction 1 as [|x r l rs Hx _ IH]; [reflexivity|].
  by rewrite for_each_cons, Hx, IH.
Qed.

Section WithExpr.

Variable ANCHORS : list string.
Variable ANCHOR_default : string.
Variable split : Expr -> string -> res (list Expr).

Abbreviation normalize := (normalize ANCHOR_default split).
Abbreviation validate := (validate ANCHORS).

Lemma validate_all_Forall (v : Expr → res unit) items :
  validate_all v items = Done tt ↔ Forall (λ i, v i = Done tt) items.
Proof.
  induction items as [|i items IH].
  - split; [constructor|done].
  - rewrite VarTypesFacts.validate_all_cons, IH, Forall_cons. done.
Qed.

(** X1.  A list validates exactly when it is a list expression and each of its
    items validates against the item type; the empty list always does. *)
Theorem list_validate_items (I : VarType) (e : Expr) :
  validate (ListType I) e = Done tt ↔
  ∃ items, e = ListExpr items ∧ Forall (λ i, validate I i = Done tt) items.
Proof.
  split.
  - intros (items & -> & Hall)%VarTypesFacts.validate_list_inv.
    exists items. split; [done|]. by apply validate_all_Forall.
  - intros (items & -> & Hall). simpl. by apply validate_all_Forall.
Qed.

(** X2.  Validation of a list stops at the first item that fails and raises
    what the item type raised for it. *)
Theorem list_validate_first_failure (I : VarType) good bad rest err :
  Forall (λ i, validate I i = Done tt) good →
  validate I bad = Raised err →
  validate (ListType I) (ListExpr (good ++ bad :: rest)) = Raised err.
Proof.
  intros Hgood Hbad. simpl.
  induction Hgood as [|i good Hi _ IH]; simpl.
  - by rewrite Hbad.
  - by rewrite Hi.
Qed.

Lemma normalize_list_eq (I : VarType) (items : list Expr) :
  normalize (ListType I) (ListExpr items) = ListExpr <$> for_each (normalize I) items.
Proof. reflexivity. Qed.

Lemma normalize_path_shape (e e' : Expr) :
  normalize PathType e = Done e' →
  e' = e ∨ ∃ components anchor, e' = PathExpr components anchor.
Proof.
  assert (∀ r : res (list Expr),
            (components ← r;
             match components with
             | [] => Done e
             | first :: rest =>
                 match first with
                 | LiteralExpr value =>
                     if PyStr.starts_with_char "@" value
                     then Done (PathExpr rest value)
                     else Done (PathExpr components ANCHOR_default)
                 | _ => Done (PathExpr components ANCHOR_default)
                 end
             end) = Done e' →
            e' = e ∨ ∃ components anchor, e' = PathExpr components anchor) as Hgen.
  { intros r (components & _ & H)%bind_Done.
    destruct components as [|first rest]; [left; congruence|].
    right. destruct first; try (injection H as <-; eauto).
    destruct (PyStr.starts_with_char _ _); injection H as <-; eauto. }
  destruct e; simpl; try apply Hgen. intros [= <-]. by left.
Qed.

(** X3.  Normalizing what [normalize] returned returns the same value. *)
Theorem normalize_idempotent (t : VarType) (e e' : Expr) :
  normalize t e = Done e' → normalize t e' = Done e'.
Proof.
  revert e e'. induction t as [| | | |A|I IH]; intros e e' H;
    try (injection H as <-; reflexivity).
  - destruct (normalize_path_shape _ _ H) as [->|(components & anchor & ->)]; done.
  - assert (∃ items', e' = ListExpr items'
                      ∧ Forall (λ i', normalize I i' = Done i') items') as (items' & -> & Hall).
    { destruct e; simpl in H;
        try (apply fmap_Done in H as (x & Hx & ->); exists [x];
             split; [done|]; constructor; [by apply (IH _ _ Hx)|constructor]).
      apply fmap_Done in H as (items' & Heach & ->). exists items'. split; [done|].
      apply SolutionFacts.for_each_Done in Heach.
      induction Heach as [|i i' items items' Hi _ IHeach]; constructor; [|done].
      by apply (IH _ _ Hi). }
    simpl. rewrite (for_each_Forall2 _ items' items'); [done|].
    clear H. induction Hall; by constructor.
Qed.

(** X4.  Normalizing a list expression normalizes its items one by one, in
    order: it returns exactly when every item can be normalized, and then
    with as many items as before. *)
Theorem list_normalize_itemwise (I : VarType) (items : list Expr) (e' : Expr) :
  normalize (ListType I) (ListExpr items) = Done e' ↔
  ∃ items', e' = ListExpr items'
            ∧ Forall2 (λ i i', normalize I i = Done i') items items'.
Proof.
  rewrite normalize_list_eq. split.
  - intros (items' & Heach & ->)%fmap_Done. exists items'. split; [done|].
    by apply SolutionFacts.for_each_Done.
  - intros (items' & -> & Hall). apply fmap_Done. exists items'. split; [|done].
    by apply for_each_Forall2.
Qed.

(** X5.  A value whose first component is a literal that starts with [@] is
    normalized to a path anchored there, and that path validates exactly
    when the literal is one of the anchors; otherwise the error names it. *)
Theorem path_anchor_checked (e : Expr) (a : string) (rest : list Expr) :
  (∀ components anchor, e ≠ PathExpr components anchor) →
  split e "/" = Done (LiteralExpr a :: rest) →
  PyStr.starts_with_char "@" a = true →
  normalize PathType e = Done (PathExpr rest a) ∧
  (a ∈ ANCHORS → validate PathType (PathExpr rest a) = Done tt) ∧
  (a ∉ ANCHORS →
   validate PathType (PathExpr rest a)
   = Raised (TypeError PathType (PathExpr rest a)
               (Some (PyStr.chr PyStr.dquote +:+ a +:+ PyStr.chr PyStr.dquote
                      +:+ " is not a valid path anchor")))).
Proof.
  intros Hnp Hsplit Hat. split; [|split].
  - destruct e; simpl; rewrite ?Hsplit; simpl; rewrite ?Hat; try done.
    by destruct (Hnp components anchor).
  - intros Hin. simpl. by rewrite bool_decide_eq_true_2.
  - intros Hnin. simpl. by rewrite bool_decide_eq_false_2.
Qed.

(** X6.  Validation only grows with the type: a list accepted for an item type
    is accepted for every item type that accepts at least the same
    values, and a value accepted for an enum is accepted for every enum
    with at least the same allowed values and as an id. *)
Theorem validate_widening (I J : VarType) (A B : list string) (e : Expr) :
  (∀ i, validate I i = Done tt → validate J i = Done tt) →
  A ⊆ B →
  (validate (ListType I) e = Done tt → validate (ListType J) e = Done tt) ∧
  (validate (EnumType A) e = Done tt →
   validate (EnumType B) e = Done tt ∧ validate IdType e = Done tt).
Proof.
  intros HIJ HAB. split.
  - intros (items & -> & Hall)%VarTypesFacts.validate_list_inv. simpl.
    apply validate_all_Forall. apply validate_all_Forall in Hall.
    eapply Forall_impl; [exact Hall|]. intros i Hi. by apply HIJ.
  - destruct e; simpl; try discriminate.
    case_bool_decide as Hin; [|by destruct (strs A)].
    intros _. rewrite bool_decide_eq_true_2; [done|]. by apply HAB.
Qed.

End WithExpr.

Lemma list_validate_first_failure_witness :
  Forall (λ i, validate Samples.sample_anchors BoolType i = Done tt) [LiteralExpr "true"] ∧
  validate Samples.sample_anchors BoolType (LiteralExpr "maybe")
  = Raised (TypeError BoolType (LiteralExpr "maybe") None) ∧
  validate Samples.sample_anchors (ListType BoolType)
    (ListExpr ([LiteralExpr "true"] ++ LiteralExpr "maybe" :: [LiteralExpr "false"]))
  = Raised (TypeError BoolType (LiteralExpr "maybe") None).
Proof.
  assert (Forall (λ i, validate Samples.sample_anchors BoolType i = Done tt)
                 [LiteralExpr "true"]) as Hgood by (repeat constructor).
  split; [exact Hgood|]. split; [reflexivity|].
  apply (list_validate_first_failure Samples.sample_anchors BoolType
           [LiteralExpr "true"] (LiteralExpr "maybe") [LiteralExpr "false"]
           (TypeError BoolType (LiteralExpr "maybe") None) Hgood).
  reflexivity.
Defined.

Lemma normalize_idempotent_witness :
  let e' := ListExpr [PathExpr [LiteralExpr "src"; LiteralExpr "lib"] "@top_srcdir"] in
  normalize "@srcdir" Samples.sample_split (ListType PathType)
            (LiteralExpr "@top_srcdir/src/lib") = Done e' ∧
  normalize "@srcdir" Samples.sample_split (ListType PathType) e' = Done e'.
Proof.
  intros e'. split; [reflexivity|].
  apply (normalize_idempotent "@srcdir" Samples.sample_split (ListType PathType)
           (LiteralExpr "@top_srcdir/src/lib") e').
  reflexivity.
Defined.

Lemma path_anchor_checked_witness :
  let e := LiteralExpr "@nowhere/x" in
  (∀ components anchor, e ≠ PathExpr components anchor) ∧
  Samples.sample_split e "/" = Done [LiteralExpr "@nowhere"; LiteralExpr "x"] ∧
  PyStr.starts_with_char "@" "@nowhere" = true ∧
  ("@nowhere" ∉ Samples.sample_anchors) ∧
  normalize "@srcdir" Samples.sample_split PathType e
  = Done (PathExpr [LiteralExpr "x"] "@nowhere") ∧
  validate Samples.sample_anchors PathType (PathExpr [LiteralExpr "x"] "@nowhere")
  = Raised (TypeError PathType (PathExpr [LiteralExpr "x"] "@nowhere")
              (Some (PyStr.chr PyStr.dquote +:+ "@nowhere" +:+ PyStr.chr PyStr.dquote
                     +:+ " is not a valid path anchor"))).
Proof.
  intros e.
  assert (∀ components anchor, e ≠ PathExpr components anchor) as Hnp by discriminate.
  assert ("@nowhere" ∉ Samples.sample_anchors) as Hnin.
  { apply (bool_decide_eq_false_1 ("@nowhere" ∈ Samples.sample_anchors)). reflexivity. }
  destruct (path_anchor_checked Samples.sample_anchors "@srcdir" Samples.sample_split
              e "@nowhere" [LiteralExpr "x"] Hnp eq_refl eq_refl) as (Hnorm & _ & Hbad).
  split; [exact Hnp|]. split; [reflexivity|]. split; [reflexivity|].
  split; [exact Hnin|]. split; [exact Hnorm|exact (Hbad Hnin)].
Defined.

Lemma validate_widening_witness :
  (∀ i, validate Samples.sample_anchors BoolType i = Done tt
        → validate Samples.sample_anchors IdType i = Done tt) ∧
  ["release"] ⊆ ["debug"; "release"] ∧
  validate Samples.sample_anchors (ListType IdType) (ListExpr [LiteralExpr "true"]) = Done tt ∧
  validate Samples.sample_anchors (EnumType ["debug"; "release"]) (LiteralExpr "release")
  = Done tt ∧
  validate Samples.sample_anchors IdType (LiteralExpr "release") = Done tt.
Proof.
  assert (∀ i, validate Samples.sample_anchors BoolType i = Done tt
               → validate Samples.sample_anchors IdType i = Done tt) as Hsub.
  { intros i. destruct i; simpl; try discriminate. reflexivity. }
  assert (["release"] ⊆ ["debug"; "release"]) as Hincl.
  { intros x Hx. apply list_elem_of_singleton in Hx as ->. right. left. }
  destruct (validate_widening Samples.sample_anchors BoolType IdType
              ["release"] ["debug"; "release"] (ListExpr [LiteralExpr "true"]) Hsub Hincl)
    as [Hlist _].
  destruct (validate_widening Samples.sample_anchors BoolType IdType
              ["release"] ["debug"; "release"] (LiteralExpr "release") Hsub Hincl)
    as [_ Henum].
  split; [exact Hsub|]. split; [exact Hincl|].
  split; [exact (Hlist eq_refl)|]. exact (Henum eq_refl).
Defined.

End VarTypesMore.

(** ** The serializer: escaping, quoting, and the trees that serialize *)

Module XmlMore.

Import Xml NodeOps.

Lemma contains_app (c : ascii) (a b : string) :
  PyStr.contains c (a +:+ b) = PyStr.contains c a || PyStr.contains c b.
Proof.
  induction a as [|d a IH]; [reflexivity|].
  rewrite XmlFacts.append_cons. simpl. by destruct (Ascii.eqb c d).
Qed.

Lemma contains_chr (c d : ascii) : PyStr.contains c (PyStr.chr d) = Ascii.eqb d c.
Proof. unfold PyStr.chr. simpl. rewrite Ascii.eqb_sym. by destruct (Ascii.eqb d c). Qed.

Lemma append_cons_ne (c : ascii) (a b : string) : String c a +:+ b ≠ "".
Proof. by rewrite XmlFacts.append_cons. Qed.

Lemma append_ne_empty_r (a b : string) : b ≠ "" → a +:+ b ≠ "".
Proof. destruct a; [done|]. intros _. apply append_cons_ne. Qed.

Lemma escape_cons (c : ascii) (rest : string) :
  escape (String c rest)
  = (if Ascii.eqb c "&" then "&amp;"
     else if Ascii.eqb c ">" then "&gt;"
     else if Ascii.eqb c "<" then "&lt;"
     else PyStr.chr c) +:+ escape rest.
Proof. reflexivity. Qed.

(** X7.  Escaped text holds neither [<] nor [>]. *)
Theorem escape_no_markup (data : string) :
  PyStr.contains "<" (escape data) = false ∧ PyStr.contains ">" (escape data) = false.
Proof.
  induction data as [|c rest [IHlt IHgt]]; [done|].
  rewrite escape_cons, !contains_app, IHlt, IHgt, !orb_false_r.
  destruct (Ascii.eqb c "&"); [done|].
  destruct (Ascii.eqb c ">") eqn:Hgt; [done|].
  destruct (Ascii.eqb c "<") eqn:Hlt; [done|].
  by rewrite !contains_chr, Hlt, Hgt.
Qed.

Lemma escape_empty (data : string) : escape data = "" ↔ data = "".
Proof.
  split; [|by intros ->]. destruct data as [|c rest]; [done|].
  rewrite escape_cons. intros H. exfalso. revert H.
  destruct (Ascii.eqb c "&"); [apply append_cons_ne|].
  destruct (Ascii.eqb c ">"); [apply append_cons_ne|].
  destruct (Ascii.eqb c "<"); apply append_cons_ne.
Qed.

Lemma format_leaf_empty_iff (subindent key v : string) :
  format_leaf subindent key v = "" ↔ v = "".
Proof.
  split; [|by intros ->]. destruct v as [|c v]; [done|].
  unfold format_leaf. intros H. exfalso. revert H.
  apply append_ne_empty_r, append_cons_ne.
Qed.

Lemma escape_attr_cons (c : ascii) (rest : string) :
  escape_attr (String c rest)
  = (if Ascii.eqb c "&" then "&amp;"
     else if Ascii.eqb c ">" then "&gt;"
     else if Ascii.eqb c "<" then "&lt;"
     else if Ascii.eqb c PyStr.newline then "&#10;"
     else if Ascii.eqb c PyStr.creturn then "&#13;"
     else if Ascii.eqb c PyStr.tab then "&#9;"
     else PyStr.chr c) +:+ escape_attr rest.
Proof. reflexivity. Qed.

Lemma escape_attr_clean (data : string) :
  PyStr.contains "<" (escape_attr data) = false
  ∧ PyStr.contains PyStr.newline (escape_attr data) = false.
Proof.
  induction data as [|c rest [IHlt IHnl]]; [done|].
  rewrite escape_attr_cons, !contains_app, IHlt, IHnl, !orb_false_r.
  destruct (Ascii.eqb c "&"); [done|].
  destruct (Ascii.eqb c ">"); [done|].
  destruct (Ascii.eqb c "<") eqn:Hlt; [done|].
  destruct (Ascii.eqb c PyStr.newline) eqn:Hnl; [done|].
  destruct (Ascii.eqb c PyStr.creturn); [done|].
  destruct (Ascii.eqb c PyStr.tab); [done|].
  by rewrite !contains_chr, Hlt, Hnl.
Qed.

Lemma replace_dquote_cons (c : ascii) (rest : string) :
  replace_dquote (String c rest)
  = (if Ascii.eqb c PyStr.dquote then "&quot;" else PyStr.chr c) +:+ replace_dquote rest.
Proof. reflexivity. Qed.

Lemma replace_dquote_clean (data : string) :
  PyStr.contains PyStr.dquote (replace_dquote data) = false.
Proof.
  induction data as [|c rest IH]; [done|].
  rewrite replace_dquote_cons, contains_app, IH, orb_false_r.
  destruct (Ascii.eqb c PyStr.dquote) eqn:Hdq; [done|]. by rewrite contains_chr.
Qed.

Lemma replace_dquote_keeps (x : ascii) (data : string) :
  PyStr.contains x "&quot;" = false →
  PyStr.contains x data = false →
  PyStr.contains x (replace_dquote data) = false.
Proof.
  intros Hx. induction data as [|c rest IH]; [done|].
  rewrite replace_dquote_cons, contains_app. simpl PyStr.contains at 1.
  destruct (Ascii.eqb x c) eqn:Hxc; [done|]. intros Hrest. rewrite (IH Hrest), orb_false_r.
  destruct (Ascii.eqb c PyStr.dquote); [done|].
  by rewrite contains_chr, Ascii.eqb_sym.
Qed.

(** X9.  A quoted attribute value sits between two quotes of one kind, holds
    no quote of that kind, no [<] and no line break. *)
Theorem quoteattr_delimited (data : string) :
  ∃ q body,
    quoteattr data = PyStr.chr q +:+ body +:+ PyStr.chr q ∧
    (q = PyStr.dquote ∨ q = PyStr.squote) ∧
    PyStr.contains q body = false ∧
    PyStr.contains "<" body = false ∧
    PyStr.contains PyStr.newline body = false.
Proof.
  destruct (escape_attr_clean data) as [Hlt Hnl]. unfold quoteattr.
  destruct (PyStr.contains PyStr.dquote (escape_attr data)) eqn:Hdq.
  - destruct (PyStr.contains PyStr.squote (escape_attr data)) eqn:Hsq.
    + exists PyStr.dquote, (replace_dquote (escape_attr data)).
      split; [done|]. split; [by left|]. split; [apply replace_dquote_clean|].
      split; by apply replace_dquote_keeps.
    + exists PyStr.squote, (escape_attr data). split; [done|]. split; [by right|]. done.
  - exists PyStr.dquote, (escape_attr data). split; [done|]. split; [by left|]. done.
Qed.

Lemma Node_forall_ind (P : Node → Prop) :
  (∀ name text attrs children,
     Forall (λ kc, match kc.2 with ChildNode m => P m | ChildValue _ => True end) children →
     P (mkNode name text attrs children)) →
  ∀ n, P n.
Proof.
  intros H. fix IH 1. intros [name text attrs children]. apply H.
  induction children as [|[key [m|v]] cs IHcs]; constructor; simpl; auto.
Qed.


Section WithFormatter.

Variable expr_format : Expr -> res string.

Abbreviation fmt_node := (_format_node expr_format).
Abbreviation fmt_children := (format_children expr_format (_format_node expr_format)).
Abbreviation value_ok := (value_ok expr_format).
Abbreviation node_ok := (node_ok expr_format).

(** X8.  A scalar child is left out of the text exactly when its formatted
    value is empty: escaping never empties a value. *)
Theorem leaf_omitted_iff_empty subindent key v fv :
  _format_value expr_format v = Done fv →
  ∃ piece,
    format_child expr_format fmt_node subindent (key, ChildValue v) = Done piece ∧
    (piece = "" ↔ fv = "").
Proof.
  intros Hfv. exists (format_leaf subindent key (escape fv)). split.
  - cbn [format_child]. by rewrite Hfv.
  - by rewrite format_leaf_empty_iff, escape_empty.
Qed.

Lemma format_attrs_ok attrs :
  (∃ a, format_attrs expr_format attrs = Done a) ↔ Forall (λ kv, value_ok kv.2) attrs.
Proof.
  induction attrs as [|[key value] attrs IH]; simpl.
  - split; [constructor|eauto].
  - rewrite Forall_cons, <- IH. simpl. split.
    + intros (a & (v & Hv & (rest & Hrest & _)%bind_Done)%bind_Done).
      split; [by exists v|by exists rest].
    + intros [(v & Hv) (rest & Hrest)]. rewrite Hv. simpl. rewrite Hrest. simpl. eauto.
Qed.

Lemma format_children_ok subindent l :
  Forall (λ kc, match kc.2 with
                | ChildNode m => ∀ indent, (∃ out, fmt_node m indent = Done out) ↔ node_ok m
                | ChildValue _ => True
                end) l →
  (∃ s, fmt_children subindent l = Done s) ↔ children_ok expr_format node_ok l.
Proof.
  induction 1 as [|[key c] l Hc _ IH]; [simpl; split; eauto|].
  rewrite XmlFacts.format_children_cons. split.
  - intros (s & (piece & Hpiece & (rest & Hrest & _)%bind_Done)%bind_Done).
    assert (children_ok expr_format node_ok l) as Hl by (apply IH; eauto).
    destruct c as [m|v]; simpl in *.
    + case_bool_decide as Hkey; [|discriminate].
      split; [|done]. split; [done|]. apply (Hc subindent). eauto.
    + apply bind_Done in Hpiece as (fv & Hfv & _). split; [by exists fv|done].
  - intros Hok. destruct c as [m|v]; simpl in Hok.
    + destruct Hok as [[Hkey Hm] Hl]. apply (Hc subindent) in Hm as (out & Hout).
      apply IH in Hl as (rest & Hrest). cbn [format_child].
      rewrite bool_decide_eq_true_2 by done. rewrite Hout. simpl. rewrite Hrest. simpl. eauto.
    + destruct Hok as [(fv & Hfv) Hl]. apply IH in Hl as (rest & Hrest).
      cbn [format_child]. rewrite Hfv. simpl. rewrite Hrest. simpl. eauto.
Qed.

Lemma format_node_childless name text attrs indent :
  (∃ out, fmt_node (mkNode name text attrs []) indent = Done out)
  ↔ ∃ a, format_attrs expr_format attrs = Done a.
Proof.
  cbn [_format_node]. split.
  - intros (out & (a & Ha & _)%bind_Done). eauto.
  - intros (a & ->). simpl. destruct (truthy_text text); eauto.
Qed.

(** X10.  Serializing a node returns a text exactly for the trees in which
    every attribute value and scalar child can be formatted, no node has
    both text and children, and every child node is stored under its own
    name; for every other tree it raises. *)
Theorem format_node_succeeds_iff (n : Node) (indent : string) :
  (∃ out, fmt_node n indent = Done out) ↔ node_ok n.
Proof.
  revert indent. induction n as [name text attrs children IH] using Node_forall_ind.
  intros indent. destruct children as [|c cs].
  - rewrite format_node_childless, format_attrs_ok. simpl. split.
    + intros Hattrs. split; [done|]. split; [by intros []|done].
    + by intros [Hattrs _].
  - cbn [NodeOps.node_ok]. rewrite <- format_attrs_ok.
    rewrite <- (format_children_ok (indent +:+ "  ") (c :: cs) IH). split.
    + intros (out & (Htext & a & body & Ha & Hbody & _)%XmlFacts.format_node_with_children).
      split; [eauto|]. split; [done|eauto].
    + intros [(a & Ha) [Htext (body & Hbody)]]. eexists.
      apply XmlFacts.format_node_with_children. split; [by apply Htext|].
      exists a, body. split; [done|]. split; [done|reflexivity].
Qed.



Lemma format_children_empty_leaves subindent l :
  Forall (λ kc, ∃ v, kc.2 = ChildValue v ∧ _format_value expr_format v = Done "") l →
  fmt_children subindent l = Done "".
Proof.
  induction 1 as [|[key c] l (v & Hc & Hv) _ IH]; [reflexivity|].
  simpl in Hc. subst c. rewrite XmlFacts.format_children_cons. cbn [format_child].
  rewrite Hv. simpl. rewrite IH. reflexivity.
Qed.

(** X12.  A node all of whose children are scalars with an empty value is
    written as an opening and a closing tag with nothing between them,
    not as the single tag a node without children gets. *)
Theorem empty_leaves_not_self_closed name text attrs children indent a :
  children ≠ [] →
  truthy_text text = false →
  format_attrs expr_format attrs = Done a →
  Forall (λ kc, ∃ v, kc.2 = ChildValue v ∧ _format_value expr_format v = Done "") children →
  fmt_node (mkNode name text attrs children) indent
  = Done (indent +:+ "<" +:+ name +:+ a +:+ ">" +:+ nl
          +:+ indent +:+ "</" +:+ name +:+ ">" +:+ nl) ∧
  fmt_node (mkNode name text attrs []) indent
  = Done (indent +:+ "<" +:+ name +:+ a +:+ " />" +:+ nl).
Proof.
  intros Hne Htext Ha Hall. split.
  - destruct children as [|c cs]; [done|].
    apply XmlFacts.format_node_with_children. split; [done|].
    exists a, "". split; [done|]. split; [by apply format_children_empty_leaves|done].
  - cbn [_format_node]. rewrite Ha. simpl. rewrite Htext.
    by rewrite !XmlFacts.append_assoc.
Qed.

End WithFormatter.

Lemma leaf_omitted_iff_empty_witness :
  _format_value Samples.sample_format (VList [VStr ""; VStr ""]) = Done ";" ∧
  ∃ piece,
    format_child Samples.sample_format (_format_node Samples.sample_format) "  "
      ("Defines", ChildValue (VList [VStr ""; VStr ""])) = Done piece ∧
    (piece = "" ↔ ";" = "").
Proof.
  split; [reflexivity|].
  apply (leaf_omitted_iff_empty Samples.sample_format "  " "Defines"
           (VList [VStr ""; VStr ""]) ";").
  reflexivity.
Defined.


Lemma empty_leaves_not_self_closed_witness :
  let children := [("Keyword", ChildValue (VStr "")); ("Defines", ChildValue (VList []))] in
  children ≠ [] ∧
  format_attrs Samples.sample_format [] = Done "" ∧
  Forall (λ kc, ∃ v, kc.2 = ChildValue v ∧ _format_value Samples.sample_format v = Done "")
         children ∧
  _format_node Samples.sample_format (mkNode "PropertyGroup" None [] children) ""
  = Done ("" +:+ "<" +:+ "PropertyGroup" +:+ "" +:+ ">" +:+ nl
          +:+ "" +:+ "</" +:+ "PropertyGroup" +:+ ">" +:+ nl) ∧
  _format_node Samples.sample_format (mkNode "PropertyGroup" None [] []) ""
  = Done ("" +:+ "<" +:+ "PropertyGroup" +:+ "" +:+ " />" +:+ nl).
Proof.
  intros children.
  assert (children ≠ []) as Hne by discriminate.
  assert (Forall (λ kc, ∃ v, kc.2 = ChildValue v
                             ∧ _format_value Samples.sample_format v = Done "") children)
    as Hall.
  { repeat constructor; eexists; split; reflexivity. }
  split; [exact Hne|]. split; [reflexivity|]. split; [exact Hall|].
  exact (empty_leaves_not_self_closed Samples.sample_format "PropertyGroup" None []
           children "" "" Hne eq_refl eq_refl Hall).
Defined.

End XmlMore.

(** ** Solutions: lookups, the GUID map, edges of the closure *)

Module SolutionMore.

Import Solution Closure Groupings Lines.

Lemma find_project_app id l1 l2 :
  find_project id (l1 ++ l2)
  = match find_project id l1 with
    | Some p => Some p
    | None => find_project id l2
    end.
Proof.
  induction l1 as [|p l1 IH]; [reflexivity|]. simpl. by case_bool_decide.
Qed.

Lemma first_some_flat_map id subs :
  Forall (λ sub, _get_project_info sub id = find_project id (all_projects sub)) subs →
  first_some (λ sln, _get_project_info sln id) subs
  = find_project id (flat_map all_projects subs).
Proof.
  induction 1 as [|sub subs Hsub _ IH]; [reflexivity|].
  simpl. rewrite find_project_app, Hsub, IH. reflexivity.
Qed.

(** X13.  The search through the tree gives the first project of that name in
    the order in which [all_projects] yields the projects. *)
Theorem lookup_is_first_match (s : Solution) (id : string) :
  _get_project_info s id = find_project id (all_projects s).
Proof.
  induction s as [n g ps subs gm IH] using SolutionFacts.Solution_forall_ind.
  rewrite SolutionFacts._get_project_info_eq, SolutionFacts.all_projects_eq. simpl.
  rewrite find_project_app. destruct (find_project id ps); [done|].
  by apply first_some_flat_map.
Qed.

Lemma all_subsolutions_eq (s : Solution) :
  all_subsolutions s
  = flat_map (λ sln, (s, sln) :: all_subsolutions sln) (subsolutions s).
Proof. by destruct s. Qed.

Lemma nested_projects_flat_map (s0 : Solution) (subs : list Solution) :
  Forall (λ sub, all_projects sub
                 = projects sub ++ flat_map (λ ps, projects ps.2) (all_subsolutions sub))
         subs →
  flat_map all_projects subs
  = flat_map (λ ps, projects ps.2)
             (flat_map (λ sln, (s0, sln) :: all_subsolutions sln) subs).
Proof.
  induction 1 as [|sub subs Hsub _ IH]; [reflexivity|].
  cbn [flat_map]. rewrite flat_map_app. cbn [flat_map]. by rewrite <- IH, Hsub.
Qed.

(** X14.  The two walks over the tree agree: the projects of the tree are the
    solution's own followed by those of the nested solutions in the order
    [all_subsolutions] lists them, and each listed solution is nested
    directly in the solution listed as its parent. *)
Theorem walks_agree (s : Solution) :
  all_projects s = projects s ++ flat_map (λ ps, projects ps.2) (all_subsolutions s) ∧
  ∀ parent sln, (parent, sln) ∈ all_subsolutions s → sln ∈ subsolutions parent.
Proof.
  induction s as [n g ps subs gm IH] using SolutionFacts.Solution_forall_ind.
  set (s := mkSolution n g ps subs gm).
  rewrite SolutionFacts.all_projects_eq, all_subsolutions_eq.
  change (subsolutions s) with subs. change (projects s) with ps.
  assert (∀ parent sln, (parent, sln) ∈ flat_map (λ sln, (s, sln) :: all_subsolutions sln) subs
            → (parent = s ∧ sln ∈ subs) ∨ ∃ sub, sub ∈ subs ∧ (parent, sln) ∈ all_subsolutions sub)
    as Hin.
  { intros parent sln (sub & Hsub & Hp)%SolutionFacts.elem_of_flat_map.
    apply elem_of_cons in Hp as [[= -> ->]|Hp]; [by left|right; eauto]. }
  split.
  - f_equal. apply nested_projects_flat_map.
    eapply Forall_impl; [exact IH|]. by intros sub [Hsub _].
  - intros parent sln [[-> Hsln]|(sub & Hsub & Hp)]%Hin; [done|].
    rewrite Forall_forall in IH. by apply (IH sub Hsub).
Qed.

Lemma all_of_elem {A} (P : A → Prop) l x : all_of P l → x ∈ l → P x.
Proof.
  induction l as [|y l IH]; intros Hall Hx; [by apply elem_of_nil in Hx|].
  destruct Hall as [Hy Hl]. apply elem_of_cons in Hx as [->|Hx]; [done|by apply IH].
Qed.

Lemma all_of_app {A} (P : A → Prop) l1 l2 : all_of P (l1 ++ l2) ↔ all_of P l1 ∧ all_of P l2.
Proof. induction l1 as [|y l1 IH]; simpl; [tauto|]. rewrite IH. tauto. Qed.

Lemma guids_kept_eq (s : Solution) :
  guids_kept s ↔ guids_follow_projects s ∧ all_of guids_kept (subsolutions s).
Proof. by destruct s. Qed.

Lemma guids_kept_new (nm g : string) : guids_kept (new_solution nm g).
Proof. split; [|done]. intros id. simpl. by rewrite lookup_empty. Qed.

Lemma guids_kept_add_project (s : Solution) (p : prjinfo) :
  guids_kept s → guids_kept (add_project s p).
Proof.
  intros [Hs Hsubs]%guids_kept_eq. apply guids_kept_eq. split; [|done].
  intros id. simpl. rewrite rev_unit. simpl. case_bool_decide as Hid.
  - subst id. by rewrite lookup_insert_eq.
  - rewrite lookup_insert_ne by done. apply Hs.
Qed.

Lemma guids_kept_add_subsolution (s t : Solution) :
  guids_kept s → guids_kept t → guids_kept (add_subsolution s t).
Proof.
  intros [Hs Hsubs]%guids_kept_eq Ht. apply guids_kept_eq. split; [done|].
  simpl. apply all_of_app. split; [done|]. by split.
Qed.

(** X15.  The operations on a solution keep its GUID map in step with its
    projects: a new solution has it so, and [add_project] and
    [add_subsolution] leave it so. *)
Theorem operations_keep_guids (s t : Solution) (p : prjinfo) (nm g : string) :
  guids_kept (new_solution nm g) ∧
  (guids_kept s → guids_kept (add_project s p)) ∧
  (guids_kept s → guids_kept t → guids_kept (add_subsolution s t)).
Proof.
  split; [apply guids_kept_new|].
  split; [apply guids_kept_add_project|apply guids_kept_add_subsolution].
Qed.

Lemma find_project_elem (l : list prjinfo) p :
  NoDup (prj_name <$> l) → p ∈ l → find_project (prj_name p) l = Some p.
Proof.
  intros Hnd Hp. destruct (find_project (prj_name p) l) as [q|] eqn:Hfind.
  - apply SolutionFacts.find_project_Some in Hfind as [Hq Hname].
    f_equal. by apply (SolutionFacts.unique_by_name l).
  - by destruct (SolutionFacts.find_project_None _ _ Hfind p Hp).
Qed.

Lemma rev_is_reverse {A} (l : list A) : rev l = reverse l.
Proof. unfold reverse. apply rev_alt. Qed.

Lemma find_project_rev id (l : list prjinfo) :
  NoDup (prj_name <$> l) → find_project id (rev l) = find_project id l.
Proof.
  intros Hnd. destruct (find_project id l) as [p|] eqn:Hfind.
  - apply SolutionFacts.find_project_Some in Hfind as [Hp <-].
    apply find_project_elem.
    + by rewrite rev_is_reverse, fmap_reverse, reverse_Permutation.
    + rewrite rev_is_reverse. by apply elem_of_reverse.
  - destruct (find_project id (rev l)) as [q|] eqn:Hrev; [|done].
    apply SolutionFacts.find_project_Some in Hrev as [Hq Hname].
    rewrite rev_is_reverse, elem_of_reverse in Hq.
    by destruct (SolutionFacts.find_project_None _ _ Hfind q Hq).
Qed.

Lemma NoDup_flat_map_elem (subs : list Solution) sub :
  NoDup (prj_name <$> flat_map all_projects subs) → sub ∈ subs →
  NoDup (prj_name <$> all_projects sub).
Proof.
  induction subs as [|x subs IH]; intros Hnd Hsub; [by apply elem_of_nil in Hsub|].
  simpl in Hnd. rewrite fmap_app in Hnd. apply NoDup_app in Hnd as (Hx & _ & Hrest).
  apply elem_of_cons in Hsub as [->|Hsub]; [done|by apply IH].
Qed.

Lemma find_guid_eq (s : Solution) id :
  _find_target_guid_recursively s id
  = match guids_map s !! id with
    | Some g => Some g
    | None => first_truthy (λ sln, _find_target_guid_recursively sln id) (subsolutions s)
    end.
Proof. by destruct s. Qed.

(** In a tree with its GUID maps in step, unique names and no empty
    GUID, the search for a GUID gives the GUID of the project the search
    for the project gives. *)
Lemma find_guid_is_project_guid (s : Solution) (id : string) :
  guids_kept s →
  NoDup (prj_name <$> all_projects s) →
  (∀ p, p ∈ all_projects s → truthy (prj_guid p) = true) →
  _find_target_guid_recursively s id = prj_guid <$> _get_project_info s id.
Proof.
  induction s as [n g ps subs gm IH] using SolutionFacts.Solution_forall_ind.
  intros [Hmap Hsubs]%guids_kept_eq Hnd Htruthy.
  rewrite find_guid_eq, SolutionFacts._get_project_info_eq.
  unfold guids_follow_projects in Hmap. simpl in *.
  rewrite fmap_app in Hnd. pose proof Hnd as (Hps & _ & Hrest)%NoDup_app.
  rewrite (Hmap id). simpl. rewrite (find_project_rev _ _ Hps).
  destruct (find_project id ps) as [p|]; [done|]. simpl.
  assert (∀ sub, sub ∈ subs →
            _find_target_guid_recursively sub id = prj_guid <$> _get_project_info sub id
            ∧ ∀ q, _get_project_info sub id = Some q → truthy (prj_guid q) = true) as Hsub.
  { intros sub Hin. rewrite Forall_forall in IH. split.
    - apply (IH sub Hin); [by apply (all_of_elem _ subs)|by apply (NoDup_flat_map_elem subs)|].
      intros q Hq. apply Htruthy, elem_of_app. right.
      apply SolutionFacts.elem_of_flat_map. eauto.
    - intros q [Hq _]%SolutionFacts._get_project_info_Some. apply Htruthy, elem_of_app.
      right. apply SolutionFacts.elem_of_flat_map. eauto. }
  clear IH Hsubs Hnd Hrest Htruthy. induction subs as [|sub subs IHsubs]; [done|].
  simpl. destruct (Hsub sub) as [-> Htr]; [left|].
  destruct (_get_project_info sub id) as [q|]; simpl.
  - by rewrite (Htr q).
  - apply IHsubs. intros x Hx. apply Hsub. by right.
Qed.

Lemma guids_kept_self (fs : list frame) (s : Solution) :
  guids_kept (top_of fs s) → guids_kept s.
Proof.
  revert s. induction fs as [|f fs IH]; intros s; [done|]. simpl.
  intros [_ Hsubs]%IH%guids_kept_eq. simpl in Hsubs.
  apply (all_of_elem _ _ s Hsubs), elem_of_app. right. left.
Qed.

(** X16.  In a tree with its GUID maps in step, unique project names and no
    empty GUID, resolving a name to a GUID from any solution of the tree
    gives the GUID of the project of that name, and fails the assertion
    exactly when the tree has no such project. *)
Theorem guid_of_target_is_project_guid (n : node) (id : string) :
  guids_kept (top n) →
  unique_names (top n) →
  (∀ p, p ∈ all_projects (top n) → truthy (prj_guid p) = true) →
  _get_target_guid n id
  = match _get_project_info (top n) id with
    | Some p => Done (prj_guid p)
    | None => Raised (AssertionError ("can't find GUID of project '" +:+ id +:+ "'"))
    end.
Proof.
  intros Hkept Huniq Htruthy. unfold _get_target_guid.
  rewrite (find_guid_is_project_guid (top n) id Hkept Huniq Htruthy).
  destruct n as [fs s]. unfold top in *. simpl in *.
  pose proof (guids_kept_self fs s Hkept) as [Hmap _]%guids_kept_eq.
  rewrite (Hmap id).
  destruct (find_project id (rev (projects s))) as [p|] eqn:Hfind; simpl.
  - apply SolutionFacts.find_project_Some in Hfind as [Hp <-].
    rewrite rev_is_reverse, elem_of_reverse in Hp.
    assert (p ∈ all_projects (top_of fs s)) as Hin.
    { apply (SolutionFacts.all_projects_top (mkNode fs s)). simpl.
      apply SolutionFacts.elem_of_all_projects. by left. }
    by rewrite (SolutionFacts._get_project_info_unique _ _ Huniq Hin).
  - destruct (_get_project_info (top_of fs s) id) as [q|] eqn:Hget; simpl; [|done].
    apply SolutionFacts._get_project_info_Some in Hget as [Hq _].
    by rewrite (Htruthy q Hq).
Qed.

Lemma sample_tree_kept : guids_kept (top Samples.tool_node).
Proof.
  change (top Samples.tool_node)
    with (add_subsolution
            (add_subsolution (new_solution "root" "{S-root}") Samples.tool_sln)
            Samples.libs_sln).
  repeat first [apply guids_kept_add_subsolution | apply guids_kept_add_project
               | apply guids_kept_new].
Qed.

Lemma operations_keep_guids_witness :
  guids_kept (new_solution "libs" "{S-libs}") ∧
  guids_kept (add_project (new_solution "libs" "{S-libs}") Samples.b) ∧
  guids_kept (add_subsolution (new_solution "root" "{S-root}")
                (add_project (new_solution "libs" "{S-libs}") Samples.b)).
Proof.
  pose proof (operations_keep_guids (new_solution "libs" "{S-libs}")
                (new_solution "libs" "{S-libs}") Samples.b "libs" "{S-libs}")
    as (Hnew & Hadd & _).
  pose proof (operations_keep_guids (new_solution "root" "{S-root}")
                (add_project (new_solution "libs" "{S-libs}") Samples.b)
                Samples.b "root" "{S-root}") as (Hroot & _ & Hsub).
  split; [exact Hnew|]. split; [exact (Hadd Hnew)|].
  exact (Hsub Hroot (Hadd Hnew)).
Defined.

Lemma guid_of_target_is_project_guid_witness :
  guids_kept (top Samples.tool_node) ∧
  unique_names (top Samples.tool_node) ∧
  (∀ p, p ∈ all_projects (top Samples.tool_node) → truthy (prj_guid p) = true) ∧
  _get_target_guid Samples.tool_node "b" = Done "{G-b}" ∧
  _get_target_guid Samples.tool_node "nothing"
  = Raised (AssertionError ("can't find GUID of project '" +:+ "nothing" +:+ "'")).
Proof.
  assert (unique_names (top Samples.tool_node)) as Huniq.
  { unfold unique_names. apply (bool_decide_unpack _). vm_compute. exact I. }
  assert (∀ p, p ∈ all_projects (top Samples.tool_node) → truthy (prj_guid p) = true)
    as Htruthy.
  { apply Forall_forall. apply (bool_decide_unpack _). vm_compute. exact I. }
  split; [exact sample_tree_kept|]. split; [exact Huniq|]. split; [exact Htruthy|].
  split.
  - exact (guid_of_target_is_project_guid Samples.tool_node "b"
             sample_tree_kept Huniq Htruthy).
  - exact (guid_of_target_is_project_guid Samples.tool_node "nothing"
             sample_tree_kept Huniq Htruthy).
Defined.

(** *** Edges of [additional_deps] *)

Lemma visit_unresolved top items inc tn add x :
  x ∈ items → _get_project_info top x = None →
  visit top items inc tn add
  = Raised (BuiltinTypeError "'NoneType' object has no attribute '__getitem__'").
Proof.
  revert inc tn add. induction items as [|y items IH]; intros inc tn add Hx Hnone.
  - by apply elem_of_nil in Hx.
  - simpl. destruct (_get_project_info top y) as [prj|] eqn:Hy; [|done].
    apply elem_of_cons in Hx as [->|Hx]; [congruence|]. by apply IH.
Qed.

(** X17.  When every dependency of the projects of a solution is itself a
    project of that solution, [additional_deps] returns the empty list,
    whatever the rest of the tree holds. *)
Theorem additional_deps_all_local set_iter (n : node) :
  admissible set_iter →
  (∀ p m, p ∈ all_projects (self n) → m ∈ prj_deps p → m ∈ local_names (self n)) →
  additional_deps set_iter n = Done [].
Proof.
  intros Had Hlocal. destruct n as [[|f fs] s]; [reflexivity|].
  rewrite SolutionFacts.nested_eq. cbn zeta. simpl self in Hlocal.
  unfold passes_bound. rewrite SolutionFacts.closure_loop_S.
  case_bool_decide as Hsize; [done|].
  set (todo := fold_left (λ todo p, update todo (prj_deps p)) (all_projects s) []).
  assert (NoDup todo) as Hnd by apply SolutionFacts.NoDup_collect, NoDup_nil_2.
  assert (update [] (filter (λ x, x ∉ local_names s) (set_iter todo)) = []) as ->.
  { apply elem_of_nil_inv. intros x [Hx Hnin]%(SolutionFacts.elem_of_pending _ _ _ _ Had Hnd).
    apply Hnin. apply SolutionFacts.elem_of_collect in Hx as [Hx|(p & Hp & Hx)].
    - by apply elem_of_nil in Hx.
    - by apply (Hlocal p). }
  assert (set_iter [] = []) as Hempty.
  { apply Permutation_nil_r. apply (Had []), NoDup_nil_2. }
  rewrite Hempty. cbn [visit mbind outcome_bind fst snd]. rewrite Hempty.
  rewrite SolutionFacts.update_nil_nil, SolutionFacts.closure_loop_S.
  by rewrite bool_decide_eq_true_2.
Qed.

(** X18.  A solution that has a parent and a project with a dependency that
    names no project of the whole tree makes [additional_deps] fail on
    the missing project with the [TypeError] of subscripting [None]. *)
Theorem additional_deps_dangling set_iter (n : node) (p : prjinfo) (m : string) :
  admissible set_iter →
  is_Some (parent_solution n) →
  p ∈ all_projects (self n) →
  m ∈ prj_deps p →
  _get_project_info (top n) m = None →
  additional_deps set_iter n
  = Raised (BuiltinTypeError "'NoneType' object has no attribute '__getitem__'").
Proof.
  intros Had Hparent Hp Hm Hnone. destruct n as [[|f fs] s]; [by destruct Hparent|].
  rewrite SolutionFacts.nested_eq. cbn zeta. simpl self in Hp.
  set (n := mkNode (f :: fs) s) in *.
  assert (m ∉ local_names s) as Hnin.
  { intros (q & Hq & Hname)%SolutionFacts.elem_of_local_names.
    pose proof (SolutionFacts.all_projects_top n q Hq) as Hin.
    destruct (SolutionFacts._get_project_info_is_Some _ _ Hin) as [r Hr].
    rewrite Hname in Hr. congruence. }
  unfold passes_bound. rewrite SolutionFacts.closure_loop_S.
  rewrite bool_decide_eq_false_2.
  - set (todo := fold_left (λ todo p, update todo (prj_deps p)) (all_projects s) []).
    assert (NoDup todo) as Hnd by apply SolutionFacts.NoDup_collect, NoDup_nil_2.
    rewrite (visit_unresolved _ _ _ _ _ m); [done| |done].
    apply (SolutionFacts.admissible_elem_of _ _ _ Had (SolutionFacts.NoDup_pending _ _ _)).
    apply (SolutionFacts.elem_of_pending _ _ _ _ Had Hnd). split; [|done].
    apply SolutionFacts.elem_of_collect. right. by exists p.
  - intros Hsize. symmetry in Hsize. apply size_empty_inv in Hsize.
    assert (prj_name p ∈ local_names s) as Hin.
    { apply SolutionFacts.elem_of_local_names. by exists p. }
    set_solver.
Qed.

Lemma additional_deps_all_local_witness :
  admissible cpython27_order ∧
  (∀ p m, p ∈ all_projects (self MoreSamples.pair_node) → m ∈ prj_deps p →
          m ∈ local_names (self MoreSamples.pair_node)) ∧
  additional_deps cpython27_order MoreSamples.pair_node = Done [].
Proof.
  assert (∀ p m, p ∈ all_projects (self MoreSamples.pair_node) → m ∈ prj_deps p →
                 m ∈ local_names (self MoreSamples.pair_node)) as Hlocal.
  { intros p m Hp. revert m. apply Forall_forall. revert p Hp. apply Forall_forall.
    apply (bool_decide_unpack _). vm_compute. exact I. }
  split; [exact SolutionFacts.cpython27_order_admissible|]. split; [exact Hlocal|].
  exact (additional_deps_all_local cpython27_order MoreSamples.pair_node
           SolutionFacts.cpython27_order_admissible Hlocal).
Defined.

Lemma additional_deps_dangling_witness :
  admissible cpython27_order ∧
  is_Some (parent_solution MoreSamples.lost_node) ∧
  MoreSamples.lost ∈ all_projects (self MoreSamples.lost_node) ∧
  "ghost" ∈ prj_deps MoreSamples.lost ∧
  _get_project_info (top MoreSamples.lost_node) "ghost" = None ∧
  additional_deps cpython27_order MoreSamples.lost_node
  = Raised (BuiltinTypeError "'NoneType' object has no attribute '__getitem__'").
Proof.
  assert (is_Some (parent_solution MoreSamples.lost_node)) as Hparent by (by eexists).
  assert (MoreSamples.lost ∈ all_projects (self MoreSamples.lost_node)) as Hp by left.
  assert ("ghost" ∈ prj_deps MoreSamples.lost) as Hm by left.
  split; [exact SolutionFacts.cpython27_order_admissible|]. split; [exact Hparent|].
  split; [exact Hp|]. split; [exact Hm|]. split; [reflexivity|].
  exact (additional_deps_dangling cpython27_order MoreSamples.lost_node MoreSamples.lost
           "ghost" SolutionFacts.cpython27_order_admissible Hparent Hp Hm eq_refl).
Defined.

End SolutionMore.

(** ** The lines of a solution file *)

Module CommitMore.

Import Solution Closure Groupings Lines.

Lemma flat_map_nil {A B} (f : A → list B) (l : list A) :
  (∀ x, f x = []) → flat_map f l = [].
Proof. intros Hf. induction l as [|x l IH]; [done|]. simpl. by rewrite Hf, IH. Qed.

Lemma flat_map_flat_map {A B C} (f : A → list B) (g : B → list C) (l : list A) :
  flat_map g (flat_map f l) = flat_map (λ x, flat_map g (f x)) l.
Proof.
  induction l as [|x l IH]; [done|]. simpl. by rewrite flat_map_app, IH.
Qed.

Lemma dependency_lines_entries (gs : list string) :
  dependency_lines (map DependencyEntry gs) = gs.
Proof. induction gs as [|g gs IH]; [done|]. simpl. by f_equal. Qed.

Lemma concat_text_app (l1 l2 : list string) :
  String.concat "" (l1 ++ l2) = String.concat "" l1 +:+ String.concat "" l2.
Proof.
  induction l1 as [|x l1 IH]; [reflexivity|].
  destruct l1 as [|y l1].
  - destruct l2 as [|z l2]; [by rewrite XmlFacts.append_empty_r|reflexivity].
  - change (String.concat "" ((x :: y :: l1) ++ l2))
      with (x +:+ String.concat "" ((y :: l1) ++ l2)).
    change (String.concat "" (x :: y :: l1)) with (x +:+ String.concat "" (y :: l1)).
    by rewrite IH, XmlFacts.append_assoc.
Qed.

Lemma flat_map_map {A B C} (f : A → B) (g : B → list C) (l : list A) :
  flat_map g (map f l) = flat_map (λ x, g (f x)) l.
Proof. induction l as [|x l IH]; [done|]. simpl. by rewrite IH. Qed.

Lemma flat_map_singleton {A B} (f : A → B) (l : list A) :
  flat_map (λ x, [f x]) l = f <$> l.
Proof. induction l as [|x l IH]; [done|]. simpl. by rewrite IH. Qed.

(** Of the entries after the projects, only those of the groupings and of
    the configurations are not plain text. *)
Lemma tail_select {B} (sel : entry → list B) folders guids :
  (∀ s, sel (Raw s) = []) →
  flat_map sel (tail_entries folders guids)
  = flat_map (λ sln, flat_map sel (folder_entries sln)) folders
    ++ flat_map (λ g, flat_map sel (config_entries g)) guids
    ++ flat_map (λ sln, flat_map sel (nested_entries sln)) folders.
Proof.
  intros Hraw. unfold tail_entries.
  rewrite !flat_map_app, !flat_map_flat_map. cbn [flat_map]. rewrite !Hraw. cbn [app].
  rewrite app_nil_r. do 2 f_equal.
  destruct folders as [|sln folders]; [done|].
  change (flat_map sel (Raw ?s :: ?l)) with (sel (Raw s) ++ flat_map sel l).
  rewrite Hraw, flat_map_app, flat_map_flat_map. cbn [flat_map app]. rewrite Hraw.
  by rewrite app_nil_r.
Qed.

Lemma Forall2_elem_l {A B} (R : A → B → Prop) l l' x :
  Forall2 R l l' → x ∈ l → ∃ y, y ∈ l' ∧ R x y.
Proof.
  induction 1 as [|a b l l' Hab _ IH]; intros Hx; [by apply elem_of_nil in Hx|].
  apply elem_of_cons in Hx as [->|Hx].
  - exists b. split; [left|done].
  - destruct (IH Hx) as (y & Hy & HR). exists y. split; [by right|done].
Qed.

Section WithFormats.

Variable set_iter : list string → list string.
Variable format_version human_version : string.
Variable format_path : Expr → res string.
Variable GUID : string → string → string → string.
Variable NAMESPACE_INTERNAL : string.

Abbreviation commit := (commit set_iter format_path GUID NAMESPACE_INTERNAL).
Abbreviation all_folders := (all_folders GUID NAMESPACE_INTERNAL).
Abbreviation new_file := (new_file format_version human_version).
Abbreviation project_entries := (project_entries format_path).
Abbreviation extras := (extras GUID NAMESPACE_INTERNAL).

(** What the entries of one project are. *)
Lemma project_entries_Done (n : node) (p : prjinfo) es :
  project_entries n p = Done es →
  ∃ file gs,
    format_path (prj_projectfile p) = Done file ∧
    for_each (_get_target_guid n) (prj_deps p) = Done gs ∧
    project_lines es = [(prj_name p, file, prj_guid p)] ∧
    dependency_lines es = gs ∧
    config_lines es = [] ∧ nested_lines es = [].
Proof.
  unfold Solution.project_entries.
  intros (file & Hfile & (deps & Hdeps & [= <-])%bind_Done)%bind_Done.
  exists file. destruct (prj_deps p) as [|d ds].
  - injection Hdeps as <-. exists []. repeat split; done.
  - apply bind_Done in Hdeps as (gs & Hgs & [= <-]). exists gs.
    split; [done|]. split; [done|].
    assert (∀ gs', project_lines (map DependencyEntry gs') = []
                   ∧ config_lines (map DependencyEntry gs') = []
                   ∧ nested_lines (map DependencyEntry gs') = []) as Hnone.
    { intros gs'. induction gs' as [|g gs' IH]; [done|]. simpl. exact IH. }
    destruct (Hnone gs) as (Hp & Hc & Hn).
    unfold project_lines, dependency_lines, config_lines, nested_lines in *.
    cbn [flat_map app]. rewrite !flat_map_app. cbn [flat_map app].
    fold (dependency_lines (map DependencyEntry gs)).
    rewrite Hp, Hc, Hn, dependency_lines_entries, !app_nil_r. done.
Qed.

(** The shape of what [commit] has written. *)
Lemma commit_shape (n : node) (f f' : OutputFile) :
  commit n f = Done f' →
  ∃ add pes,
    additional_deps set_iter n = Done add ∧
    for_each (project_entries n) (all_projects (self n) ++ add) = Done pes ∧
    written f' = written f ++ concat pes
                 ++ match all_projects (self n) ++ add with
                    | [] => []
                    | _ => tail_entries (all_folders n add)
                             (prj_guid <$> (all_projects (self n) ++ add))
                    end ∧
    committed f' = match all_projects (self n) ++ add with
                   | [] => committed f
                   | _ => true
                   end.
Proof.
  unfold Solution.commit.
  intros (add & Hadd & (pes & Hpes & Hf')%bind_Done)%bind_Done.
  exists add, pes. split; [done|]. split; [done|].
  destruct (all_projects (self n) ++ add) as [|p prjs]; simpl in Hf'; injection Hf' as <-.
  - simpl. by rewrite app_nil_r.
  - simpl. by rewrite <- app_assoc.
Qed.

Lemma project_part_lines (n : node) prjs pes :
  for_each (project_entries n) prjs = Done pes →
  ∃ files gss,
    Forall2 (λ p file, format_path (prj_projectfile p) = Done file) prjs files ∧
    Forall2 (λ p gs, for_each (_get_target_guid n) (prj_deps p) = Done gs) prjs gss ∧
    project_lines (concat pes)
    = zip_with (λ p file, (prj_name p, file, prj_guid p)) prjs files ∧
    dependency_lines (concat pes) = concat gss ∧
    config_lines (concat pes) = [] ∧ nested_lines (concat pes) = [].
Proof.
  intros Hall%SolutionFacts.for_each_Done.
  induction Hall as [|p es prjs pes Hp _ (files & gss & Hf & Hg & Hpl & Hdl & Hcl & Hnl)].
  - exists [], []. repeat split; constructor.
  - apply project_entries_Done in Hp as (file & gs & Hfile & Hgs & Hp1 & Hp2 & Hp3 & Hp4).
    exists (file :: files), (gs :: gss).
    split; [by constructor|]. split; [by constructor|].
    unfold project_lines, dependency_lines, config_lines, nested_lines in *.
    cbn [concat zip_with]. rewrite !flat_map_app.
    rewrite Hp1, Hp2, Hp3, Hp4, Hpl, Hdl, Hcl, Hnl. done.
Qed.

Lemma tail_lines folders guids :
  project_lines (tail_entries folders guids) = [] ∧
  dependency_lines (tail_entries folders guids) = [] ∧
  config_lines (tail_entries folders guids)
  = flat_map (λ g, [ (g, ".Debug|Win32.ActiveCfg = Debug|Win32");
                     (g, ".Debug|Win32.Build.0 = Debug|Win32");
                     (g, ".Release|Win32.ActiveCfg = Release|Win32");
                     (g, ".Release|Win32.Build.0 = Release|Win32") ]) guids ∧
  nested_lines (tail_entries folders guids)
  = flat_map (λ sln,
               ((λ prj, (prj_guid prj, parentguid sln)) <$> fld_projects sln)
               ++ ((λ subsln, (sln_guid subsln, fld_guid sln)) <$> fld_subsolutions sln))
             folders.
Proof.
  unfold project_lines, dependency_lines, config_lines, nested_lines.
  rewrite !tail_select by done. repeat split.
  - rewrite !flat_map_nil; [done| | |].
    + intros sln. unfold nested_entries. rewrite flat_map_app, !flat_map_map.
      by rewrite !flat_map_nil.
    + done.
    + intros sln. unfold folder_entries. by destruct (omit_from_tree sln).
  - rewrite !flat_map_nil; [done| | |].
    + intros sln. unfold nested_entries. rewrite flat_map_app, !flat_map_map.
      by rewrite !flat_map_nil.
    + done.
    + intros sln. unfold folder_entries. by destruct (omit_from_tree sln).
  - rewrite (flat_map_nil (λ sln, flat_map _ (folder_entries sln))).
    2:{ intros sln. unfold folder_entries. by destruct (omit_from_tree sln). }
    rewrite (flat_map_nil (λ sln, flat_map _ (nested_entries sln))).
    2:{ intros sln. unfold nested_entries. rewrite flat_map_app, !flat_map_map.
        by rewrite !flat_map_nil. }
    by rewrite app_nil_r.
  - rewrite (flat_map_nil (λ sln, flat_map _ (folder_entries sln))).
    2:{ intros sln. unfold folder_entries. by destruct (omit_from_tree sln). }
    rewrite (flat_map_nil (λ g, flat_map _ (config_entries g))) by done.
    cbn [app]. apply flat_map_ext. intros sln.
    unfold nested_entries. rewrite flat_map_app, !flat_map_map.
    by rewrite !flat_map_singleton.
Qed.

(** The lines [commit] adds, kind by kind. *)
Lemma commit_lines (n : node) (f f' : OutputFile) add :
  additional_deps set_iter n = Done add →
  commit n f = Done f' →
  ∃ files gss,
    Forall2 (λ p file, format_path (prj_projectfile p) = Done file)
            (all_projects (self n) ++ add) files ∧
    Forall2 (λ p gs, for_each (_get_target_guid n) (prj_deps p) = Done gs)
            (all_projects (self n) ++ add) gss ∧
    project_lines (written f')
    = project_lines (written f)
      ++ zip_with (λ p file, (prj_name p, file, prj_guid p))
                  (all_projects (self n) ++ add) files ∧
    dependency_lines (written f') = dependency_lines (written f) ++ concat gss ∧
    config_lines (written f')
    = config_lines (written f)
      ++ flat_map (λ g, [ (g, ".Debug|Win32.ActiveCfg = Debug|Win32");
                          (g, ".Debug|Win32.Build.0 = Debug|Win32");
                          (g, ".Release|Win32.ActiveCfg = Release|Win32");
                          (g, ".Release|Win32.Build.0 = Release|Win32") ])
                  (prj_guid <$> (all_projects (self n) ++ add)) ∧
    nested_lines (written f')
    = nested_lines (written f)
      ++ match all_projects (self n) ++ add with
         | [] => []
         | _ =>
             flat_map (λ sln,
                        ((λ prj, (prj_guid prj, parentguid sln)) <$> fld_projects sln)
                        ++ ((λ subsln, (sln_guid subsln, fld_guid sln))
                              <$> fld_subsolutions sln))
                      (all_folders n add)
         end.
Proof.
  intros Hadd (add' & pes & Hadd' & Hpes & Hw & _)%commit_shape.
  rewrite Hadd in Hadd'. injection Hadd' as <-.
  destruct (project_part_lines _ _ _ Hpes) as (files & gss & Hf & Hg & Hp & Hd & Hc & Hn).
  exists files, gss. split; [done|]. split; [done|]. rewrite Hw.
  destruct (tail_lines (all_folders n add) (prj_guid <$> (all_projects (self n) ++ add)))
    as (Tp & Td & Tc & Tn).
  unfold project_lines, dependency_lines, config_lines, nested_lines in *.
  rewrite !flat_map_app, Hp, Hd, Hc, Hn.
  destruct (all_projects (self n) ++ add) as [|p prjs] eqn:Hprjs.
  - destruct files; [|by apply Forall2_nil_cons_inv in Hf].
    destruct gss; [|by apply Forall2_nil_cons_inv in Hg].
    simpl. by rewrite !app_nil_r.
  - rewrite Tp, Td, Tc, Tn. simpl. by rewrite !app_nil_r.
Qed.

(** X19.  The project entries of a solution file, in the order of the
    file, are those of the projects of the solution and of the solutions
    nested in it, followed by the additional dependencies: each with its
    name, its formatted file name and its GUID.  The four configuration
    lines of each project follow the same order. *)
Theorem commit_project_lines (n : node) (f f' : OutputFile) add :
  additional_deps set_iter n = Done add →
  commit n f = Done f' →
  ∃ files,
    Forall2 (λ p file, format_path (prj_projectfile p) = Done file)
            (all_projects (self n) ++ add) files ∧
    project_lines (written f')
    = project_lines (written f)
      ++ zip_with (λ p file, (prj_name p, file, prj_guid p))
                  (all_projects (self n) ++ add) files ∧
    config_lines (written f')
    = config_lines (written f)
      ++ flat_map (λ g, [ (g, ".Debug|Win32.ActiveCfg = Debug|Win32");
                          (g, ".Debug|Win32.Build.0 = Debug|Win32");
                          (g, ".Release|Win32.ActiveCfg = Release|Win32");
                          (g, ".Release|Win32.Build.0 = Release|Win32") ])
                  (prj_guid <$> (all_projects (self n) ++ add)).
Proof.
  intros Hadd Hcommit.
  destruct (commit_lines n f f' add Hadd Hcommit) as (files & _ & Hf & _ & Hp & _ & Hc & _).
  by exists files.
Qed.

(** X20.  The dependency lines of a solution file are, project by project
    in the order of the project entries, the GUIDs that [_get_target_guid]
    gives for the dependencies of the project, in the order the project
    lists them. *)
Theorem commit_dependency_lines (n : node) (f f' : OutputFile) add :
  additional_deps set_iter n = Done add →
  commit n f = Done f' →
  ∃ gss,
    Forall2 (λ p gs, Forall2 (λ d g, _get_target_guid n d = Done g) (prj_deps p) gs)
            (all_projects (self n) ++ add) gss ∧
    dependency_lines (written f') = dependency_lines (written f) ++ concat gss.
Proof.
  intros Hadd Hcommit.
  destruct (commit_lines n f f' add Hadd Hcommit) as (_ & gss & _ & Hg & _ & Hd & _).
  exists gss. split; [|done].
  eapply Forall2_impl; [exact Hg|]. intros p gs Hgs. by apply SolutionFacts.for_each_Done.
Qed.

(** X21.  When the solution has a project, the nesting lines of its file
    go grouping by grouping, the nested solutions first and the
    [Additional Dependencies] grouping last: the projects of a grouping
    under the GUID of the grouping, or under the GUID of its parent when
    the grouping is left out of the tree, and then the solutions nested in
    the grouping, always under the GUID of the grouping itself. *)
Theorem commit_nested_lines (n : node) (f f' : OutputFile) add :
  additional_deps set_iter n = Done add →
  all_projects (self n) ++ add ≠ [] →
  commit n f = Done f' →
  nested_lines (written f')
  = nested_lines (written f)
    ++ flat_map (λ sln,
                  ((λ prj, (prj_guid prj, parentguid sln)) <$> fld_projects sln)
                  ++ ((λ subsln, (sln_guid subsln, fld_guid sln)) <$> fld_subsolutions sln))
                (all_folders n add).
Proof.
  intros Hadd Hne Hcommit.
  destruct (commit_lines n f f' add Hadd Hcommit) as (_ & _ & _ & _ & _ & _ & _ & Hn).
  rewrite Hn. by destruct (all_projects (self n) ++ add).
Qed.

(** X22.  The file of a solution that has a project is produced, and its
    text starts with the byte order mark, an empty line and the two header
    lines with the format version and the version of Visual Studio. *)
Theorem commit_artifact_header (n : node) (f' : OutputFile) :
  all_projects (self n) ≠ [] →
  commit n new_file = Done f' →
  ∃ rest,
    artifact f'
    = Some (String "239" (String "187" (String "191" "")) +:+ nl
            +:+ ("Microsoft Visual Studio Solution File, Format Version "
                 +:+ format_version +:+ nl)
            +:+ ("# Visual Studio " +:+ human_version +:+ nl)
            +:+ rest).
Proof.
  intros Hne (add & pes & _ & _ & Hw & Hc)%commit_shape.
  destruct (all_projects (self n) ++ add) as [|p prjs] eqn:Hprjs.
  { apply app_eq_nil in Hprjs as [? _]. done. }
  unfold artifact. rewrite Hc, Hw, map_app, concat_text_app.
  eexists. f_equal.
  change (String.concat "" (map render (written new_file)))
    with (String "239" (String "187" (String "191" "")) +:+ nl
          +:+ ("Microsoft Visual Studio Solution File, Format Version "
               +:+ format_version +:+ nl)
          +:+ ("# Visual Studio " +:+ human_version +:+ nl)).
  rewrite !(XmlFacts.append_assoc (String "239" _)).
  rewrite (XmlFacts.append_assoc nl).
  rewrite (XmlFacts.append_assoc ("Microsoft Visual Studio Solution File, Format Version "
                                  +:+ format_version +:+ nl)).
  reflexivity.
Qed.

(** X23.  No solution file comes out of [commit] when a project of the
    solution names a dependency that has no GUID, neither in the map of
    the solution nor anywhere under the top-level solution. *)
Theorem commit_needs_every_guid (n : node) (p : prjinfo) (d : string) :
  p ∈ all_projects (self n) →
  d ∈ prj_deps p →
  guids_map (self n) !! d = None →
  _find_target_guid_recursively (top n) d = None →
  ∀ f f', commit n f ≠ Done f'.
Proof.
  intros Hp Hd Hmap Hrec f f' (add & pes & _ & Hpes & _)%commit_shape.
  apply SolutionFacts.for_each_Done in Hpes.
  destruct (Forall2_elem_l _ _ _ p Hpes) as (es & _ & Hes).
  { apply elem_of_app. by left. }
  apply project_entries_Done in Hes as (_ & gs & _ & Hgs & _).
  apply SolutionFacts.for_each_Done in Hgs.
  destruct (Forall2_elem_l _ _ _ d Hgs Hd) as (g & _ & Hg).
  unfold _get_target_guid in Hg. by rewrite Hmap, Hrec in Hg.
Qed.

Lemma parentguid_folded (sln : folder) :
  parentguid sln
  = if decide (folded sln) then from_option sln_guid (fld_guid sln) (fld_parent sln)
    else fld_guid sln.
Proof.
  unfold parentguid. destruct (fld_parent sln) as [parent|] eqn:Hparent.
  - destruct (omit_from_tree sln) eqn:Homit.
    + apply SolutionFacts.omit_from_tree_folded in Homit.
      by rewrite decide_True.
    + rewrite decide_False; [done|].
      intros Hf%SolutionFacts.omit_from_tree_folded. congruence.
  - rewrite decide_False; [done|]. intros [[? Hsome] _]. congruence.
Qed.

(** C2, as the code has it.  When [commit] writes the file of a solution
    that has a project: the groupings with an entry of their own are, in
    order, those among the nested solutions and the [Additional
    Dependencies] grouping that are not folded away, a grouping being
    folded away when it has a parent and holds one item or none.  The
    nesting lines of the file are exactly these, grouping by grouping:
    each project of the grouping under the GUID of the parent of the
    grouping when the grouping is folded away and under the GUID of the
    grouping itself when it is not, then each solution nested in the
    grouping under the GUID of the grouping; so a project of a folded
    grouping has the line under the parent's GUID in place of the line
    under the grouping's.  The [Additional Dependencies] grouping, which
    has no parent, is never folded away: whenever the closure gives a
    project it has its entry, and those projects are nested under its own
    GUID. *)
Theorem commit_fold_rule (n : node) (f' : OutputFile) add :
  additional_deps set_iter n = Done add →
  all_projects (self n) ++ add ≠ [] →
  commit n new_file = Done f' →
  committed f' = true ∧
  folder_lines (written f')
  = (λ sln, (fld_name sln, fld_guid sln)) <$> filter (λ sln, ¬ folded sln) (all_folders n add) ∧
  nested_lines (written f')
  = flat_map (λ sln,
               ((λ prj, (prj_guid prj,
                         if decide (folded sln)
                         then from_option sln_guid (fld_guid sln) (fld_parent sln)
                         else fld_guid sln)) <$> fld_projects sln)
               ++ ((λ subsln, (sln_guid subsln, fld_guid sln)) <$> fld_subsolutions sln))
             (all_folders n add) ∧
  (∀ parent sln prj,
     (parent, sln) ∈ all_subsolutions (self n) →
     length (projects sln) + length (subsolutions sln) ≤ 1 →
     prj ∈ projects sln →
     folded (folder_of (parent, sln)) ∧
     NestedEntry (prj_guid prj) (sln_guid parent) ∈ written f') ∧
  (add ≠ [] →
     extras n add ∈ all_folders n add ∧
     ¬ folded (extras n add) ∧
     FolderEntry (fld_name (extras n add)) (fld_guid (extras n add)) ∈ written f' ∧
     ∀ prj, prj ∈ add → NestedEntry (prj_guid prj) (fld_guid (extras n add)) ∈ written f').
Proof.
  intros Hadd Hne Hcommit.
  destruct (SolutionFacts.commit_written _ _ _ _ n _ _ _ Hadd Hne Hcommit)
    as (Hc & pes & Hpes & Hw).
  split; [done|]. split; [|split; [|split]].
  - rewrite Hw, !SolutionFacts.folder_lines_app,
      (SolutionFacts.projects_no_folder _ _ _ _ Hpes),
      (SolutionFacts.folder_lines_tail NAMESPACE_INTERNAL GUID).
    done.
  - destruct (commit_lines n _ f' add Hadd Hcommit) as (_ & _ & _ & _ & _ & _ & _ & Hn).
    rewrite Hn. destruct (all_projects (self n) ++ add) as [|p prjs]; [done|].
    change (nested_lines (written new_file)) with (@nil (string * string)).
    cbn [app]. apply flat_map_ext. intros sln. by rewrite parentguid_folded.
  - intros parent sln prj Hsln Hitems Hprj.
    assert (folded (folder_of (parent, sln))) as Hfolded by (split; [by eexists|done]).
    split; [done|]. rewrite Hw. apply elem_of_app. right.
    apply (SolutionFacts.nested_in_tail _ _ (folder_of (parent, sln))).
    { apply elem_of_app. left. by apply (list_elem_of_fmap_2 folder_of). }
    unfold nested_entries. apply elem_of_app. left.
    apply SolutionFacts.omit_from_tree_folded in Hfolded. unfold parentguid.
    simpl fld_parent. rewrite Hfolded.
    by apply (list_elem_of_fmap_2 (λ prj, NestedEntry (prj_guid prj) (sln_guid parent))).
  - intros Hadd_ne.
    assert (extras n add ∈ all_folders n add) as Hin.
    { unfold Solution.all_folders. apply elem_of_app. right.
      destruct add; [done|left]. }
    assert (¬ folded (extras n add)) as Hnf by (by intros [[? [=]] _]).
    split; [done|]. split; [done|]. split.
    + rewrite Hw. apply elem_of_app. right. by apply SolutionFacts.folder_in_tail.
    + intros prj Hprj. rewrite Hw. apply elem_of_app. right.
      apply (SolutionFacts.nested_in_tail _ _ (extras n add)); [done|].
      unfold nested_entries. apply elem_of_app. left.
      by apply (list_elem_of_fmap_2 (λ prj, NestedEntry (prj_guid prj) _)).
Qed.

End WithFormats.

Lemma commit_fold_rule_witness :
  (∃ f',
     additional_deps cpython27_order Samples.root_node = Done [] ∧
     all_projects (self Samples.root_node) ++ [] ≠ [] ∧
     Samples.sample_commit Samples.root_node = Done f' ∧
     committed f' = true ∧
     folder_lines (written f') = [("libs", "{S-libs}")] ∧
     nested_lines (written f')
     = [("{G-tool}", "{S-root}"); ("{G-b}", "{S-libs}"); ("{G-c}", "{S-libs}")] ∧
     (self Samples.root_node, Samples.tool_sln) ∈ all_subsolutions (self Samples.root_node) ∧
     folded (folder_of (self Samples.root_node, Samples.tool_sln)) ∧
     NestedEntry "{G-tool}" "{S-root}" ∈ written f') ∧
  (∃ f',
     additional_deps cpython27_order Samples.tool_node = Done [Samples.b] ∧
     all_projects (self Samples.tool_node) ++ [Samples.b] ≠ [] ∧
     Samples.sample_commit Samples.tool_node = Done f' ∧
     folder_lines (written f')
     = [("Additional Dependencies", "{internal/tool/Additional Dependencies}")] ∧
     nested_lines (written f')
     = [("{G-b}", "{internal/tool/Additional Dependencies}")] ∧
     NestedEntry "{G-b}" "{internal/tool/Additional Dependencies}" ∈ written f').
Proof.
  split.
  - eexists.
    assert (additional_deps cpython27_order Samples.root_node = Done []) as Hadd
      by reflexivity.
    assert (all_projects (self Samples.root_node) ++ [] ≠ []) as Hne by discriminate.
    split; [exact Hadd|]. split; [exact Hne|].
    split; [vm_compute; reflexivity|].
    destruct (commit_fold_rule cpython27_order "11.00" "2010" Samples.sample_format
                Samples.sample_GUID "internal" Samples.root_node _ [] Hadd Hne eq_refl)
      as (Hc & Hlines & Hnl & Hnested & _).
    assert ((self Samples.root_node, Samples.tool_sln)
            ∈ all_subsolutions (self Samples.root_node)) as Hin by left.
    destruct (Hnested (self Samples.root_node) Samples.tool_sln Samples.tool Hin)
      as [Hfolded Hentry]; [simpl; lia|left|].
    split; [exact Hc|]. split; [exact Hlines|]. split; [exact Hnl|].
    split; [exact Hin|]. split; [exact Hfolded|exact Hentry].
  - eexists.
    assert (additional_deps cpython27_order Samples.tool_node = Done [Samples.b]) as Hadd
      by (vm_compute; reflexivity).
    assert (all_projects (self Samples.tool_node) ++ [Samples.b] ≠ []) as Hne
      by discriminate.
    split; [exact Hadd|]. split; [exact Hne|].
    split; [vm_compute; reflexivity|].
    destruct (commit_fold_rule cpython27_order "11.00" "2010" Samples.sample_format
                Samples.sample_GUID "internal" Samples.tool_node _ [Samples.b] Hadd Hne eq_refl)
      as (_ & Hlines & Hnl & _ & Hextras).
    destruct Hextras as (_ & _ & _ & Hnested); [discriminate|].
    split; [exact Hlines|]. split; [exact Hnl|]. apply (Hnested Samples.b). left.
Defined.

Lemma commit_project_lines_witness :
  ∃ f',
    Samples.sample_commit Samples.tool_node = Done f' ∧
    ∃ files,
      Forall2 (λ p file, Samples.sample_format (prj_projectfile p) = Done file)
              (all_projects (self Samples.tool_node) ++ [Samples.b]) files ∧
      project_lines (written f')
      = project_lines (written (new_file "11.00" "2010"))
        ++ zip_with (λ p file, (prj_name p, file, prj_guid p))
                    (all_projects (self Samples.tool_node) ++ [Samples.b]) files ∧
      config_lines (written f')
      = config_lines (written (new_file "11.00" "2010"))
        ++ flat_map (λ g, [ (g, ".Debug|Win32.ActiveCfg = Debug|Win32");
                            (g, ".Debug|Win32.Build.0 = Debug|Win32");
                            (g, ".Release|Win32.ActiveCfg = Release|Win32");
                            (g, ".Release|Win32.Build.0 = Release|Win32") ])
                    (prj_guid <$> (all_projects (self Samples.tool_node) ++ [Samples.b])).
Proof.
  eexists. split; [vm_compute; reflexivity|].
  apply (commit_project_lines cpython27_order Samples.sample_format Samples.sample_GUID
           "internal" Samples.tool_node (new_file "11.00" "2010") _ [Samples.b]).
  - vm_compute; reflexivity.
  - vm_compute; reflexivity.
Defined.

Lemma commit_dependency_lines_witness :
  ∃ f',
    Samples.sample_commit Samples.tool_node = Done f' ∧
    ∃ gss,
      Forall2 (λ p gs, Forall2 (λ d g, _get_target_guid Samples.tool_node d = Done g)
                               (prj_deps p) gs)
              (all_projects (self Samples.tool_node) ++ [Samples.b]) gss ∧
      dependency_lines (written f')
      = dependency_lines (written (new_file "11.00" "2010")) ++ concat gss.
Proof.
  eexists. split; [vm_compute; reflexivity|].
  apply (commit_dependency_lines cpython27_order Samples.sample_format Samples.sample_GUID
           "internal" Samples.tool_node (new_file "11.00" "2010") _ [Samples.b]).
  - vm_compute; reflexivity.
  - vm_compute; reflexivity.
Defined.

Lemma commit_nested_lines_witness :
  ∃ f',
    additional_deps cpython27_order Samples.root_node = Done [] ∧
    all_projects (self Samples.root_node) ++ [] ≠ [] ∧
    Samples.sample_commit Samples.root_node = Done f' ∧
    nested_lines (written f')
    = [("{G-tool}", "{S-root}"); ("{G-b}", "{S-libs}"); ("{G-c}", "{S-libs}")].
Proof.
  eexists.
  assert (additional_deps cpython27_order Samples.root_node = Done []) as Hadd
    by reflexivity.
  assert (all_projects (self Samples.root_node) ++ [] ≠ []) as Hne by discriminate.
  split; [exact Hadd|]. split; [exact Hne|].
  split; [vm_compute; reflexivity|].
  exact (commit_nested_lines cpython27_order Samples.sample_format Samples.sample_GUID
           "internal" Samples.root_node (new_file "11.00" "2010") _ [] Hadd Hne eq_refl).
Defined.

Lemma commit_artifact_header_witness :
  all_projects (self MoreSamples.single_node) ≠ [] ∧
  ∃ f',
    Samples.sample_commit MoreSamples.single_node = Done f' ∧
    ∃ rest,
      artifact f'
      = Some (String "239" (String "187" (String "191" "")) +:+ nl
              +:+ ("Microsoft Visual Studio Solution File, Format Version "
                   +:+ "11.00" +:+ nl)
              +:+ ("# Visual Studio " +:+ "2010" +:+ nl)
              +:+ rest).
Proof.
  assert (all_projects (self MoreSamples.single_node) ≠ []) as Hne by discriminate.
  split; [exact Hne|].
  eexists. split; [vm_compute; reflexivity|].
  exact (commit_artifact_header cpython27_order "11.00" "2010" Samples.sample_format
           Samples.sample_GUID "internal" MoreSamples.single_node _ Hne eq_refl).
Defined.

Lemma commit_needs_every_guid_witness :
  MoreSamples.lost ∈ all_projects (self MoreSamples.lost_top) ∧
  "ghost" ∈ prj_deps MoreSamples.lost ∧
  guids_map (self MoreSamples.lost_top) !! "ghost" = None ∧
  _find_target_guid_recursively (top MoreSamples.lost_top) "ghost" = None ∧
  ∀ f', Samples.sample_commit MoreSamples.lost_top ≠ Done f'.
Proof.
  assert (MoreSamples.lost ∈ all_projects (self MoreSamples.lost_top)) as Hp by left.
  assert ("ghost" ∈ prj_deps MoreSamples.lost) as Hd by left.
  assert (guids_map (self MoreSamples.lost_top) !! "ghost" = None) as Hm
    by (vm_compute; reflexivity).
  assert (_find_target_guid_recursively (top MoreSamples.lost_top) "ghost" = None) as Hr
    by (vm_compute; reflexivity).
  split; [exact Hp|]. split; [exact Hd|]. split; [exact Hm|]. split; [exact Hr|].
  exact (commit_needs_every_guid cpython27_order Samples.sample_format Samples.sample_GUID
           "internal" MoreSamples.lost_top MoreSamples.lost "ghost" Hp Hd Hm Hr
           (new_file "11.00" "2010")).
Defined.

End CommitMore.

(** ** The solution a module gets *)

Module ToolsetMore.

Import Solution Toolset Generation Lines.

Lemma fold_add_project_projects (l : list prjinfo) (s : Solution) :
  projects (fold_left add_project l s) = projects s ++ l ∧
  subsolutions (fold_left add_project l s) = subsolutions s ∧
  sln_name (fold_left add_project l s) = sln_name s ∧
  sln_guid (fold_left add_project l s) = sln_guid s.
Proof.
  revert s. induction l as [|p l IH]; intros s; simpl.
  - by rewrite app_nil_r.
  - destruct (IH (add_project s p)) as (-> & -> & -> & ->). simpl.
    by rewrite <- app_assoc.
Qed.

Lemma fold_add_project_kept (l : list prjinfo) (s : Solution) :
  guids_kept s → guids_kept (fold_left add_project l s).
Proof.
  revert s. induction l as [|p l IH]; intros s Hs; [done|].
  simpl. apply IH. by apply SolutionMore.guids_kept_add_project.
Qed.

Section WithToolset.

Variable toolset_version : Z.
Variable proj_versions : list Z.
Variable gen_for_target : Target -> option VSProject.
Variable vs_project : Target -> fallback.
Variable str_of_expr : Expr -> string.

Abbreviation gen_target := (gen_target toolset_version proj_versions gen_for_target vs_project str_of_expr).
Abbreviation gen_targets := (gen_targets toolset_version proj_versions gen_for_target vs_project str_of_expr).
Abbreviation gen_for_module := (gen_for_module toolset_version proj_versions gen_for_target vs_project str_of_expr).
Abbreviation check_and_add := (check_and_add toolset_version proj_versions str_of_expr).
Abbreviation project_for := (project_for gen_for_target vs_project).
Abbreviation accepted := (accepted proj_versions gen_for_target vs_project).
Abbreviation warnings_for := (warnings_for toolset_version proj_versions gen_for_target vs_project str_of_expr).
Abbreviation generated := (generated gen_for_target vs_project).

Lemma project_for_None t :
  project_for t = None → gen_for_target t = None ∧ vs_project t = NotImplemented.
Proof.
  unfold Toolset.project_for. destruct (gen_for_target t); [done|].
  by destruct (vs_project t).
Qed.

(** One turn of the loop. *)
Lemma gen_target_Done st t st' :
  gen_target st t = Done st' ↔
  accepted t ∧
  st' = mkGen (fold_left add_project (generated [t]) (solution st))
              (warnings st ++ warnings_for t).
Proof.
  unfold Generation.accepted, Generation.warnings_for, Generation.generated.
  cbn [omap list_omap]. fold project_for.
  destruct (project_for t) as [prj|] eqn:Hprj.
  - rewrite (ToolsetFacts.gen_target_project _ _ _ _ _ _ _ _ Hprj).
    unfold Toolset.check_and_add. simpl.
    case_bool_decide as Hname; simpl.
    2:{ split; [done|]. intros [Hacc _]. by destruct (Hacc prj eq_refl). }
    case_bool_decide as Hver; simpl.
    { rewrite app_nil_r. split.
      - intros [= <-]. split; [|by destruct st]. intros ? [= <-]. split; [done|by left].
      - intros [_ ->]. by destruct st. }
    unfold newest. destruct (last proj_versions) as [v|] eqn:Hlast; simpl.
    2:{ split; [done|]. intros [Hacc _].
        destruct (Hacc prj eq_refl) as [_ [?|(v & [=] & _)]]. done. }
    destruct (Z.ltb_spec v (version prj)) as [Hlt|Hle]; simpl.
    + split; [done|]. intros [Hacc _].
      destruct (Hacc prj eq_refl) as [_ [?|(v' & [= <-] & ?)]]; [done|lia].
    + split.
      * intros [= <-]. split; [|done]. intros ? [= <-]. split; [done|].
        right. by exists v.
      * by intros [_ ->].
  - apply project_for_None in Hprj as [Hgen Hvs].
    unfold Toolset.gen_target. rewrite Hgen, Hvs. simpl. split.
    + intros [= <-]. split; [|done]. by intros ? [=].
    + by intros [_ ->].
Qed.

(** The whole loop. *)
Lemma gen_targets_Done st targets st' :
  gen_targets st targets = Done st' ↔
  Forall accepted targets ∧
  st' = mkGen (fold_left add_project (generated targets) (solution st))
              (warnings st ++ flat_map warnings_for targets).
Proof.
  revert st. induction targets as [|t targets IH]; intros st.
  - simpl. rewrite app_nil_r. split.
    + intros [= <-]. split; [constructor|by destruct st].
    + intros [_ ->]. by destruct st.
  - cbn [Toolset.gen_targets]. split.
    + intros (st1 & [Hacc ->]%gen_target_Done & [Hall ->]%IH)%bind_Done.
      split; [by constructor|]. simpl solution. simpl warnings.
      unfold Generation.generated. cbn [omap list_omap flat_map].
      rewrite <- app_assoc.
      destruct (Toolset.project_for gen_for_target vs_project t); reflexivity.
    + intros [[Hacc Hall]%Forall_cons ->]. apply bind_Done.
      eexists. split; [by apply gen_target_Done|].
      apply IH. split; [done|]. simpl solution. simpl warnings.
      unfold Generation.generated. cbn [omap list_omap flat_map].
      rewrite <- app_assoc.
      destruct (Toolset.project_for gen_for_target vs_project t); reflexivity.
Qed.

(** X24.  Generation for a module goes through exactly when every target
    that has a project has one of its own name and of a version that is
    supported or not above the last supported one.  What comes out is then
    the solution of the module with the projects of those targets added in
    the order of the targets, and one warning for each target without a
    project and for each project of an unsupported version, in the order
    of the targets. *)
Theorem gen_for_module_succeeds_iff (fresh : Solution) (targets : list Target) st :
  gen_for_module fresh targets = Done st ↔
  Forall accepted targets ∧
  st = mkGen (fold_left add_project (generated targets) fresh)
             (flat_map warnings_for targets).
Proof. unfold Toolset.gen_for_module. by rewrite gen_targets_Done. Qed.

Lemma generated_names targets :
  Forall accepted targets →
  prj_name <$> generated targets
  = t_name <$> filter (λ t, is_Some (project_for t)) targets.
Proof.
  unfold Generation.generated.
  induction 1 as [|t targets Hacc _ IH]; [done|].
  rewrite filter_cons. cbn [omap list_omap].
  destruct (Toolset.project_for gen_for_target vs_project t) as [prj|] eqn:Hprj.
  - rewrite decide_True by done. rewrite !fmap_cons. f_equal; [|exact IH].
    by destruct (Hacc prj Hprj).
  - rewrite decide_False by (by intros [? [=]]). exact IH.
Qed.

(** X25.  After generation for a module the solution has its projects of
    before followed by one project for each target that has one, in the
    order of the targets and under the names of the targets; the nested
    solutions, the name and the GUID are untouched, and the GUID map still
    gives under each name the GUID of the project added last with it. *)
Theorem gen_for_module_solution (fresh : Solution) (targets : list Target) st :
  gen_for_module fresh targets = Done st →
  projects (solution st) = projects fresh ++ generated targets ∧
  prj_name <$> generated targets
  = t_name <$> filter (λ t, is_Some (project_for t)) targets ∧
  subsolutions (solution st) = subsolutions fresh ∧
  sln_name (solution st) = sln_name fresh ∧
  sln_guid (solution st) = sln_guid fresh ∧
  (guids_kept fresh → guids_kept (solution st)).
Proof.
  unfold Toolset.gen_for_module. intros [Hacc ->]%gen_targets_Done.
  simpl solution.
  destruct (fold_add_project_projects (generated targets) fresh) as (-> & -> & -> & ->).
  split; [done|]. split; [by apply generated_names|].
  repeat split. apply fold_add_project_kept.
Qed.

End WithToolset.

Lemma gen_for_module_solution_witness :
  let fresh := new_solution "libs" "{S-libs}" in
  let st := mkGen (add_project fresh (info Samples.old_lib))
                  [msg_older 11 Samples.sample_str Samples.old_lib;
                   msg_unsupported (mkTarget "doc" "action")] in
  let gen t := if bool_decide (t_name t = "lib") then Some Samples.old_lib else None in
  let targets := [Samples.lib_target; mkTarget "doc" "action"] in
  Toolset.gen_for_module 11 Samples.sample_versions gen (λ _, NotImplemented)
    Samples.sample_str fresh targets = Done st ∧
  projects (solution st) = [info Samples.old_lib] ∧
  prj_name <$> generated gen (λ _, NotImplemented) targets = ["lib"] ∧
  guids_kept (solution st).
Proof.
  intros fresh st gen targets.
  assert (Toolset.gen_for_module 11 Samples.sample_versions gen (λ _, NotImplemented)
            Samples.sample_str fresh targets = Done st) as Hrun by reflexivity.
  destruct (gen_for_module_solution 11 Samples.sample_versions gen (λ _, NotImplemented)
              Samples.sample_str fresh targets st Hrun) as (Hp & Hn & _ & _ & _ & Hk).
  split; [exact Hrun|]. split; [exact Hp|]. split; [exact Hn|].
  apply Hk. apply SolutionMore.guids_kept_new.
Defined.

End ToolsetMore.

(** ** Default file names *)

Module DefaultsMore.

Import Defaults.

(** X26.  The default project file and the build directory are siblings of
    the solution file: they have its anchor and its components but the
    last, which is the name of the target with [.vcxproj] for the one and
    [$(Configuration)] for the other; so both are valid paths exactly when
    the solution file is. *)
Theorem defaults_share_directory (sln : Expr) (target_name : string) (prj : Expr) :
  _project_name_from_solution sln target_name = Done prj →
  ∃ components anchor,
    sln = PathExpr components anchor ∧
    prj = PathExpr (all_but_last components ++ [LiteralExpr (target_name +:+ ".vcxproj")])
                   anchor ∧
    get_builddir_for prj
    = Done (PathExpr (all_but_last components ++ [LiteralExpr "$(Configuration)"]) anchor) ∧
    ∀ ANCHORS dir,
      get_builddir_for prj = Done dir →
      (VarTypes.validate ANCHORS PathType sln = Done ()
       ↔ VarTypes.validate ANCHORS PathType prj = Done ()) ∧
      (VarTypes.validate ANCHORS PathType sln = Done ()
       ↔ VarTypes.validate ANCHORS PathType dir = Done ()).
Proof.
  unfold _project_name_from_solution, get_builddir_for, sibling, all_but_last.
  destruct sln as [| | | | | |components anchor]; try discriminate.
  intros [= <-]. exists components, anchor. split; [done|]. split; [done|].
  rewrite removelast_last. split; [done|].
  intros ANCHORS dir [= <-]. simpl. by case_bool_decide.
Qed.

Lemma defaults_share_directory_witness :
  ∃ prj,
    _project_name_from_solution (_default_solution_name "@srcdir" "hello") "app" = Done prj ∧
    prj = PathExpr [LiteralExpr "app.vcxproj"] "@srcdir" ∧
    get_builddir_for prj = Done (PathExpr [LiteralExpr "$(Configuration)"] "@srcdir").
Proof.
  eexists. split; [reflexivity|].
  destruct (defaults_share_directory (_default_solution_name "@srcdir" "hello") "app"
              _ eq_refl) as (components & anchor & [= <- <-] & Hprj & Hdir & _).
  split; [exact Hprj|exact Hdir].
Defined.

End DefaultsMore.
